(** * stf_tools: footprint profiler (stf_imem) and morph identifiers (stf_morph)

    A shallow embedding of [tools/stf_imem/stf_imem.hpp] and of
    [STFMorpher::convertMorphId_], [STFMorpher::formatMorphIndex_] and
    [STFMorpher::OpcodeMorph] from [tools/stf_morph/stf_morpher.hpp].

    Conventions.
    - [uint64_t] and [uint32_t] values are [Z] with the wrap-around written
      out ([wrap64]).
    - [std::map<uint64_t, IMemData>] is a [gmap Z IMemData]; its iteration
      (ascending key) is [map_begin_end].
    - [std::vector<IMemMap>] is a [list]; the iterator [itv_] is an index.
    - [std::bitset<50>] is a [Z] accessed with [Z.setbit], [Z.clearbit],
      [Z.testbit].
    - [std::cerr] is a list of diagnostic lines carried in the state. *)

From Stdlib Require Import ZArith Lia ZifyNat ZifyBool Ascii String.
From Stdlib Require Import DecimalString HexadecimalString DecimalN HexadecimalN.
From stdpp Require Import base numbers list sorting gmap.

Local Open Scope Z_scope.

(** ** Machine integers *)

Definition wrap64 (x : Z) : Z := x mod 2 ^ 64.

(** [static_cast<int64_t>] of a [uint64_t] value. *)
Definition to_int64 (x : Z) : Z :=
  if wrap64 x <? 2 ^ 63 then wrap64 x else wrap64 x - 2 ^ 64.

(** ** IMemData *)

Definition MAX_LHIST_ : nat := 50.

(** The two cursors are [uint32_t] in the source; they stay below
    [MAX_LHIST_] (lemmas [nextStride_idx_lt], [nextBranchHistory_idx_lt]),
    so no wrap-around arises and they are kept as [nat] to index the
    vector. *)
Record IMemData : Type := mkIMemData {
  is_16bit_ : bool;
  opcode_ : Z;
  phys_pc_ : Z;
  warmup_ : Z;
  runlength_ : Z;
  count_ : Z;
  is_loadstore_ : bool;
  last_address_ : Z;
  recent_strides_ : list Z;
  recent_strides_idx_ : nat;
  is_branch_ : bool;
  branch_lhr_ : Z;
  branch_lhr_idx_ : nat
}.

(** [IMemData() = default]: [recent_strides_] is an empty vector. *)
Definition IMemData_default : IMemData :=
  mkIMemData false 0 0 0 0 0 false 0 [] 0 false 0 0.

Definition opcodeMatch (d : IMemData) (opcode : Z) : bool := opcode_ d =? opcode.
Definition getOpcode (d : IMemData) : Z := opcode_ d.
Definition getPhysPC (d : IMemData) : Z := phys_pc_ d.
Definition getWarmup (d : IMemData) : Z := warmup_ d.
Definition getRunLength (d : IMemData) : Z := runlength_ d.
Definition getCount (d : IMemData) : Z := count_ d.
Definition getStrides (d : IMemData) : list Z := recent_strides_ d.
Definition getBranchLhr (d : IMemData) : Z := branch_lhr_ d.
Definition isLoadStore (d : IMemData) : bool := is_loadstore_ d.
Definition isBranch (d : IMemData) : bool := is_branch_ d.
Definition getOpcodeSize (d : IMemData) : Z := if is_16bit_ d then 2 else 4.

Definition incCount (d : IMemData) : IMemData :=
  mkIMemData (is_16bit_ d) (opcode_ d) (phys_pc_ d) (warmup_ d) (runlength_ d)
    (wrap64 (count_ d + 1)) (is_loadstore_ d) (last_address_ d)
    (recent_strides_ d) (recent_strides_idx_ d) (is_branch_ d)
    (branch_lhr_ d) (branch_lhr_idx_ d).

Definition incWarmup (d : IMemData) : IMemData :=
  mkIMemData (is_16bit_ d) (opcode_ d) (phys_pc_ d) (wrap64 (warmup_ d + 1))
    (runlength_ d) (count_ d) (is_loadstore_ d) (last_address_ d)
    (recent_strides_ d) (recent_strides_idx_ d) (is_branch_ d)
    (branch_lhr_ d) (branch_lhr_idx_ d).

Definition incRunLength (d : IMemData) : IMemData :=
  mkIMemData (is_16bit_ d) (opcode_ d) (phys_pc_ d) (warmup_ d)
    (wrap64 (runlength_ d + 1)) (count_ d) (is_loadstore_ d) (last_address_ d)
    (recent_strides_ d) (recent_strides_idx_ d) (is_branch_ d)
    (branch_lhr_ d) (branch_lhr_idx_ d).

(** [recent_strides_[idx] = (int64_t)(curr_addr - last_address_)], then the
    cursor advances and returns to 0 after slot [MAX_LHIST_ - 1].  (An index
    outside the vector is undefined behaviour in the source; stdpp's insert
    leaves the list alone there.) *)
Definition nextStride (curr_addr : Z) (d : IMemData) : IMemData :=
  mkIMemData (is_16bit_ d) (opcode_ d) (phys_pc_ d) (warmup_ d) (runlength_ d)
    (count_ d) (is_loadstore_ d) curr_addr
    (<[recent_strides_idx_ d := to_int64 (curr_addr - last_address_ d)]>
       (recent_strides_ d))
    (if (recent_strides_idx_ d =? MAX_LHIST_ - 1)%nat then 0%nat
     else (recent_strides_idx_ d + 1)%nat)
    (is_branch_ d) (branch_lhr_ d) (branch_lhr_idx_ d).

(** [branch_lhr_.set(idx)] or [branch_lhr_.reset(idx)], then the cursor
    advances and returns to 0 on reaching [MAX_LHIST_]. *)
Definition nextBranchHistory (taken : bool) (d : IMemData) : IMemData :=
  mkIMemData (is_16bit_ d) (opcode_ d) (phys_pc_ d) (warmup_ d) (runlength_ d)
    (count_ d) (is_loadstore_ d) (last_address_ d) (recent_strides_ d)
    (recent_strides_idx_ d) true
    (if taken then Z.setbit (branch_lhr_ d) (Z.of_nat (branch_lhr_idx_ d))
     else Z.clearbit (branch_lhr_ d) (Z.of_nat (branch_lhr_idx_ d)))
    (if (branch_lhr_idx_ d + 1 =? MAX_LHIST_)%nat then 0%nat
     else (branch_lhr_idx_ d + 1)%nat).

(** The seven-argument constructor. *)
Definition IMemData_new (is_16bit : bool) (opcode phys_pc : Z) (in_warmup : bool)
    (is_branch br_taken : bool) (mem_addr : Z) : IMemData :=
  let d := mkIMemData is_16bit opcode phys_pc
             (if in_warmup then 1 else 0) (if in_warmup then 0 else 1) 1
             (negb (mem_addr =? 0)) mem_addr (replicate MAX_LHIST_ 0) 0
             is_branch 0 0 in
  if is_branch then nextBranchHistory br_taken d else d.

(** The delegating constructors. *)
Definition IMemData_plain (is_16bit : bool) (opcode phys_pc : Z) (in_warmup : bool)
    : IMemData :=
  IMemData_new is_16bit opcode phys_pc in_warmup false false 0.

Definition IMemData_branch (is_16bit : bool) (opcode phys_pc : Z) (in_warmup : bool)
    (is_branch br_taken : bool) : IMemData :=
  IMemData_new is_16bit opcode phys_pc in_warmup is_branch br_taken 0.

Definition IMemData_mem (is_16bit : bool) (opcode phys_pc : Z) (in_warmup : bool)
    (mem_addr : Z) : IMemData :=
  IMemData_new is_16bit opcode phys_pc in_warmup false false mem_addr.

(** ** Instruction events and configuration *)

(** The fields of [stf::STFInst] the profiler reads.  Memory accesses are
    kept as the list of their addresses, in record order. *)
Record STFInst : Type := mkSTFInst {
  index : Z;
  pc : Z;
  opcode : Z;
  isOpcode16 : bool;
  valid : bool;
  isFault : bool;
  hwtid : Z;
  pid : Z;
  tid : Z;
  isLoad : bool;
  isStore : bool;
  isTakenBranch : bool;
  getMemoryReads : list Z;
  getMemoryWrites : list Z
}.

(** The fields of [STFImemConfig] read by the counting loop and by [print].
    File names, skip count and region-of-interest bounds are consumed by the
    trace reader and the output stream, which are outside this model. *)
Record STFImemConfig : Type := mkSTFImemConfig {
  show_percentage : bool;
  g_hw_tid : Z;
  g_pid : Z;
  g_tid : Z;
  keep_count : Z;
  show_physpc : bool;
  runlength_count : Z;
  warmup_count : Z;
  track : bool;
  sort_output : bool;
  skip_non_user : bool;
  local_history : bool
}.

(** Lines written to [std::cerr]. *)
Inductive Diag : Type :=
  | DiagInvalidInst (idx opc inst_pc : Z)
  | DiagTwoOpcodes (key stored_opcode new_opcode : Z)
  | DiagEmptyImem.

(** ** IMemMapVec *)

Abbreviation IMemMap := (gmap Z IMemData).

Record IMemMapVec : Type := mkIMemMapVec {
  imem_mapvec_ : list IMemMap;
  itv_ : nat;
  inst_count_ : Z;
  is_rv64_ : bool;
  max_count_ : Z;
  max_warmup_ : Z;
  max_run_length_ : Z;
  cerr_ : list Diag
}.

(** [IMemMapVec()]: one empty table, [itv_] on it. *)
Definition IMemMapVec_init : IMemMapVec :=
  mkIMemMapVec [∅] 0 0 false 0 0 0 [].

Definition with_mapvec (v : list IMemMap) (s : IMemMapVec) : IMemMapVec :=
  mkIMemMapVec v (itv_ s) (inst_count_ s) (is_rv64_ s) (max_count_ s)
    (max_warmup_ s) (max_run_length_ s) (cerr_ s).

Definition with_itv (i : nat) (s : IMemMapVec) : IMemMapVec :=
  mkIMemMapVec (imem_mapvec_ s) i (inst_count_ s) (is_rv64_ s) (max_count_ s)
    (max_warmup_ s) (max_run_length_ s) (cerr_ s).

Definition with_inst_count (n : Z) (s : IMemMapVec) : IMemMapVec :=
  mkIMemMapVec (imem_mapvec_ s) (itv_ s) n (is_rv64_ s) (max_count_ s)
    (max_warmup_ s) (max_run_length_ s) (cerr_ s).

Definition with_rv64 (b : bool) (s : IMemMapVec) : IMemMapVec :=
  mkIMemMapVec (imem_mapvec_ s) (itv_ s) (inst_count_ s) b (max_count_ s)
    (max_warmup_ s) (max_run_length_ s) (cerr_ s).

Definition with_max_count (n : Z) (s : IMemMapVec) : IMemMapVec :=
  mkIMemMapVec (imem_mapvec_ s) (itv_ s) (inst_count_ s) (is_rv64_ s) n
    (max_warmup_ s) (max_run_length_ s) (cerr_ s).

Definition with_max_warmup (n : Z) (s : IMemMapVec) : IMemMapVec :=
  mkIMemMapVec (imem_mapvec_ s) (itv_ s) (inst_count_ s) (is_rv64_ s)
    (max_count_ s) n (max_run_length_ s) (cerr_ s).

Definition with_max_run_length (n : Z) (s : IMemMapVec) : IMemMapVec :=
  mkIMemMapVec (imem_mapvec_ s) (itv_ s) (inst_count_ s) (is_rv64_ s)
    (max_count_ s) (max_warmup_ s) n (cerr_ s).

(** [std::cerr << line]. *)
Definition cerr_write (line : Diag) (s : IMemMapVec) : IMemMapVec :=
  mkIMemMapVec (imem_mapvec_ s) (itv_ s) (inst_count_ s) (is_rv64_ s)
    (max_count_ s) (max_warmup_ s) (max_run_length_ s) (cerr_ s ++ [line]).

(** [std::map::insert]: the element is added only if the key is free. *)
Definition map_insert (key : Z) (d : IMemData) (m : IMemMap) : IMemMap :=
  match m !! key with
  | Some _ => m
  | None => <[key := d]> m
  end.

(** The table [it] points to.  Dereferencing an iterator outside the vector
    is undefined in the source; [itv_] always designates a table (lemma
    [run_itv_valid]). *)
Definition table_at (it : nat) (s : IMemMapVec) : IMemMap :=
  default ∅ (imem_mapvec_ s !! it).

(** [it->find(key)] *)
Definition find_at (it : nat) (key : Z) (s : IMemMapVec) : option IMemData :=
  table_at it s !! key.

(** [it->insert(std::make_pair(key, d))] *)
Definition insert_at (it : nat) (key : Z) (d : IMemData) (s : IMemMapVec)
    : IMemMapVec :=
  with_mapvec (alter (map_insert key d) it (imem_mapvec_ s)) s.

(** Writing through [cur->second], where [cur] is an iterator to [key] in
    table [it]. *)
Definition store_at (it : nat) (key : Z) (d : IMemData) (s : IMemMapVec)
    : IMemMapVec :=
  with_mapvec (alter (<[key := d]>) it (imem_mapvec_ s)) s.

(** The three [createIMem_] overloads (the key of the pair is supplied at
    the insertion). *)
Definition createIMem_ (inst : STFInst) (physpc : Z) (in_warmup : bool)
    : IMemData :=
  IMemData_plain (isOpcode16 inst) (opcode inst) physpc in_warmup.

Definition createIMem_addr (inst : STFInst) (physpc : Z) (in_warmup : bool)
    (addr : Z) : IMemData :=
  IMemData_mem (isOpcode16 inst) (opcode inst) physpc in_warmup addr.

Definition createIMem_branch (inst : STFInst) (physpc : Z) (in_warmup : bool)
    (is_branch br_taken : bool) : IMemData :=
  IMemData_branch (isOpcode16 inst) (opcode inst) physpc in_warmup is_branch
    br_taken.

(** [incCount_], [incWarmup_], [incRunLength_], [nextStride_] and
    [nextBranchHistory_] act on a reference to an entry and on the maxima
    of the profiler; the entry travels next to the state and is written
    back with [store_at]. *)
Definition incCount_ (sd : IMemMapVec * IMemData) : IMemMapVec * IMemData :=
  let d := incCount sd.2 in
  (with_max_count (Z.max (max_count_ sd.1) (getCount d)) sd.1, d).

Definition incWarmup_ (sd : IMemMapVec * IMemData) : IMemMapVec * IMemData :=
  let d := incWarmup sd.2 in
  (with_max_warmup (Z.max (max_warmup_ sd.1) (getWarmup d)) sd.1, d).

Definition incRunLength_ (sd : IMemMapVec * IMemData) : IMemMapVec * IMemData :=
  let d := incRunLength sd.2 in
  (with_max_run_length (Z.max (max_run_length_ sd.1) (getRunLength d)) sd.1, d).

Definition nextStride_ (curr_addr : Z) (sd : IMemMapVec * IMemData)
    : IMemMapVec * IMemData :=
  (sd.1, nextStride curr_addr sd.2).

Definition nextBranchHistory_ (taken : bool) (sd : IMemMapVec * IMemData)
    : IMemMapVec * IMemData :=
  (sd.1, nextBranchHistory taken sd.2).

(** The block the source repeats on each "key and opcode found" path:
    [incCount_], then [incWarmup_] inside the warm-up window, else
    [incRunLength_] inside the run-length window. *)
Definition count_found (config : STFImemConfig) (in_warmup : bool)
    (sd : IMemMapVec * IMemData) : IMemMapVec * IMemData :=
  let sd := incCount_ sd in
  if in_warmup then incWarmup_ sd
  else if inst_count_ sd.1 <? runlength_count config then incRunLength_ sd
  else sd.

(** [for (const auto& m : accesses) addr = m.getAddress();] *)
Definition scan_addresses (accesses : list Z) (addr : Z) : Z :=
  fold_left (fun _ m => m) accesses addr.

(** ** IMem::count_impl *)

Definition IMem_count_impl (config : STFImemConfig) (inst : STFInst)
    (s : IMemMapVec) : IMemMapVec :=
  let key := pc inst in
  let physpc := 0 in
  let cur := find_at (itv_ s) key s in
  let in_warmup := inst_count_ s <? warmup_count config in
  let is_load_store_inst := isLoad inst || isStore inst in
  let addr :=
    if isLoad inst then scan_addresses (getMemoryReads inst) 0
    else if isStore inst then scan_addresses (getMemoryWrites inst) 0
    else 0 in
  let is_branch := isTakenBranch inst in
  let br_taken := isTakenBranch inst in
  match cur with
  | None =>
      if is_load_store_inst then
        insert_at (itv_ s) key (createIMem_addr inst physpc in_warmup addr) s
      else if is_branch then
        insert_at (itv_ s) key
          (createIMem_branch inst physpc in_warmup is_branch br_taken) s
      else
        insert_at (itv_ s) key (createIMem_ inst physpc in_warmup) s
  | Some d =>
      if opcodeMatch d (opcode inst) then
        let sd := count_found config in_warmup (s, d) in
        let sd :=
          if is_load_store_inst then nextStride_ addr sd
          else if is_branch then nextBranchHistory_ br_taken sd
          else sd in
        store_at (itv_ s) key sd.2 sd.1
      else
        cerr_write (DiagTwoOpcodes key (getOpcode d) (opcode inst)) s
  end.

(** ** JavaIMem::count_impl *)

(** The [while] loop over [imem_mapvec_]: [it] is the position reached,
    [itt] the last table seen without the key ([None] for
    [imem_mapvec_.end()]).  The result is the matching table and entry when
    the loop stopped on [found = true], and [itt]. *)
Fixpoint java_search (key opc : Z) (maps : list IMemMap) (it : nat)
    (itt : option nat) : option (nat * IMemData) * option nat :=
  match maps with
  | [] => (None, itt)
  | m :: rest =>
      match m !! key with
      | Some d =>
          if opcodeMatch d opc then (Some (it, d), itt)
          else java_search key opc rest (S it) itt
      | None => java_search key opc rest (S it) (Some it)
      end
  end.

(** The [else] block: the key is not in the active table with this
    opcode, so all tables are searched. *)
Definition JavaIMem_other_maps (config : STFImemConfig) (inst : STFInst)
    (s : IMemMapVec) : IMemMapVec :=
  let key := pc inst in
  let physpc := 0 in
  let in_warmup := inst_count_ s <? warmup_count config in
  match java_search key (opcode inst) (imem_mapvec_ s) 0 None with
  | (Some (it, d), _) =>
      let sd := count_found config in_warmup (s, d) in
      with_itv it (store_at it key sd.2 sd.1)
  | (None, itt) =>
      let s1 :=
        match itt with
        | None => with_itv 0 (with_mapvec (∅ :: imem_mapvec_ s) s)
        | Some t =>
            if bool_decide (is_Some (find_at (itv_ s) key s))
            then with_itv t s else s
        end in
      insert_at (itv_ s1) key (createIMem_ inst physpc in_warmup) s1
  end.

Definition JavaIMem_count_impl (config : STFImemConfig) (inst : STFInst)
    (s : IMemMapVec) : IMemMapVec :=
  let key := pc inst in
  let cur := find_at (itv_ s) key s in
  let in_warmup := inst_count_ s <? warmup_count config in
  match cur with
  | Some d =>
      if opcodeMatch d (opcode inst) then
        let sd := count_found config in_warmup (s, d) in
        store_at (itv_ s) key sd.2 sd.1
      else JavaIMem_other_maps config inst s
  | None => JavaIMem_other_maps config inst s
  end.

(** ** IMemMapVecIntf::processTrace_ *)

Inductive ImplType : Type := IMem | JavaIMem.

Definition count_impl (impl : ImplType) : STFImemConfig -> STFInst ->
    IMemMapVec -> IMemMapVec :=
  match impl with
  | IMem => IMem_count_impl
  | JavaIMem => JavaIMem_count_impl
  end.

(** An event is admitted when none of the [continue] statements fires. *)
Definition admitted (config : STFImemConfig) (inst : STFInst) : bool :=
  negb (negb (g_hw_tid config =? 0) && negb (g_hw_tid config =? hwtid inst))
  && negb (negb (g_pid config =? 0) && negb (g_pid config =? pid inst))
  && negb (negb (g_tid config =? 0) && negb (g_tid config =? tid inst))
  && negb (isFault inst).

(** The diagnostic for an invalid instruction at the top of the loop body. *)
Definition report_invalid (inst : STFInst) (s : IMemMapVec) : IMemMapVec :=
  if negb (valid inst)
  then cerr_write (DiagInvalidInst (index inst) (opcode inst) (pc inst)) s
  else s.

(** [count_impl(config, inst); ++inst_count_;] *)
Definition count (impl : ImplType) (config : STFImemConfig) (inst : STFInst)
    (s : IMemMapVec) : IMemMapVec :=
  let s := count_impl impl config inst s in
  with_inst_count (wrap64 (inst_count_ s + 1)) s.

(** The loop over the (already region-bounded) instruction sequence, with
    its [break] once [inst_count_] reaches [keep_count]. *)
Fixpoint processTrace_loop (impl : ImplType) (config : STFImemConfig)
    (insts : list STFInst) (s : IMemMapVec) : IMemMapVec :=
  match insts with
  | [] => s
  | inst :: rest =>
      let s := report_invalid inst s in
      if admitted config inst then
        let s := count impl config inst s in
        if keep_count config <=? inst_count_ s then s
        else processTrace_loop impl config rest s
      else processTrace_loop impl config rest s
  end.

Definition processTrace_ (impl : ImplType) (config : STFImemConfig)
    (iem_is_rv64 : bool) (insts : list STFInst) (s : IMemMapVec) : IMemMapVec :=
  processTrace_loop impl config insts (with_rv64 iem_is_rv64 s).

(** One iteration of the loop without the [break], and its iteration over
    a sequence: every state [processTrace_loop] goes through is a [run] on
    a prefix (lemma [processTrace_loop_run]). *)
Definition loop_body (impl : ImplType) (config : STFImemConfig)
    (s : IMemMapVec) (inst : STFInst) : IMemMapVec :=
  let s := report_invalid inst s in
  if admitted config inst then count impl config inst s else s.

Definition run (impl : ImplType) (config : STFImemConfig)
    (insts : list STFInst) (s : IMemMapVec) : IMemMapVec :=
  fold_left (loop_body impl config) insts s.

(** ** IMemMapVec::print *)

(** [for (auto imem_it = it->begin(); imem_it != it->end(); ++imem_it)]:
    a [std::map] is traversed in ascending key order. *)
Definition key_le (a b : Z * IMemData) : Prop := a.1 <= b.1.

#[global] Instance key_le_dec : RelDecision key_le :=
  fun a b => decide (a.1 <= b.1).

Definition map_begin_end (m : IMemMap) : list (Z * IMemData) :=
  merge_sort key_le (map_to_list m).

Module SortedMapKey.
Record t : Type := mk { count_ : Z; pc_ : Z }.

(** [operator<] *)
Definition lt (lhs rhs : t) : bool :=
  (count_ lhs <? count_ rhs)
  || ((count_ lhs =? count_ rhs) && (pc_ rhs <? pc_ lhs)).

Definition getCount (k : t) : Z := count_ k.
Definition getPC (k : t) : Z := pc_ k.
End SortedMapKey.

(** [SortedVector]: the iterators are represented by the elements they
    point to. *)
Abbreviation SortedVector := (list (Z * IMemData)).

(** [std::multimap<SortedMapKey, SortedVector>] as the list of its elements
    in iteration order.  [emplace] puts the new element at the upper bound
    of its key: before the first element whose key is greater. *)
Abbreviation SortedMap := (list (SortedMapKey.t * SortedVector)).

Fixpoint multimap_emplace (k : SortedMapKey.t) (v : SortedVector)
    (m : SortedMap) : SortedMap :=
  match m with
  | [] => [(k, v)]
  | e :: rest =>
      if SortedMapKey.lt k e.1 then (k, v) :: m
      else e :: multimap_emplace k v rest
  end.

(** Lines of the address-ordered report.  Column widths, percentages and
    the disassembly text come from formatting helpers and the decoder; an
    item line is represented by the entry it renders. *)
Inductive OutLine : Type :=
  | OutConfig (warmup : Z) (skip_non_user_flag : bool)
  | OutFields (names : list string)
  | OutMapBanner (num : Z) (rv64 : bool)
  | OutGap
  | OutItem (inst_pc : Z) (d : IMemData).

(** Lines of the frequency-ranked report. *)
Inductive SortedLine : Type :=
  | SortedRule
  | SortedTotals (total_inst_count max_count : Z)
  | SortedBlockHeader (block_inst : Z) (block_addr : nat)
  | SortedItem (inst_pc : Z) (d : IMemData) (cumulative_count : Z).

(** The locals of [print] that live across the two nested loops. *)
Record PrintLocals : Type := mkPrintLocals {
  prev_pc : Z;
  prev_size : Z;
  map_num : Z;
  first : bool;
  block_count : Z;
  current_block : SortedVector;
  sorted_map : SortedMap;
  os : list OutLine
}.

(** [current_block.front()->first]; the vector is not empty where the
    source evaluates this (lemma [print_item_block_nonempty]). *)
Definition front_pc (block : SortedVector) : Z :=
  match block with
  | e :: _ => e.1
  | [] => 0
  end.

(** The body of the inner loop, for the entry [cur]. *)
Definition print_item (config : STFImemConfig) (os_is_stdout : bool)
    (l : PrintLocals) (cur : Z * IMemData) : PrintLocals :=
  let inst_pc := cur.1 in
  let count := getCount cur.2 in
  let l1 :=
    if first l || negb (wrap64 (prev_pc l + prev_size l) =? inst_pc) then
      if first l then
        mkPrintLocals (prev_pc l) (prev_size l) (map_num l) false
          (block_count l) (current_block l) (sorted_map l) (os l)
      else
        let os1 := if negb (sort_output config) then os l ++ [OutGap] else os l in
        if sort_output config then
          mkPrintLocals (prev_pc l) (prev_size l) (map_num l) (first l) 0 []
            (multimap_emplace
               (SortedMapKey.mk (block_count l) (front_pc (current_block l)))
               (current_block l) (sorted_map l))
            os1
        else
          mkPrintLocals (prev_pc l) (prev_size l) (map_num l) (first l)
            (block_count l) (current_block l) (sorted_map l) os1
    else l in
  let l2 :=
    if sort_output config then
      mkPrintLocals (prev_pc l1) (prev_size l1) (map_num l1) (first l1)
        (wrap64 (block_count l1 + count)) (current_block l1 ++ [cur])
        (sorted_map l1) (os l1)
    else l1 in
  let os3 :=
    if negb os_is_stdout || negb (sort_output config)
    then os l2 ++ [OutItem inst_pc cur.2] else os l2 in
  mkPrintLocals inst_pc (getOpcodeSize cur.2) (map_num l2) (first l2)
    (block_count l2) (current_block l2) (sorted_map l2) os3.

(** The body of the outer loop, for the table [m]. *)
Definition print_map (config : STFImemConfig) (os_is_stdout rv64 : bool)
    (l : PrintLocals) (m : IMemMap) : PrintLocals :=
  let l1 :=
    mkPrintLocals (prev_pc l) (prev_size l) (map_num l) (first l)
      (block_count l) (current_block l) (sorted_map l)
      (os l ++ [OutMapBanner (map_num l) rv64]) in
  let l2 := fold_left (print_item config os_is_stdout) (map_begin_end m) l1 in
  mkPrintLocals (prev_pc l2) (prev_size l2) ((map_num l2 + 1) mod 2 ^ 32)
    (first l2) (block_count l2) (current_block l2) (sorted_map l2) (os l2).

(** The header printed when [config.track] is set. *)
Definition print_header (config : STFImemConfig) : list OutLine :=
  if track config then
    [OutConfig (warmup_count config) (skip_non_user config);
     OutFields
       ((if show_percentage config
         then ["total%"; "warm%"; "run%"]%string else [])
        ++ ["total"; "warm"; "runl"; "instpc"; "opcode"; "disasm"]%string)]
  else [].

(** The two loops; [imem_mapvec_.rbegin()] to [rend()] is the vector in
    reverse. *)
Definition print_loops (config : STFImemConfig) (os_is_stdout : bool)
    (s : IMemMapVec) : PrintLocals :=
  fold_left (print_map config os_is_stdout (is_rv64_ s))
    (reverse (imem_mapvec_ s))
    (mkPrintLocals 0 0 1 true 0 [] [] (print_header config)).

(** The [sorted_map] after the last open block has been added. *)
Definition print_sorted_map (config : STFImemConfig) (l : PrintLocals)
    : SortedMap :=
  if sort_output config && negb (bool_decide (current_block l = [])) then
    multimap_emplace
      (SortedMapKey.mk (block_count l) (front_pc (current_block l)))
      (current_block l) (sorted_map l)
  else sorted_map l.

(** The inner loop of the sorted report: one line per entry of a block,
    [cumulative_count] running across blocks. *)
Definition print_sorted_item (acc : list SortedLine * Z) (cur : Z * IMemData)
    : list SortedLine * Z :=
  let cumulative_count := wrap64 (acc.2 + getCount cur.2) in
  (acc.1 ++ [SortedItem cur.1 cur.2 cumulative_count], cumulative_count).

Definition print_sorted_block (acc : list SortedLine * Z)
    (blk : SortedMapKey.t * SortedVector) : list SortedLine * Z :=
  fold_left print_sorted_item blk.2
    (acc.1 ++ [SortedBlockHeader (SortedMapKey.getCount blk.1) (length blk.2)],
     acc.2).

(** What [print] leaves behind: the address-ordered stream, the sorted
    stream when one is opened, the diagnostics, and the failed [stf_assert]
    (cumulative count and instruction count) when it throws. *)
Record PrintResult : Type := mkPrintResult {
  os_ : list OutLine;
  sorted_os_ : option (list SortedLine);
  print_cerr_ : list Diag;
  stf_assert_failed_ : option (Z * Z)
}.

(** [sorted_map.rbegin()] to [rend()]: the blocks in the order in which the
    sorted report emits them. *)
Definition sorted_blocks (config : STFImemConfig) (os_is_stdout : bool)
    (s : IMemMapVec) : SortedMap :=
  reverse (print_sorted_map config (print_loops config os_is_stdout s)).

Definition print (config : STFImemConfig) (os_is_stdout : bool)
    (s : IMemMapVec) : PrintResult :=
  let l := print_loops config os_is_stdout s in
  if sort_output config then
    let blocks := sorted_blocks config os_is_stdout s in
    match blocks with
    | [] => mkPrintResult (os l) None [DiagEmptyImem] None
    | _ :: _ =>
        let head :=
          (if os_is_stdout then [SortedRule] else [])
          ++ [SortedTotals (inst_count_ s) (max_count_ s)] in
        let out := fold_left print_sorted_block blocks (head, 0) in
        mkPrintResult (os l) (Some out.1) []
          (if out.2 =? inst_count_ s then None
           else Some (out.2, inst_count_ s))
    end
  else mkPrintResult (os l) None [] None.

(** ** STFMorpher::convertMorphId_ *)

Module STFMorpher.

Inductive MorphType : Type := STFID | PC | NUM_TYPES.

(** What a call returns or throws. *)
Inductive IdResult : Type :=
  | Id (value : Z)
  | invalid_argument
  | out_of_range
  | stf_throw (msg : string).

(** [isspace] in the C locale. *)
Definition isspace (c : ascii) : bool :=
  let n := nat_of_ascii c in
  (n =? 32)%nat || ((9 <=? n)%nat && (n <=? 13)%nat).

(** The value of an alphanumeric character as a digit ([strtoull]). *)
Definition digit_of (c : ascii) : option Z :=
  let n := Z.of_nat (nat_of_ascii c) in
  if (48 <=? n) && (n <=? 57) then Some (n - 48)
  else if (97 <=? n) && (n <=? 122) then Some (n - 87)
  else if (65 <=? n) && (n <=? 90) then Some (n - 55)
  else None.

Fixpoint skip_space (s : string) : string :=
  match s with
  | String c rest => if isspace c then skip_space rest else s
  | EmptyString => s
  end.

(** The digit loop of [strtoull]: the value read so far and whether any
    digit was consumed.  It stops at the first character that is not a
    digit of the base. *)
Fixpoint strtoull_digits (base : Z) (s : string) (acc : Z) (any : bool)
    : Z * bool :=
  match s with
  | EmptyString => (acc, any)
  | String c rest =>
      match digit_of c with
      | Some v =>
          if v <? base then strtoull_digits base rest (acc * base + v) true
          else (acc, any)
      | None => (acc, any)
      end
  end.

(** An optional [0x] or [0X] in front of a hexadecimal digit. *)
Definition skip_hex_prefix (s : string) : string :=
  match s with
  | String "0" (String x (String h rest)) =>
      if ((x =? "x")%char || (x =? "X")%char)
         && match digit_of h with Some v => v <? 16 | None => false end
      then String h rest else s
  | _ => s
  end.

(** The optional sign in front of the digits. *)
Definition split_sign (s : string) : bool * string :=
  match s with
  | String "-" rest => (true, rest)
  | String "+" rest => (false, rest)
  | _ => (false, s)
  end.

(** [std::stoull(str, 0, base)] for base 10 or 16: leading white space,
    an optional sign, for base 16 an optional prefix, then digits.  No
    digit: [std::invalid_argument]; a value above [ULLONG_MAX]:
    [std::out_of_range]; a minus sign negates in [unsigned long long]. *)
Definition stoull (str : string) (base : Z) : IdResult :=
  let signed := split_sign (skip_space str) in
  let s := if base =? 16 then skip_hex_prefix signed.2 else signed.2 in
  let r := strtoull_digits base s 0 false in
  if negb r.2 then invalid_argument
  else if 2 ^ 64 <=? r.1 then out_of_range
  else Id (if signed.1 then wrap64 (- r.1) else r.1).

Definition convertMorphId_ (morph_type : MorphType) (id_str : string)
    : IdResult :=
  match morph_type with
  | STFID => stoull id_str 10
  | PC => stoull id_str 16
  | NUM_TYPES => stf_throw "Invalid morph type"
  end.

(** ** STFMorpher::formatMorphIndex_ *)





(** ** STFMorpher::OpcodeMorph *)

Section opcode_morph.

(** [stf::InstRegRecord] and [stf::INST_MEM_ACCESS] belong to the trace
    library; the morph only stores them. *)
Variables InstRegRecord INST_MEM_ACCESS : Type.

Record Op : Type := mkOp {
  opcode_ : Z;
  operands_ : list InstRegRecord;
  ls_address_ : Z;
  ls_stride_ : Z;
  ls_size_ : Z;
  ls_access_type_ : INST_MEM_ACCESS;
  op_size_ : Z
}.

Record OpcodeMorph : Type := mkOpcodeMorph {
  total_size_ : Z;
  opcodes_ : list Op
}.

(** [total_size_ = 0] and an empty vector. *)
Definition OpcodeMorph_default : OpcodeMorph := mkOpcodeMorph 0 [].

(** [opcodes_.emplace_back(...); total_size_ += op_size;] on a [size_t]. *)
Definition addOp (opcode : Z) (operands : list InstRegRecord)
    (ls_address ls_stride ls_size : Z) (ls_access_type : INST_MEM_ACCESS)
    (op_size : Z) (m : OpcodeMorph) : OpcodeMorph :=
  mkOpcodeMorph (wrap64 (total_size_ m + op_size))
    (opcodes_ m ++ [mkOp opcode operands ls_address ls_stride ls_size
                      ls_access_type op_size]).

Definition getOpcodes (m : OpcodeMorph) : list Op := opcodes_ m.

Definition getTotalSize (m : OpcodeMorph) : Z := total_size_ m.

End opcode_morph.

Arguments mkOp {_ _}.
Arguments opcode_ {_ _}.
Arguments operands_ {_ _}.
Arguments ls_address_ {_ _}.
Arguments ls_stride_ {_ _}.
Arguments ls_size_ {_ _}.
Arguments ls_access_type_ {_ _}.
Arguments op_size_ {_ _}.
Arguments mkOpcodeMorph {_ _}.
Arguments total_size_ {_ _}.
Arguments opcodes_ {_ _}.
Arguments addOp {_ _}.
Arguments getOpcodes {_ _}.
Arguments getTotalSize {_ _}.

End STFMorpher.

(** ** Histories: sequences of pushes *)

(** Pushing addresses through [nextStride], bits through
    [nextBranchHistory]. *)
Definition push_addrs (addrs : list Z) (d : IMemData) : IMemData :=
  fold_left (fun d a => nextStride a d) addrs d.

Definition push_bits (bits : list bool) (d : IMemData) : IMemData :=
  fold_left (fun d b => nextBranchHistory b d) bits d.

(** The stride values the pushes of [addrs] write, when the last address
    before them is [last]. *)
Fixpoint pushed_strides (last : Z) (addrs : list Z) : list Z :=
  match addrs with
  | [] => []
  | a :: rest => to_int64 (a - last) :: pushed_strides a rest
  end.

(** The shape every constructed entry has: a full-length stride vector and
    both cursors inside it. *)
Definition lhist_ok (d : IMemData) : Prop :=
  length (recent_strides_ d) = MAX_LHIST_
  /\ (recent_strides_idx_ d < MAX_LHIST_)%nat
  /\ (branch_lhr_idx_ d < MAX_LHIST_)%nat.

(** ** Totals over the footprint tables *)

(** The sum of [f] over the entries of a table, and over all tables. *)
Definition map_total (f : IMemData -> Z) (m : IMemMap) : Z :=
  map_fold (fun _ d acc => f d + acc) 0 m.

Definition tables_total (f : IMemData -> Z) (tables : list IMemMap) : Z :=
  foldr (fun m acc => map_total f m + acc) 0 tables.

Definition total_count (s : IMemMapVec) : Z :=
  tables_total getCount (imem_mapvec_ s).

Definition total_warmup (s : IMemMapVec) : Z :=
  tables_total getWarmup (imem_mapvec_ s).

Definition total_runlength (s : IMemMapVec) : Z :=
  tables_total getRunLength (imem_mapvec_ s).

(** No warm-up or run-length counter sits at [UINT64_MAX]: the next
    increment does not wrap. *)
Definition counters_below_max (s : IMemMapVec) : Prop :=
  Forall (map_Forall (fun (_ : Z) d =>
            0 <= getWarmup d < 2 ^ 64 - 1
            /\ 0 <= getRunLength d < 2 ^ 64 - 1))
    (imem_mapvec_ s).

(** ** What one call of [count_impl] does to the tables *)

(** [d'] is [d] after the "key and opcode found" block (and a history
    push): the count went up, and the warm-up or the run-length counter as
    the windows say. *)
Definition entry_counted (config : STFImemConfig) (s : IMemMapVec)
    (d d' : IMemData) : Prop :=
  count_ d' = wrap64 (count_ d + 1)
  /\ opcode_ d' = opcode_ d
  /\ warmup_ d' =
       (if inst_count_ s <? warmup_count config
        then wrap64 (warmup_ d + 1) else warmup_ d)
  /\ runlength_ d' =
       (if inst_count_ s <? warmup_count config then runlength_ d
        else if inst_count_ s <? runlength_count config
             then wrap64 (runlength_ d + 1) else runlength_ d).

(** [d] is an entry made by one of the [createIMem_] overloads for
    [inst]. *)
Definition entry_created (config : STFImemConfig) (inst : STFInst)
    (s : IMemMapVec) (d : IMemData) : Prop :=
  count_ d = 1
  /\ opcode_ d = opcode inst
  /\ warmup_ d = (if inst_count_ s <? warmup_count config then 1 else 0)
  /\ runlength_ d = (if inst_count_ s <? warmup_count config then 0 else 1).

(** The four things a call can do to [imem_mapvec_]: nothing; update the
    entry of the key in one table, where its opcode matches; add an entry
    for the key to a table that lacks it; put a new one-entry table in
    front. *)
Inductive table_step (config : STFImemConfig) (inst : STFInst)
    (s : IMemMapVec) : list IMemMap -> Prop :=
  | step_same : table_step config inst s (imem_mapvec_ s)
  | step_update it m d d' :
      imem_mapvec_ s !! it = Some m ->
      m !! pc inst = Some d ->
      opcodeMatch d (opcode inst) = true ->
      entry_counted config s d d' ->
      table_step config inst s
        (<[it := <[pc inst := d']> m]> (imem_mapvec_ s))
  | step_create it m d :
      imem_mapvec_ s !! it = Some m ->
      m !! pc inst = None ->
      entry_created config inst s d ->
      table_step config inst s
        (<[it := <[pc inst := d]> m]> (imem_mapvec_ s))
  | step_new_table d :
      entry_created config inst s d ->
      table_step config inst s ({[pc inst := d]} :: imem_mapvec_ s).

(** ** Sample events and configurations *)

(** An event with no memory access that is neither filtered nor faulting. *)
Definition plain_inst (idx inst_pc opc : Z) : STFInst :=
  mkSTFInst idx inst_pc opc false true false 0 0 0 false false false [] [].

Definition load_inst (idx inst_pc opc : Z) (reads : list Z) : STFInst :=
  mkSTFInst idx inst_pc opc false true false 0 0 0 true false false reads [].

Definition taken_branch_inst (idx inst_pc opc : Z) : STFInst :=
  mkSTFInst idx inst_pc opc false true false 0 0 0 false false true [] [].

(** The defaults of [STFImemConfig], with the sorted output on or off. *)
Definition default_config (sorted : bool) : STFImemConfig :=
  mkSTFImemConfig false 0 0 0 (2 ^ 64 - 1) false (2 ^ 64 - 1) 0 false sorted
    false false.

(** Where the table at position [i] before a call is found after it: a new
    table in front moves the others up by one. *)
Definition moved_to (s s' : IMemMapVec) (i : nat) : nat :=
  (i + (length (imem_mapvec_ s') - length (imem_mapvec_ s)))%nat.

(** ** Branch history of the non-Java profiler *)

(** The occurrences that reach [nextBranchHistory] for the entry of [key]
    with opcode [opc]: admitted events at that PC with that opcode that are
    not loads or stores and are taken branches. *)
Definition pushes_branch (config : STFImemConfig) (key opc : Z)
    (inst : STFInst) : bool :=
  admitted config inst && (pc inst =? key) && (opcode inst =? opc)
  && negb (isLoad inst || isStore inst) && isTakenBranch inst.

Definition taken_pushes (config : STFImemConfig) (key opc : Z)
    (insts : list STFInst) : nat :=
  length (List.filter (pushes_branch config key opc) insts).

(** The branch fields of an entry after [n] pushes of a taken outcome. *)
Definition branch_history_of (n : nat) (d : IMemData) : Prop :=
  (isBranch d = true <-> (0 < n)%nat)
  /\ getBranchLhr d = Z.ones (Z.of_nat (n `min` MAX_LHIST_))
  /\ branch_lhr_idx_ d = (n mod MAX_LHIST_)%nat.

(** The invariant of an [IMem] run: one table; each entry carries the
    branch history of the taken pushes counted for it; a PC without entry
    has not been admitted yet. *)
Definition IMem_branch_inv (config : STFImemConfig) (insts : list STFInst)
    (s : IMemMapVec) : Prop :=
  exists m,
    imem_mapvec_ s = [m] /\ itv_ s = 0%nat
    /\ (forall key d, m !! key = Some d ->
          branch_history_of (taken_pushes config key (opcode_ d) insts) d)
    /\ (forall key, m !! key = None ->
          Forall (fun e => admitted config e = true -> pc e <> key) insts).

(** ** Blocks of the sorted report *)

(** The count [print] accumulates for a block: [block_count += count] for
    each of its entries, from 0. *)
Definition block_total (block : SortedVector) : Z :=
  fold_left (fun acc e => wrap64 (acc + getCount e.2)) block 0.

(** A block as [print] files it: not empty, under the PC of its first entry
    and its accumulated count. *)
Definition block_ok (blk : SortedMapKey.t * SortedVector) : Prop :=
  blk.2 <> []
  /\ SortedMapKey.getPC blk.1 = front_pc blk.2
  /\ SortedMapKey.getCount blk.1 = block_total blk.2.

(** The order of the sorted report: a block comes before another when its
    count is larger, or equal with a starting PC that is not larger. *)
Definition emitted_before (a b : SortedMapKey.t * SortedVector) : Prop :=
  SortedMapKey.getCount a.1 > SortedMapKey.getCount b.1
  \/ (SortedMapKey.getCount a.1 = SortedMapKey.getCount b.1
      /\ SortedMapKey.getPC a.1 <= SortedMapKey.getPC b.1).

(** The iteration order of the multimap: no element is greater than a later
    one. *)
Definition multimap_order (a b : SortedMapKey.t * SortedVector) : Prop :=
  SortedMapKey.lt b.1 a.1 = false.

(** What holds of the locals of [print] between two entries. *)
Definition print_inv (config : STFImemConfig) (l : PrintLocals) : Prop :=
  StronglySorted multimap_order (sorted_map l)
  /\ Forall block_ok (sorted_map l)
  /\ block_count l = block_total (current_block l)
  /\ (sort_output config = true -> first l = false -> current_block l <> []).

(** ** Shape of the two reports *)

(** A line of the sorted report without its formatting: the count of a
    block header, or the PC of an item. *)
Definition line_shape (line : SortedLine) : option (Z + Z) :=
  match line with
  | SortedBlockHeader c _ => Some (inl c)
  | SortedItem inst_pc _ _ => Some (inr inst_pc)
  | _ => None
  end.

Definition block_shape (blk : SortedMapKey.t * SortedVector) : list (Z + Z) :=
  inl (SortedMapKey.getCount blk.1) :: (inr ∘ fst <$> blk.2).

Definition not_gap (line : OutLine) : bool :=
  match line with
  | OutGap => false
  | _ => true
  end.

(** The item lines [print] writes for a table: its entries in iteration
    order, unless the report goes to standard output with sorting on. *)
Definition table_rows (config : STFImemConfig) (os_is_stdout : bool)
    (m : IMemMap) : list OutLine :=
  if negb os_is_stdout || negb (sort_output config)
  then (fun e => OutItem e.1 e.2) <$> map_begin_end m
  else [].

(** [map_num] at the [i]-th table: a [uint32_t] counted up from 1. *)
Definition map_num_at (i : nat) : Z :=
  Nat.iter i (fun n => (n + 1) mod 2 ^ 32) 1.

(** The address-ordered report, gap markers apart, for the tables taken in
    the order [tables]. *)
Definition report_of_tables (config : STFImemConfig) (os_is_stdout rv64 : bool)
    (tables : list IMemMap) : list OutLine :=
  print_header config
  ++ concat (imap (fun i m => OutMapBanner (map_num_at i) rv64
                              :: table_rows config os_is_stdout m) tables).

(** ** When the tables were created *)

#[global] Instance IMemData_eq_dec : EqDecision IMemData.
Proof. solve_decision. Defined.

(** The position of the table that [T'] has and [T] lacks: [T'] without
    the table at that position is [T]. *)
Definition new_table_at (T T' : list IMemMap) : option nat :=
  head (List.filter (fun i => bool_decide (delete i T' = T))
          (seq 0 (length T'))).

(** A run (from the state [processTrace_] starts in, [rv] being the
    encoding read from the trace) together with a stamp for each table of
    [imem_mapvec_], in the order of the tables: the position in the
    instruction sequence, counted from 1, of the event whose processing
    added the table; 0 for the table the constructor makes.  After each
    event the tables are compared with those before it, and when a table
    has been added its stamp is put where the table is. *)
Definition births_step (impl : ImplType) (config : STFImemConfig)
    (acc : nat * IMemMapVec * list nat) (inst : STFInst)
    : nat * IMemMapVec * list nat :=
  let s' := loop_body impl config acc.1.2 inst in
  (S acc.1.1, s',
   match new_table_at (imem_mapvec_ acc.1.2) (imem_mapvec_ s') with
   | Some i => take i acc.2 ++ S acc.1.1 :: drop i acc.2
   | None => acc.2
   end).

Definition run_births (impl : ImplType) (config : STFImemConfig) (rv : bool)
    (insts : list STFInst) : nat * IMemMapVec * list nat :=
  fold_left (births_step impl config) insts
    (0%nat, with_rv64 rv IMemMapVec_init, [0%nat]).

Definition table_births (impl : ImplType) (config : STFImemConfig)
    (rv : bool) (insts : list STFInst) : list nat :=
  (run_births impl config rv insts).2.

(** What the stamp [stamp] says of the table [m] of a run over [insts]: a
    stamp [k + 1] means that the run had one table fewer before the event
    at position [k] (counted from 0) than after it, and that [m] holds
    the entry made for that event, its PC with its opcode. *)
Definition created_by (impl : ImplType) (config : STFImemConfig) (rv : bool)
    (insts : list STFInst) (stamp : nat) (m : IMemMap) : Prop :=
  match stamp with
  | O => True
  | S k =>
      S (length (imem_mapvec_
                   (run impl config (take k insts)
                      (with_rv64 rv IMemMapVec_init))))
      = length (imem_mapvec_
                  (run impl config (take (S k) insts)
                     (with_rv64 rv IMemMapVec_init)))
      /\ exists e d,
           insts !! k = Some e /\ m !! pc e = Some d
           /\ getOpcode d = opcode e
  end.

(** The opcode of an item line of the address-ordered report. *)
Definition item_opcode (line : OutLine) : option Z :=
  match line with
  | OutItem _ d => Some (getOpcode d)
  | _ => None
  end.

(** [itv_] points into [imem_mapvec_]. *)
Definition itv_valid (s : IMemMapVec) : Prop :=
  (itv_ s < length (imem_mapvec_ s))%nat.

(** Strictly ascending PCs. *)
Definition pc_lt (a b : Z * IMemData) : Prop := a.1 < b.1.

#[global] Instance key_le_trans : Transitive key_le.
Proof. unfold key_le. intros x y z. lia. Qed.

#[global] Instance key_le_total : Total key_le.
Proof. unfold key_le. intros x y. lia. Qed.

(** ** Counting events, warnings and counts *)

Definition is_two_opcodes (line : Diag) : bool :=
  match line with
  | DiagTwoOpcodes _ _ _ => true
  | _ => false
  end.

(** The number of mismatch warnings on the diagnostic stream. *)
Definition two_opcodes_warnings (s : IMemMapVec) : Z :=
  Z.of_nat (length (List.filter is_two_opcodes (cerr_ s))).

(** The number of admitted events of a sequence. *)
Definition admitted_count (config : STFImemConfig) (insts : list STFInst)
    : Z :=
  Z.of_nat (length (List.filter (admitted config) insts)).

Definition counts_nonneg (s : IMemMapVec) : Prop :=
  Forall (map_Forall (fun (_ : Z) d => 0 <= getCount d)) (imem_mapvec_ s).

(** [x] is [s] after an event that was counted in an entry: one more in
    the sum of the counts, nothing written to [std::cerr]. *)
Definition counted_once (s x : IMemMapVec) : Prop :=
  total_count x = total_count s + 1
  /\ counts_nonneg x
  /\ cerr_ x = cerr_ s.

(** The sum of the counts of a list of entries, of the blocks of a sorted
    map. *)
Definition entries_total (block : SortedVector) : Z :=
  foldr (fun e acc => getCount e.2 + acc) 0 block.

Definition blocks_total (blocks : SortedMap) : Z :=
  foldr (fun blk acc => entries_total blk.2 + acc) 0 blocks.

(** ** Numerals *)

(** Decimal and hexadecimal numerals are those of the standard library:
    [Decimal.uint] and [Hexadecimal.uint], most significant digit first,
    written out by [string_of_uint] (lower-case hexadecimal digits) and
    valued by [N.of_uint] and [N.of_hex_uint]. *)
Definition dec_string (d : Decimal.uint) : string :=
  DecimalString.NilEmpty.string_of_uint d.

Definition hex_string (d : Hexadecimal.uint) : string :=
  HexadecimalString.NilEmpty.string_of_uint d.

Definition dec_value (d : Decimal.uint) : Z := Z.of_N (N.of_uint d).

Definition hex_value (d : Hexadecimal.uint) : Z := Z.of_N (N.of_hex_uint d).

Definition has_digit (d : Decimal.uint) : bool :=
  match d with
  | Decimal.Nil => false
  | _ => true
  end.

Definition has_hex_digit (d : Hexadecimal.uint) : bool :=
  match d with
  | Hexadecimal.Nil => false
  | _ => true
  end.

(** ** Events counted for an entry *)

(** The admitted events at PC [key] with opcode [opc], and their number in
    a sequence. *)
Definition counts_event (config : STFImemConfig) (key opc : Z)
    (e : STFInst) : bool :=
  admitted config e && (pc e =? key) && (opcode e =? opc).

Definition occurrences (config : STFImemConfig) (key opc : Z)
    (insts : list STFInst) : Z :=
  Z.of_nat (length (List.filter (counts_event config key opc) insts)).

(** Some table holds an entry for [key] with opcode [opc]. *)
Definition has_pair (tables : list IMemMap) (key opc : Z) : Prop :=
  exists i m d,
    tables !! i = Some m /\ m !! key = Some d /\ getOpcode d = opc.

(** Table [i] holds the entry [d] for [key]. *)
Definition entry_at (tables : list IMemMap) (i : nat) (key : Z)
    (d : IMemData) : Prop :=
  exists m, tables !! i = Some m /\ m !! key = Some d.

(** What a run over [insts] has made of the tables: each entry has been
    counted once for each admitted event at its PC with its opcode, and no
    two tables hold the same PC with the same opcode. *)
Definition counts_exact (config : STFImemConfig) (insts : list STFInst)
    (tables : list IMemMap) : Prop :=
  (forall i key d, entry_at tables i key d ->
     getCount d = occurrences config key (getOpcode d) insts
     /\ 0 < getCount d)
  /\ (forall i j key di dj,
        entry_at tables i key di -> entry_at tables j key dj ->
        getOpcode di = getOpcode dj -> i = j).

(** Which events have an entry: with the Java variant every PC and opcode
    that occurred; with the other one every PC that occurred. *)
Definition seen_pairs (impl : ImplType) (config : STFImemConfig)
    (insts : list STFInst) (tables : list IMemMap) : Prop :=
  forall key opc, 0 < occurrences config key opc insts ->
    match impl with
    | JavaIMem => has_pair tables key opc
    | IMem => exists i d, entry_at tables i key d
    end.

(** One call of [count_impl], from [s] to [s'], by cases: the event is
    counted in the entry that has its PC and opcode, and [max_count_]
    follows that count; or an entry is made for it, in a table that lacks
    the PC or in a new table in front, and then (Java variant) no table had
    the PC with this opcode; or the non-Java profiler finds another opcode
    in its active table and leaves the tables alone.  In the last three
    cases [max_count_] stays. *)
Definition count_cases (impl : ImplType) (config : STFImemConfig)
    (inst : STFInst) (s s' : IMemMapVec) : Prop :=
  let T := imem_mapvec_ s in
  let T' := imem_mapvec_ s' in
  (exists it m d d',
     T !! it = Some m /\ m !! pc inst = Some d
     /\ opcodeMatch d (opcode inst) = true
     /\ entry_counted config s d d'
     /\ T' = <[it := <[pc inst := d']> m]> T
     /\ max_count_ s' = Z.max (max_count_ s) (getCount d'))
  \/ (exists it m d,
        T !! it = Some m /\ m !! pc inst = None
        /\ entry_created config inst s d
        /\ T' = <[it := <[pc inst := d]> m]> T
        /\ max_count_ s' = max_count_ s
        /\ (impl = IMem -> it = itv_ s)
        /\ (impl = JavaIMem -> ~ has_pair T (pc inst) (opcode inst)))
  \/ (exists d,
        entry_created config inst s d
        /\ T' = {[pc inst := d]} :: T
        /\ max_count_ s' = max_count_ s
        /\ impl = JavaIMem
        /\ ~ has_pair T (pc inst) (opcode inst))
  \/ (impl = IMem /\ T' = T /\ max_count_ s' = max_count_ s
      /\ exists m d, T !! itv_ s = Some m /\ m !! pc inst = Some d
                     /\ opcodeMatch d (opcode inst) = false).

(** The opcode of the first admitted event at PC [key]. *)
Definition at_pc (config : STFImemConfig) (key : Z) (e : STFInst) : bool :=
  admitted config e && (pc e =? key).

Definition first_opcode (config : STFImemConfig) (key : Z)
    (insts : list STFInst) : option Z :=
  opcode <$> head (List.filter (at_pc config key) insts).

(** The warning the non-Java profiler owes an event of a sequence: none
    if the event is filtered out or carries the first opcode seen at its
    PC, else the warning naming that opcode and the event's. *)
Definition mismatch_warning (config : STFImemConfig) (insts : list STFInst)
    (e : STFInst) : option Diag :=
  if admitted config e then
    match first_opcode config (pc e) insts with
    | Some o =>
        if o =? opcode e then None
        else Some (DiagTwoOpcodes (pc e) o (opcode e))
    | None => None
    end
  else None.

(** An entry without load/store or branch history. *)
Definition no_history (d : IMemData) : Prop :=
  isLoadStore d = false /\ isBranch d = false /\ getBranchLhr d = 0
  /\ getStrides d = replicate MAX_LHIST_ 0 /\ last_address_ d = 0.

(** ** The history of an entry of the non-Java profiler *)

(** The address [IMem::count_impl] takes from an event. *)
Definition addr_of (e : STFInst) : Z :=
  if isLoad e then scan_addresses (getMemoryReads e) 0
  else if isStore e then scan_addresses (getMemoryWrites e) 0
  else 0.

(** The entry [IMem::count_impl] makes for the first sighting [e], and the
    history update it makes for a later one. *)
Definition IMem_new_entry (in_warmup : bool) (e : STFInst) : IMemData :=
  if isLoad e || isStore e then createIMem_addr e 0 in_warmup (addr_of e)
  else if isTakenBranch e
       then createIMem_branch e 0 in_warmup (isTakenBranch e)
              (isTakenBranch e)
       else createIMem_ e 0 in_warmup.

Definition history_step (e : STFInst) (d : IMemData) : IMemData :=
  if isLoad e || isStore e then nextStride (addr_of e) d
  else if isTakenBranch e then nextBranchHistory (isTakenBranch e) d
       else d.

(** The history fields of an entry. *)
Definition history (d : IMemData)
    : bool * Z * list Z * nat * bool * Z * nat :=
  (is_loadstore_ d, last_address_ d, recent_strides_ d,
   recent_strides_idx_ d, is_branch_ d, branch_lhr_ d, branch_lhr_idx_ d).

(** The state without its diagnostic stream. *)
Definition footprint (s : IMemMapVec) : IMemMapVec :=
  mkIMemMapVec (imem_mapvec_ s) (itv_ s) (inst_count_ s) (is_rv64_ s)
    (max_count_ s) (max_warmup_ s) (max_run_length_ s) [].

(** The invalid-instruction diagnostics of a sequence, in order. *)
Definition invalid_reports (insts : list STFInst) : list Diag :=
  (fun e => DiagInvalidInst (index e) (opcode e) (pc e))
    <$> List.filter (fun e => negb (valid e)) insts.

(** The events the loop of [processTrace_] reads when it starts with
    [inst_count_] at [n]: all of them up to and including the admitted
    event at which [inst_count_] reaches [keep_count], where the loop
    leaves by its [break]. *)
Fixpoint reached (config : STFImemConfig) (n : Z) (insts : list STFInst)
    : list STFInst :=
  match insts with
  | [] => []
  | inst :: rest =>
      if admitted config inst then
        if keep_count config <=? wrap64 (n + 1) then [inst]
        else inst :: reached config (wrap64 (n + 1)) rest
      else inst :: reached config n rest
  end.

(** All entries of all tables, in the order in which [print] visits
    them. *)
Definition visited_entries (s : IMemMapVec) : list (Z * IMemData) :=
  reverse (imem_mapvec_ s) ≫= map_begin_end.

(** [e2] starts where [e1] ends: the test [print] makes between an entry
    and the one visited before it. *)
Definition follows (e1 e2 : Z * IMemData) : bool :=
  wrap64 (e1.1 + getOpcodeSize e1.2) =? e2.1.

(** Each entry of a block starts where the one before it ends. *)
Fixpoint contiguous (block : SortedVector) : Prop :=
  match block with
  | e1 :: rest =>
      match rest with
      | e2 :: _ => follows e1 e2 = true
      | [] => True
      end /\ contiguous rest
  | [] => True
  end.

(** The number of places in a sequence of entries where an entry does not
    start where the one before it ends. *)
Fixpoint breaks (entries : SortedVector) : nat :=
  match entries with
  | e1 :: rest =>
      (match rest with
       | e2 :: _ => if follows e1 e2 then 0 else 1
       | [] => 0
       end + breaks rest)%nat
  | [] => 0%nat
  end.

Definition is_gap (line : OutLine) : bool := negb (not_gap line).

(** What holds of the locals of [print] once the entries [seen] have been
    visited. *)
Definition print_trace (config : STFImemConfig) (seen : SortedVector)
    (l : PrintLocals) : Prop :=
  (first l = true <-> seen = [])
  /\ (forall e, last seen = Some e ->
        prev_pc l = e.1 /\ prev_size l = getOpcodeSize e.2)
  /\ (if sort_output config then
        concat (sorted_map l).*2 ++ current_block l ≡ₚ seen
        /\ Forall (fun blk => contiguous blk.2) (sorted_map l)
        /\ contiguous (current_block l)
        /\ last (current_block l) = last seen
        /\ length (sorted_map l) = breaks seen
        /\ Forall (fun line => not_gap line = true) (os l)
      else length (List.filter is_gap (os l)) = breaks seen).

(** The sum of the sizes held by a sequence of opcodes. *)
Definition ops_size {R A : Type} (ops : list (@STFMorpher.Op R A)) : Z :=
  foldr (fun o acc => STFMorpher.op_size_ o + acc) 0 ops.

(** [addOp] for each opcode of a sequence, in order. *)
Definition add_ops {R A : Type} (ops : list (@STFMorpher.Op R A))
    (m : STFMorpher.OpcodeMorph R A) : STFMorpher.OpcodeMorph R A :=
  fold_left
    (fun m o =>
       STFMorpher.addOp (STFMorpher.opcode_ o) (STFMorpher.operands_ o)
         (STFMorpher.ls_address_ o) (STFMorpher.ls_stride_ o)
         (STFMorpher.ls_size_ o) (STFMorpher.ls_access_type_ o)
         (STFMorpher.op_size_ o) m)
    ops m.

(** A string at which the digit loop of base [base] stops at once. *)
Definition stops_digits (base : Z) (rest : string) : bool :=
  match rest with
  | EmptyString => true
  | String c _ =>
      match STFMorpher.digit_of c with
      | Some v => negb (v <? base)
      | None => true
      end
  end.

(** * Circular histories *)

Section ring.

Local Ltac modsolve :=
  unfold MAX_LHIST_ in *; zify; Z.div_mod_to_equations; lia.


Lemma cursor_stride_step (i : nat) :
  (i < MAX_LHIST_)%nat ->
  (if (i =? MAX_LHIST_ - 1)%nat then 0%nat else (i + 1)%nat)
  = ((i + 1) mod MAX_LHIST_)%nat.
Proof.
  intros Hi. destruct (Nat.eqb_spec i (MAX_LHIST_ - 1)); modsolve.
Qed.

Lemma cursor_branch_step (i : nat) :
  (i < MAX_LHIST_)%nat ->
  (if (i + 1 =? MAX_LHIST_)%nat then 0%nat else (i + 1)%nat)
  = ((i + 1) mod MAX_LHIST_)%nat.
Proof.
  intros Hi. destruct (Nat.eqb_spec (i + 1) MAX_LHIST_); modsolve.
Qed.

Lemma slot_shift (i n : nat) :
  (((i + n) mod MAX_LHIST_ + 1) mod MAX_LHIST_
   = (i + (n + 1)) mod MAX_LHIST_)%nat.
Proof. modsolve. Qed.

Lemma slot_distinct (i k n : nat) :
  (k < n)%nat -> (n < k + MAX_LHIST_)%nat ->
  ((i + k) mod MAX_LHIST_ <> (i + n) mod MAX_LHIST_)%nat.
Proof. intros. modsolve. Qed.

Lemma slot_lt (i : nat) : (i mod MAX_LHIST_ < MAX_LHIST_)%nat.
Proof. modsolve. Qed.

Lemma nextStride_idx_lt a d :
  lhist_ok d -> lhist_ok (nextStride a d).
Proof.
  intros (Hl & Hs & Hb). repeat split; simpl.
  - by rewrite length_insert.
  - rewrite cursor_stride_step by done. apply slot_lt.
  - done.
Qed.

Lemma nextBranchHistory_idx_lt b d :
  lhist_ok d -> lhist_ok (nextBranchHistory b d).
Proof.
  intros (Hl & Hs & Hb). repeat split; simpl; try done.
  rewrite cursor_branch_step by done. apply slot_lt.
Qed.

Lemma IMemData_new_ok is16 opc ppc w br tk addr :
  lhist_ok (IMemData_new is16 opc ppc w br tk addr).
Proof.
  unfold IMemData_new. destruct br.
  - apply nextBranchHistory_idx_lt. repeat split; simpl; unfold MAX_LHIST_; lia.
  - repeat split; simpl; unfold MAX_LHIST_; lia.
Qed.

Lemma push_addrs_snoc addrs a d :
  push_addrs (addrs ++ [a]) d = nextStride a (push_addrs addrs d).
Proof. unfold push_addrs. by rewrite fold_left_app. Qed.

Lemma push_bits_snoc bits b d :
  push_bits (bits ++ [b]) d = nextBranchHistory b (push_bits bits d).
Proof. unfold push_bits. by rewrite fold_left_app. Qed.

Lemma pushed_strides_length last addrs :
  length (pushed_strides last addrs) = length addrs.
Proof. revert last. induction addrs; simpl; auto. Qed.

Lemma last_cons_default (l : list Z) x d :
  List.last (x :: l) d = List.last l x.
Proof.
  revert x d. induction l as [|y l IH]; intros x d; [done|].
  change (List.last (x :: y :: l) d) with (List.last (y :: l) d).
  by rewrite !IH.
Qed.

Lemma pushed_strides_snoc last addrs a :
  pushed_strides last (addrs ++ [a])
  = pushed_strides last addrs ++ [to_int64 (a - List.last addrs last)].
Proof.
  revert last. induction addrs as [|x addrs IH]; intros last; [done|].
  rewrite last_cons_default. simpl. by rewrite IH.
Qed.

Lemma push_addrs_last addrs d :
  last_address_ (push_addrs addrs d) = List.last addrs (last_address_ d).
Proof.
  induction addrs as [|a addrs IH] using rev_ind; [done|].
  rewrite push_addrs_snoc, last_last. done.
Qed.

(** After [n] pushes the stride cursor has advanced [n] slots round the
    ring, and every slot written by one of the last [MAX_LHIST_] pushes
    holds the stride of that push. *)
Lemma push_addrs_ring addrs d :
  lhist_ok d ->
  lhist_ok (push_addrs addrs d)
  /\ recent_strides_idx_ (push_addrs addrs d)
     = ((recent_strides_idx_ d + length addrs) mod MAX_LHIST_)%nat
  /\ forall k v,
       pushed_strides (last_address_ d) addrs !! k = Some v ->
       (length addrs <= k + MAX_LHIST_)%nat ->
       recent_strides_ (push_addrs addrs d)
         !! ((recent_strides_idx_ d + k) mod MAX_LHIST_)%nat = Some v.
Proof.
  intros Hok. induction addrs as [|a addrs IH] using rev_ind.
  - split; [done|]. split.
    + destruct Hok as (_ & Hs & _).
      change (length (A:=Z) []) with 0%nat.
      rewrite Nat.add_0_r, Nat.mod_small by done. done.
    + intros k v Hk. done.
  - destruct IH as (IHok & IHidx & IHslots).
    rewrite push_addrs_snoc. split; [by apply nextStride_idx_lt|]. split.
    + cbn [nextStride recent_strides_idx_].
      rewrite cursor_stride_step by apply IHok.
      rewrite IHidx, length_app. apply slot_shift.
    + intros k v Hk Hlen. rewrite pushed_strides_snoc in Hk.
      rewrite length_app in Hlen. cbn [length] in Hlen.
      cbn [nextStride recent_strides_]. rewrite IHidx.
      destruct (decide (k = length addrs)) as [->|Hne].
      * rewrite lookup_app_r in Hk
          by (rewrite pushed_strides_length; lia).
        rewrite pushed_strides_length, Nat.sub_diag in Hk. cbn in Hk.
        inversion Hk; subst v. rewrite push_addrs_last.
        apply list_lookup_insert_eq.
        destruct IHok as (-> & _). apply slot_lt.
      * assert (k < length addrs)%nat as Hlt.
        { apply lookup_lt_Some in Hk.
          rewrite length_app, pushed_strides_length in Hk. simpl in Hk. lia. }
        rewrite lookup_app_l in Hk by (rewrite pushed_strides_length; lia).
        rewrite list_lookup_insert_ne.
        -- apply IHslots; [done|lia].
        -- apply not_eq_sym, slot_distinct; lia.
Qed.

(** The same for the branch bitset; bits at positions [MAX_LHIST_] and
    above are never touched. *)
Lemma push_bits_ring bits d :
  lhist_ok d ->
  lhist_ok (push_bits bits d)
  /\ branch_lhr_idx_ (push_bits bits d)
     = ((branch_lhr_idx_ d + length bits) mod MAX_LHIST_)%nat
  /\ (forall k b,
       bits !! k = Some b ->
       (length bits <= k + MAX_LHIST_)%nat ->
       Z.testbit (branch_lhr_ (push_bits bits d))
         (Z.of_nat ((branch_lhr_idx_ d + k) mod MAX_LHIST_)) = b)
  /\ forall i, Z.of_nat MAX_LHIST_ <= i ->
       Z.testbit (branch_lhr_ (push_bits bits d)) i
       = Z.testbit (branch_lhr_ d) i.
Proof.
  intros Hok. induction bits as [|b0 bits IH] using rev_ind.
  - split; [done|]. split; [|split; [intros k b Hk; done | done]].
    destruct Hok as (_ & _ & Hb).
    change (length (A:=bool) []) with 0%nat.
    rewrite Nat.add_0_r, Nat.mod_small by done. done.
  - destruct IH as (IHok & IHidx & IHslots & IHhigh).
    rewrite push_bits_snoc. split; [by apply nextBranchHistory_idx_lt|].
    assert (forall j, Z.testbit (branch_lhr_
              (nextBranchHistory b0 (push_bits bits d))) j
            = if decide (j = Z.of_nat (branch_lhr_idx_ (push_bits bits d)))
              then b0 else Z.testbit (branch_lhr_ (push_bits bits d)) j)
      as Hbit.
    { intros j. cbn [nextBranchHistory branch_lhr_]. destruct b0.
      - rewrite Z.setbit_eqb by lia. case_decide as Hj.
        + subst j. by rewrite Z.eqb_refl.
        + destruct (Z.eqb_spec (Z.of_nat (branch_lhr_idx_ (push_bits bits d))) j);
            [congruence|done].
      - rewrite Z.clearbit_eqb. case_decide as Hj.
        + subst j. rewrite Z.eqb_refl. apply andb_false_r.
        + destruct (Z.eqb_spec (Z.of_nat (branch_lhr_idx_ (push_bits bits d))) j);
            [congruence|apply andb_true_r]. }
    split; [|split].
    + cbn [nextBranchHistory branch_lhr_idx_].
      rewrite cursor_branch_step by apply IHok.
      rewrite IHidx, length_app. apply slot_shift.
    + intros k b Hk Hlen. rewrite length_app in Hlen. cbn [length] in Hlen.
      rewrite Hbit, IHidx.
      destruct (decide (k = length bits)) as [->|Hne].
      * rewrite lookup_app_r in Hk by lia.
        rewrite Nat.sub_diag in Hk. cbn in Hk. inversion Hk; subst b.
        by rewrite decide_True.
      * assert (k < length bits)%nat as Hlt.
        { apply lookup_lt_Some in Hk. rewrite length_app in Hk.
          simpl in Hk. lia. }
        rewrite lookup_app_l in Hk by lia.
        rewrite decide_False.
        -- apply IHslots; [done|lia].
        -- intros Heq. apply Nat2Z.inj in Heq. revert Heq.
           apply slot_distinct; lia.
    + intros i Hi. rewrite Hbit, decide_False; [by apply IHhigh|].
      destruct IHok as (_ & _ & Hlt). lia.
Qed.

Lemma last_pushes_layout {A} (buf S : list A) :
  length buf = MAX_LHIST_ -> length S = 53%nat ->
  (forall k v, S !! k = Some v -> (53 <= k + MAX_LHIST_)%nat ->
     buf !! (k mod MAX_LHIST_)%nat = Some v) ->
  buf = drop 50 S ++ take 47 (drop 3 S).
Proof.
  intros Hbuf HS Hslots.
  apply (list_eq_same_length _ _ 50%nat); [|done|].
  { rewrite length_app, length_take, !length_drop. lia. }
  intros i x y Hi Hx Hy.
  destruct (decide (i < 3)%nat) as [Hlo|Hhi].
  - rewrite lookup_app_l in Hy by (rewrite length_drop; lia).
    rewrite lookup_drop in Hy.
    specialize (Hslots (50 + i)%nat y Hy ltac:(unfold MAX_LHIST_; lia)).
    replace ((50 + i) mod MAX_LHIST_)%nat with i in Hslots by modsolve.
    congruence.
  - rewrite lookup_app_r in Hy by (rewrite length_drop; lia).
    rewrite length_drop, HS in Hy.
    rewrite lookup_take_lt in Hy by lia.
    rewrite lookup_drop in Hy.
    replace (3 + (i - (53 - 50)))%nat with i in Hy by lia.
    specialize (Hslots i y Hy ltac:(unfold MAX_LHIST_; lia)).
    replace (i mod MAX_LHIST_)%nat with i in Hslots by modsolve.
    congruence.
Qed.

End ring.

(** C7.  The stride vector and the branch bitset hold [MAX_LHIST_] = 50
    slots and are written circularly.  For an entry of the constructed
    shape and any sequence of pushes through [nextStride] and
    [nextBranchHistory]: the vector keeps 50 slots and no bit at position 50
    or above changes; the push number [k + 50] writes the slot the push
    number [k] wrote; each slot written by one of the last 50 pushes holds
    what that push wrote; and after 53 pushes from cursor 0 the vector,
    and likewise the bitset, is the last 50 pushed values in circular order
    (pushes 50, 51, 52, then 3 to 49). *)
Theorem history_buffers_circular (d : IMemData) (addrs : list Z)
    (bits : list bool) :
  lhist_ok d ->
  let S := pushed_strides (last_address_ d) addrs in
  (length (getStrides (push_addrs addrs d)) = 50%nat
   /\ forall i, 50 <= i ->
        Z.testbit (getBranchLhr (push_bits bits d)) i
        = Z.testbit (getBranchLhr d) i)
  /\ (forall k, (k + 50 <= length addrs)%nat ->
        recent_strides_idx_ (push_addrs (take (k + 50) addrs) d)
        = recent_strides_idx_ (push_addrs (take k addrs) d))
  /\ (forall k, (k + 50 <= length bits)%nat ->
        branch_lhr_idx_ (push_bits (take (k + 50) bits) d)
        = branch_lhr_idx_ (push_bits (take k bits) d))
  /\ (forall k v, S !! k = Some v -> (length addrs <= k + 50)%nat ->
        getStrides (push_addrs addrs d)
          !! recent_strides_idx_ (push_addrs (take k addrs) d) = Some v)
  /\ (forall k b, bits !! k = Some b -> (length bits <= k + 50)%nat ->
        Z.testbit (getBranchLhr (push_bits bits d))
          (Z.of_nat (branch_lhr_idx_ (push_bits (take k bits) d))) = b)
  /\ (recent_strides_idx_ d = 0%nat -> length addrs = 53%nat ->
        getStrides (push_addrs addrs d) = drop 50 S ++ take 47 (drop 3 S))
  /\ (branch_lhr_idx_ d = 0%nat -> length bits = 53%nat ->
        forall i b, (drop 50 bits ++ take 47 (drop 3 bits)) !! i = Some b ->
          Z.testbit (getBranchLhr (push_bits bits d)) (Z.of_nat i) = b).
Proof.
  intros Hok S.
  destruct (push_addrs_ring addrs d Hok) as ((Hlen & _) & Hidx & Hslots).
  destruct (push_bits_ring bits d Hok) as (_ & Hbidx & Hbslots & Hhigh).
  assert (forall k, (k <= length addrs)%nat ->
            recent_strides_idx_ (push_addrs (take k addrs) d)
            = ((recent_strides_idx_ d + k) mod MAX_LHIST_)%nat) as Hcur.
  { intros k Hk.
    destruct (push_addrs_ring (take k addrs) d Hok) as (_ & -> & _).
    by rewrite length_take, Nat.min_l. }
  assert (forall k, (k <= length bits)%nat ->
            branch_lhr_idx_ (push_bits (take k bits) d)
            = ((branch_lhr_idx_ d + k) mod MAX_LHIST_)%nat) as Hbcur.
  { intros k Hk.
    destruct (push_bits_ring (take k bits) d Hok) as (_ & -> & _).
    by rewrite length_take, Nat.min_l. }
  unfold getStrides, getBranchLhr. repeat split.
  - exact Hlen.
  - intros i Hi. apply Hhigh. unfold MAX_LHIST_. lia.
  - intros k Hk. rewrite !Hcur by lia.
    unfold MAX_LHIST_. zify; Z.div_mod_to_equations; lia.
  - intros k Hk. rewrite !Hbcur by lia.
    unfold MAX_LHIST_. zify; Z.div_mod_to_equations; lia.
  - intros k v Hk Hle.
    assert (k < length addrs)%nat.
    { apply lookup_lt_Some in Hk. unfold S in Hk.
      by rewrite pushed_strides_length in Hk. }
    rewrite Hcur by lia. by apply Hslots.
  - intros k b Hk Hle.
    assert (k < length bits)%nat by by apply lookup_lt_Some in Hk.
    rewrite Hbcur by lia. by apply Hbslots.
  - intros Hz H53. apply last_pushes_layout.
    + exact Hlen.
    + unfold S. by rewrite pushed_strides_length.
    + intros k v Hk Hle. rewrite <- (Nat.add_0_l k), <- Hz.
      apply Hslots; [done|]. rewrite H53. exact Hle.
  - intros Hz H53 i b Hi. rewrite Hz in Hbslots.
    destruct (decide (i < 3)%nat) as [Hlo|Hhi].
    + rewrite lookup_app_l in Hi by (rewrite length_drop; lia).
      rewrite lookup_drop in Hi.
      rewrite <- (Hbslots (50 + i)%nat b Hi) by (unfold MAX_LHIST_; lia).
      do 2 f_equal. unfold MAX_LHIST_. zify; Z.div_mod_to_equations; lia.
    + assert (i < 50)%nat as Hi50.
      { apply lookup_lt_Some in Hi.
        rewrite length_app, length_take, !length_drop in Hi. lia. }
      rewrite lookup_app_r in Hi by (rewrite length_drop; lia).
      rewrite length_drop, H53 in Hi.
      rewrite lookup_take_lt in Hi by lia.
      rewrite lookup_drop in Hi.
      replace (3 + (i - (53 - 50)))%nat with i in Hi by lia.
      rewrite <- (Hbslots i b Hi) by (unfold MAX_LHIST_; lia).
      do 2 f_equal. unfold MAX_LHIST_. zify; Z.div_mod_to_equations; lia.
Qed.

(** The theorem at a freshly created load/store entry and the 53
    addresses 8, 16, ..., 424. *)
Lemma history_buffers_circular_witness :
  let d := IMemData_mem false 19 0 false 4096 in
  let addrs := (fun i : nat => 8 * Z.of_nat i) <$> seq 1 53 in
  lhist_ok d
  /\ getStrides (push_addrs addrs d)
     = drop 50 (pushed_strides 4096 addrs)
       ++ take 47 (drop 3 (pushed_strides 4096 addrs)).
Proof.
  intros d addrs.
  assert (lhist_ok d) as Hok by (repeat split; vm_compute; lia).
  split; [exact Hok|].
  apply (history_buffers_circular d addrs [] Hok); reflexivity.
Defined.

(** * The search loop of the Java variant *)

Lemma java_search_found key opc maps it0 itt0 j d itt :
  java_search key opc maps it0 itt0 = (Some (j, d), itt) ->
  exists t m,
    j = (it0 + t)%nat /\ maps !! t = Some m /\ m !! key = Some d
    /\ opcodeMatch d opc = true
    /\ forall i m' d', (i < t)%nat -> maps !! i = Some m' ->
         m' !! key = Some d' -> opcodeMatch d' opc = false.
Proof.
  revert it0 itt0. induction maps as [|m0 maps IH]; intros it0 itt0 H.
  - discriminate.
  - simpl in H. destruct (m0 !! key) as [d0|] eqn:Hk.
    + destruct (opcodeMatch d0 opc) eqn:Hm.
      * inversion H; subst. exists 0%nat, m0.
        repeat split; auto with lia; intros; lia.
      * apply IH in H as (t & m & -> & Ht & Hd & Hmatch & Hfirst).
        exists (S t), m. repeat split; auto with lia.
        intros [|i] m' d' Hi Hm' Hd'; simpl in Hm'.
        -- congruence.
        -- apply (Hfirst i m' d'); [lia|done|done].
    + apply IH in H as (t & m & -> & Ht & Hd & Hmatch & Hfirst).
      exists (S t), m. repeat split; auto with lia.
      intros [|i] m' d' Hi Hm' Hd'; simpl in Hm'.
      * congruence.
      * apply (Hfirst i m' d'); [lia|done|done].
Qed.

Lemma java_search_none key opc maps it0 itt0 itt :
  java_search key opc maps it0 itt0 = (None, itt) ->
  (forall i m d, maps !! i = Some m -> m !! key = Some d ->
     opcodeMatch d opc = false)
  /\ ((itt = itt0 /\ forall i m, maps !! i = Some m -> is_Some (m !! key))
      \/ exists t m,
           itt = Some (it0 + t)%nat /\ maps !! t = Some m /\ m !! key = None
           /\ forall i m', (t < i)%nat -> maps !! i = Some m' ->
                is_Some (m' !! key)).
Proof.
  revert it0 itt0. induction maps as [|m0 maps IH]; intros it0 itt0 H.
  - simpl in H. inversion H; subst. split; [intros i m d Hi; done|].
    left. split; [done|]. intros i m Hi; done.
  - simpl in H. destruct (m0 !! key) as [d0|] eqn:Hk.
    + destruct (opcodeMatch d0 opc) eqn:Hm; [discriminate|].
      apply IH in H as (Hno & Hitt). split.
      * intros [|i] m d Hi Hd; simpl in Hi; [congruence|eauto].
      * destruct Hitt as [(-> & Hall)|(t & m & -> & Ht & Hnone & Hlast)].
        -- left. split; [done|].
           intros [|i] m Hi; simpl in Hi; [|eauto].
           inversion Hi; subst. eauto.
        -- right. exists (S t), m. repeat split; auto with lia.
           intros [|i] m' Hi Hm'; [lia|]. simpl in Hm'.
           apply (Hlast i m'); [lia|done].
    + apply IH in H as (Hno & Hitt). split.
      * intros [|i] m d Hi Hd; simpl in Hi; [congruence|eauto].
      * right.
        destruct Hitt as [(-> & Hall)|(t & m & -> & Ht & Hnone & Hlast)].
        -- exists 0%nat, m0. repeat split; auto with lia.
           intros [|i] m' Hi Hm'; [lia|]. simpl in Hm'. eauto.
        -- exists (S t), m. repeat split; auto with lia.
           intros [|i] m' Hi Hm'; [lia|]. simpl in Hm'.
           apply (Hlast i m'); [lia|done].
Qed.

(** * One call of [count_impl] as a [table_step] *)

Lemma find_at_Some it key s d :
  find_at it key s = Some d ->
  exists m, imem_mapvec_ s !! it = Some m /\ m !! key = Some d.
Proof.
  unfold find_at, table_at. destruct (imem_mapvec_ s !! it) as [m|]; simpl.
  - eauto.
  - by rewrite lookup_empty.
Qed.

Lemma find_at_lookup it key s m :
  imem_mapvec_ s !! it = Some m -> find_at it key s = m !! key.
Proof. unfold find_at, table_at. by intros ->. Qed.

Lemma alter_as_insert {A} (f : A -> A) (i : nat) (l : list A) (x : A) :
  l !! i = Some x -> alter f i l = <[i := f x]> l.
Proof.
  revert i. induction l as [|y l IH]; intros [|i] H; simpl in *; try done.
  - by inversion H.
  - f_equal. by apply IH.
Qed.

Lemma alter_out_of_range {A} (f : A -> A) (i : nat) (l : list A) :
  l !! i = None -> alter f i l = l.
Proof.
  revert i. induction l as [|y l IH]; intros [|i] H; simpl in *; try done.
  f_equal. by apply IH.
Qed.

Lemma map_insert_empty key d : map_insert key d ∅ = {[key := d]}.
Proof. unfold map_insert. by rewrite lookup_empty, insert_empty. Qed.

Lemma count_found_counted config s d :
  (count_found config (inst_count_ s <? warmup_count config) (s, d)).1
    = with_max_run_length
        (max_run_length_
           (count_found config (inst_count_ s <? warmup_count config) (s, d)).1)
        (with_max_warmup
           (max_warmup_
              (count_found config (inst_count_ s <? warmup_count config)
                 (s, d)).1)
           (with_max_count
              (max_count_
                 (count_found config (inst_count_ s <? warmup_count config)
                    (s, d)).1) s))
  /\ entry_counted config s d
       (count_found config (inst_count_ s <? warmup_count config) (s, d)).2.
Proof.
  unfold count_found, entry_counted.
  destruct (inst_count_ s <? warmup_count config) eqn:Hw; simpl.
  - destruct s; simpl. repeat split.
  - destruct (inst_count_ s <? runlength_count config) eqn:Hr; simpl;
      destruct s; simpl; repeat split.
Qed.

Lemma count_found_tables config w s d :
  imem_mapvec_ (count_found config w (s, d)).1 = imem_mapvec_ s
  /\ itv_ (count_found config w (s, d)).1 = itv_ s
  /\ cerr_ (count_found config w (s, d)).1 = cerr_ s
  /\ inst_count_ (count_found config w (s, d)).1 = inst_count_ s.
Proof.
  unfold count_found. destruct w; simpl; [done|].
  destruct (inst_count_ s <? runlength_count config); done.
Qed.

Lemma entry_counted_nextStride config s d d' a :
  entry_counted config s d d' -> entry_counted config s d (nextStride a d').
Proof. intros H. exact H. Qed.

Lemma entry_counted_nextBranchHistory config s d d' b :
  entry_counted config s d d' ->
  entry_counted config s d (nextBranchHistory b d').
Proof. intros H. exact H. Qed.

Lemma entry_created_new config inst s br tk addr :
  entry_created config inst s
    (IMemData_new (isOpcode16 inst) (opcode inst) 0
       (inst_count_ s <? warmup_count config) br tk addr).
Proof.
  unfold entry_created, IMemData_new.
  destruct br; simpl; repeat split.
Qed.

Lemma insert_at_step config inst s it d :
  entry_created config inst s d ->
  table_step config inst s (imem_mapvec_ (insert_at it (pc inst) d s)).
Proof.
  intros Hd. unfold insert_at. simpl.
  destruct (imem_mapvec_ s !! it) as [m|] eqn:Hm.
  - rewrite (alter_as_insert _ _ _ _ Hm). unfold map_insert.
    destruct (m !! pc inst) eqn:Hk.
    + rewrite list_insert_id by done. constructor.
    + by eapply step_create.
  - rewrite alter_out_of_range by done. constructor.
Qed.

Lemma store_at_step config inst s s1 it m d d' :
  imem_mapvec_ s1 = imem_mapvec_ s ->
  imem_mapvec_ s !! it = Some m ->
  m !! pc inst = Some d ->
  opcodeMatch d (opcode inst) = true ->
  entry_counted config s d d' ->
  table_step config inst s (imem_mapvec_ (store_at it (pc inst) d' s1)).
Proof.
  intros Hs1 Hm Hk Hop Hd. unfold store_at. simpl. rewrite Hs1.
  rewrite (alter_as_insert _ _ _ _ Hm). by eapply step_update.
Qed.

Lemma IMem_count_impl_step config inst s :
  table_step config inst s (imem_mapvec_ (IMem_count_impl config inst s)).
Proof.
  unfold IMem_count_impl.
  destruct (find_at (itv_ s) (pc inst) s) as [d|] eqn:Hcur.
  - destruct (opcodeMatch d (opcode inst)) eqn:Hop.
    + apply find_at_Some in Hcur as (m & Hm & Hk).
      destruct (count_found_counted config s d) as (_ & Hc).
      destruct (count_found_tables config
                  (inst_count_ s <? warmup_count config) s d) as (Ht & _).
      destruct (isLoad inst || isStore inst);
        [|destruct (isTakenBranch inst)];
        eapply store_at_step; eauto.
    + simpl. constructor.
  - destruct (isLoad inst || isStore inst);
      [|destruct (isTakenBranch inst)];
      apply insert_at_step; apply entry_created_new.
Qed.

Lemma JavaIMem_other_maps_step config inst s :
  table_step config inst s (imem_mapvec_ (JavaIMem_other_maps config inst s)).
Proof.
  unfold JavaIMem_other_maps.
  destruct (java_search (pc inst) (opcode inst) (imem_mapvec_ s) 0 None)
    as [[[j d]|] itt] eqn:Hs.
  - apply java_search_found in Hs as (t & m & -> & Hm & Hk & Hop & _).
    destruct (count_found_counted config s d) as (_ & Hc).
    destruct (count_found_tables config
                (inst_count_ s <? warmup_count config) s d) as (Ht & _).
    cbn zeta. change (imem_mapvec_ (with_itv ?i ?x)) with (imem_mapvec_ x).
    eapply store_at_step; eauto.
  - destruct itt as [t|].
    + cbn zeta. case_bool_decide.
      * apply (insert_at_step config inst s t). apply entry_created_new.
      * apply insert_at_step. apply entry_created_new.
    + change (table_step config inst s
                (map_insert (pc inst)
                   (createIMem_ inst 0 (inst_count_ s <? warmup_count config))
                   ∅ :: imem_mapvec_ s)).
      rewrite map_insert_empty.
      apply step_new_table. apply entry_created_new.
Qed.

Lemma JavaIMem_count_impl_step config inst s :
  table_step config inst s (imem_mapvec_ (JavaIMem_count_impl config inst s)).
Proof.
  unfold JavaIMem_count_impl.
  destruct (find_at (itv_ s) (pc inst) s) as [d|] eqn:Hcur;
    [|apply JavaIMem_other_maps_step].
  destruct (opcodeMatch d (opcode inst)) eqn:Hop;
    [|apply JavaIMem_other_maps_step].
  apply find_at_Some in Hcur as (m & Hm & Hk).
  destruct (count_found_counted config s d) as (_ & Hc).
  destruct (count_found_tables config
              (inst_count_ s <? warmup_count config) s d) as (Ht & _).
  eapply store_at_step; eauto.
Qed.

Lemma count_impl_step impl config inst s :
  table_step config inst s (imem_mapvec_ (count_impl impl config inst s)).
Proof.
  destruct impl; [apply IMem_count_impl_step|apply JavaIMem_count_impl_step].
Qed.

(** * Totals under a table step *)

Section totals.
Variable f : IMemData -> Z.

Lemma map_total_comm (j1 j2 : Z) (z1 z2 : IMemData) (y : Z) :
  f z1 + (f z2 + y) = f z2 + (f z1 + y).
Proof. lia. Qed.

Lemma map_total_empty : map_total f ∅ = 0.
Proof. unfold map_total. by rewrite map_fold_empty. Qed.

Lemma map_total_insert_None (m : IMemMap) k d :
  m !! k = None -> map_total f (<[k := d]> m) = f d + map_total f m.
Proof.
  intros Hk. unfold map_total.
  rewrite map_fold_insert_L; [done| |done].
  intros. apply map_total_comm; done.
Qed.

Lemma map_total_delete (m : IMemMap) k d :
  m !! k = Some d -> map_total f m = f d + map_total f (delete k m).
Proof.
  intros Hk. unfold map_total.
  rewrite (map_fold_delete_L _ _ k d m); [done| |done].
  intros. apply map_total_comm; done.
Qed.

Lemma map_total_insert_Some (m : IMemMap) k d d' :
  m !! k = Some d ->
  map_total f (<[k := d']> m) = map_total f m - f d + f d'.
Proof.
  intros Hk. rewrite <- insert_delete_eq.
  rewrite map_total_insert_None by apply lookup_delete_eq.
  rewrite (map_total_delete m k d Hk). lia.
Qed.

Lemma map_total_singleton k d : map_total f ({[k := d]} : IMemMap) = f d.
Proof.
  rewrite <- insert_empty, map_total_insert_None by apply lookup_empty.
  rewrite map_total_empty. lia.
Qed.

Lemma tables_total_insert (tables : list IMemMap) i m m' :
  tables !! i = Some m ->
  tables_total f (<[i := m']> tables)
  = tables_total f tables - map_total f m + map_total f m'.
Proof.
  revert i. induction tables as [|m0 tables IH]; intros [|i] Hi;
    simpl in *; try done.
  - inversion Hi; subst. lia.
  - rewrite (IH i Hi). lia.
Qed.

(** The change of a total under a table step is the change of the one
    entry that was touched. *)
Lemma table_step_total config inst s T :
  table_step config inst s T ->
  tables_total f T = tables_total f (imem_mapvec_ s)
  \/ (exists it m d d',
        imem_mapvec_ s !! it = Some m /\ m !! pc inst = Some d
        /\ opcodeMatch d (opcode inst) = true
        /\ entry_counted config s d d'
        /\ tables_total f T = tables_total f (imem_mapvec_ s) - f d + f d')
  \/ (exists d,
        entry_created config inst s d
        /\ tables_total f T = tables_total f (imem_mapvec_ s) + f d).
Proof.
  intros [|it m d d' Hm Hk Hop Hc|it m d Hm Hk Hc|d Hc].
  - by left.
  - right; left. exists it, m, d, d'. split_and!; try done.
    rewrite (tables_total_insert _ _ _ _ Hm).
    rewrite (map_total_insert_Some _ _ _ _ Hk). lia.
  - right; right. exists d. split; [done|].
    rewrite (tables_total_insert _ _ _ _ Hm).
    rewrite (map_total_insert_None _ _ _ Hk). lia.
  - right; right. exists d. split; [done|].
    simpl. rewrite map_total_singleton. lia.
Qed.

End totals.

(** The entry touched by a table step is the same whichever total is
    taken: both differences at once. *)
Lemma table_step_two_totals (f g : IMemData -> Z) config inst s T :
  table_step config inst s T ->
  (tables_total f T = tables_total f (imem_mapvec_ s)
   /\ tables_total g T = tables_total g (imem_mapvec_ s))
  \/ (exists it m d d',
        imem_mapvec_ s !! it = Some m /\ m !! pc inst = Some d
        /\ entry_counted config s d d'
        /\ tables_total f T = tables_total f (imem_mapvec_ s) - f d + f d'
        /\ tables_total g T = tables_total g (imem_mapvec_ s) - g d + g d')
  \/ (exists d,
        entry_created config inst s d
        /\ tables_total f T = tables_total f (imem_mapvec_ s) + f d
        /\ tables_total g T = tables_total g (imem_mapvec_ s) + g d).
Proof.
  intros [|it m d d' Hm Hk Hop Hc|it m d Hm Hk Hc|d Hc].
  - by left.
  - right; left. exists it, m, d, d'. split_and!; try done.
    + rewrite (tables_total_insert _ _ _ _ _ Hm).
      rewrite (map_total_insert_Some _ _ _ _ _ Hk). lia.
    + rewrite (tables_total_insert _ _ _ _ _ Hm).
      rewrite (map_total_insert_Some _ _ _ _ _ Hk). lia.
  - right; right. exists d. split_and!; try done.
    + rewrite (tables_total_insert _ _ _ _ _ Hm).
      rewrite (map_total_insert_None _ _ _ _ Hk). lia.
    + rewrite (tables_total_insert _ _ _ _ _ Hm).
      rewrite (map_total_insert_None _ _ _ _ Hk). lia.
  - right; right. exists d. split_and!; try done.
    + simpl. rewrite map_total_singleton. lia.
    + simpl. rewrite map_total_singleton. lia.
Qed.

Lemma wrap64_small x : 0 <= x < 2 ^ 64 -> wrap64 x = x.
Proof. intros. unfold wrap64. by apply Z.mod_small. Qed.

(** C6.  For every event handed to [count_impl] (either variant, creation
    and update paths alike), at most one of the warm-up and the run-length
    counter is incremented: the total of the warm-up counters and the total
    of the run-length counters over all tables change by (0,0), (1,0) or
    (0,1).  The state is one in which no such counter is at [UINT64_MAX],
    so that an increment is visible in the total; every state of a run of
    fewer than 2^64 - 1 instructions is ([run_counters_below_max]). *)
Theorem warmup_runlength_exclusive (impl : ImplType) (config : STFImemConfig)
    (inst : STFInst) (s : IMemMapVec) :
  counters_below_max s ->
  let s' := count_impl impl config inst s in
  let dW := total_warmup s' - total_warmup s in
  let dR := total_runlength s' - total_runlength s in
  (dW = 0 /\ dR = 0) \/ (dW = 1 /\ dR = 0) \/ (dW = 0 /\ dR = 1).
Proof.
  intros Hmax s' dW dR. unfold dW, dR, total_warmup, total_runlength, s'.
  destruct (table_step_two_totals getWarmup getRunLength config inst s _
              (count_impl_step impl config inst s))
    as [(-> & ->)|[(it & m & d & d' & Hm & Hk & Hc & -> & ->)
                  |(d & Hc & -> & ->)]].
  - left. lia.
  - destruct Hc as (_ & _ & Hw & Hr).
    assert (0 <= getWarmup d < 2 ^ 64 - 1
            /\ 0 <= getRunLength d < 2 ^ 64 - 1) as (Hbw & Hbr).
    { unfold counters_below_max in Hmax.
      rewrite Forall_lookup in Hmax. apply (Hmax it m Hm (pc inst) d Hk). }
    unfold getWarmup, getRunLength in *. rewrite Hw, Hr.
    destruct (inst_count_ s <? warmup_count config).
    + right; left. rewrite wrap64_small by lia. lia.
    + destruct (inst_count_ s <? runlength_count config).
      * right; right. rewrite wrap64_small by lia. lia.
      * left. lia.
  - destruct Hc as (_ & _ & Hw & Hr).
    unfold getWarmup, getRunLength. rewrite Hw, Hr.
    destruct (inst_count_ s <? warmup_count config).
    + right; left. lia.
    + right; right. lia.
Qed.

(** * Opcode mismatch at a known PC *)

(** A table step never touches an entry whose opcode differs from the
    event's. *)
Lemma table_step_mismatch_kept config inst s T i m d :
  table_step config inst s T ->
  imem_mapvec_ s !! i = Some m ->
  m !! pc inst = Some d ->
  opcodeMatch d (opcode inst) = false ->
  exists m', T !! (i + (length T - length (imem_mapvec_ s)))%nat = Some m'
             /\ m' !! pc inst = Some d.
Proof.
  intros [|it m0 d0 d0' Hm0 Hk0 Hop0 Hc|it m0 d0 Hm0 Hk0 Hc|d0 Hc] Hm Hk Hop.
  - exists m. rewrite Nat.sub_diag, Nat.add_0_r. done.
  - rewrite length_insert, Nat.sub_diag, Nat.add_0_r.
    assert (it <> i) by (intros ->; congruence).
    exists m. by rewrite list_lookup_insert_ne.
  - rewrite length_insert, Nat.sub_diag, Nat.add_0_r.
    assert (it <> i) by (intros ->; congruence).
    exists m. by rewrite list_lookup_insert_ne.
  - exists m. split; [|done].
    replace (i + (length ({[pc inst := d0]} :: imem_mapvec_ s)
                  - length (imem_mapvec_ s)))%nat with (S i)
      by (simpl; lia).
    done.
Qed.

Lemma JavaIMem_other_maps_cerr config inst s :
  cerr_ (JavaIMem_other_maps config inst s) = cerr_ s.
Proof.
  unfold JavaIMem_other_maps.
  destruct (java_search (pc inst) (opcode inst) (imem_mapvec_ s) 0 None)
    as [[[j d]|] [t|]]; cbn zeta.
  - simpl. apply count_found_tables.
  - simpl. apply count_found_tables.
  - by case_bool_decide.
  - done.
Qed.

(** The Java variant never writes to the diagnostic stream. *)
Lemma JavaIMem_count_impl_cerr config inst s :
  cerr_ (JavaIMem_count_impl config inst s) = cerr_ s.
Proof.
  unfold JavaIMem_count_impl.
  destruct (find_at (itv_ s) (pc inst) s) as [d|];
    [|apply JavaIMem_other_maps_cerr].
  destruct (opcodeMatch d (opcode inst)); [|apply JavaIMem_other_maps_cerr].
  simpl. apply count_found_tables.
Qed.

(** C2, as the code has it.  An entry whose stored opcode differs from the
    event's opcode is left as it is by both variants (its count and opcode
    included; in the Java variant it may sit one position further when a
    table was added in front).  [IMem], which looks at its active table,
    writes exactly one warning for the event; [JavaIMem] writes none. *)
Theorem opcode_mismatch_keeps_entry (config : STFImemConfig) (inst : STFInst)
    (s : IMemMapVec) (i : nat) (m : IMemMap) (d : IMemData) :
  imem_mapvec_ s !! i = Some m ->
  m !! pc inst = Some d ->
  opcodeMatch d (opcode inst) = false ->
  (forall impl,
     let s' := count_impl impl config inst s in
     exists m', imem_mapvec_ s' !! moved_to s s' i = Some m'
                /\ m' !! pc inst = Some d)
  /\ (i = itv_ s ->
      let s' := count_impl IMem config inst s in
      imem_mapvec_ s' = imem_mapvec_ s
      /\ cerr_ s' = cerr_ s ++ [DiagTwoOpcodes (pc inst) (getOpcode d)
                                  (opcode inst)])
  /\ cerr_ (count_impl JavaIMem config inst s) = cerr_ s.
Proof.
  intros Hm Hk Hop. split; [|split].
  - intros impl s'. unfold moved_to.
    apply (table_step_mismatch_kept config inst s _ i m d); try done.
    apply count_impl_step.
  - intros -> s'. unfold s'. simpl. unfold IMem_count_impl.
    rewrite (find_at_lookup _ _ _ _ Hm), Hk, Hop. done.
  - apply JavaIMem_count_impl_cerr.
Qed.

(** The theorem at the state after one event at PC 0x100, for a second
    event at that PC with another opcode. *)
Lemma opcode_mismatch_keeps_entry_witness :
  let config := default_config false in
  let s := run IMem config [plain_inst 1 256 19] IMemMapVec_init in
  let inst := plain_inst 2 256 51 in
  cerr_ (count_impl IMem config inst s) = [DiagTwoOpcodes 256 19 51]
  /\ cerr_ (count_impl JavaIMem config inst s) = [].
Proof.
  intros config s inst.
  destruct (opcode_mismatch_keeps_entry config inst s 0
              {[256 := IMemData_plain false 19 0 false]}
              (IMemData_plain false 19 0 false))
    as (_ & Himem & Hjava).
  - vm_compute. reflexivity.
  - vm_compute. reflexivity.
  - vm_compute. reflexivity.
  - split.
    + apply (Himem eq_refl).
    + exact Hjava.
Defined.

(** C2 as stated fails: in the Java variant an event that meets an entry
    with another opcode in the active table is not answered with a
    warning. *)
Lemma opcode_mismatch_warning_counterexample :
  ~ (forall impl config inst s d,
       find_at (itv_ s) (pc inst) s = Some d ->
       opcodeMatch d (opcode inst) = false ->
       exists w, cerr_ (count_impl impl config inst s) = cerr_ s ++ [w]).
Proof.
  intros H.
  destruct (H JavaIMem (default_config false) (plain_inst 2 256 51)
              (run JavaIMem (default_config false) [plain_inst 1 256 19]
                 IMemMapVec_init)
              (IMemData_plain false 19 0 false))
    as (w & Hw).
  - vm_compute. reflexivity.
  - vm_compute. reflexivity.
  - rewrite JavaIMem_count_impl_cerr in Hw.
    apply (f_equal length) in Hw. rewrite length_app in Hw.
    simpl in Hw. lia.
Qed.

(** * The Java variant on a mismatch in the active table *)

Lemma count_found_with_itv config w j s d :
  count_found config w (with_itv j s, d)
  = (with_itv j (count_found config w (s, d)).1,
     (count_found config w (s, d)).2).
Proof.
  unfold count_found. destruct w; simpl; [done|].
  destruct (inst_count_ s <? runlength_count config); done.
Qed.

(** Taking the match path with table [j] active gives the state the search
    path reaches when it finds the match in table [j]. *)
Lemma match_path_with_itv config inst s j m d :
  imem_mapvec_ s !! j = Some m ->
  m !! pc inst = Some d ->
  opcodeMatch d (opcode inst) = true ->
  JavaIMem_count_impl config inst (with_itv j s)
  = let sd := count_found config (inst_count_ s <? warmup_count config)
                (s, d) in
    with_itv j (store_at j (pc inst) sd.2 sd.1).
Proof.
  intros Hm Hk Hop. unfold JavaIMem_count_impl.
  change (itv_ (with_itv j s)) with j.
  rewrite (find_at_lookup j (pc inst) (with_itv j s) m Hm), Hk, Hop.
  change (inst_count_ (with_itv j s)) with (inst_count_ s).
  rewrite count_found_with_itv. done.
Qed.

(** C3.  In [JavaIMem::count_impl], when the active table holds the PC of
    the event with another opcode: (1) if [j] is the first table with a
    PC and opcode match, [j] becomes the active table and its entry is
    updated exactly as the match path does with [j] active; (2) if every
    table holds the PC with another opcode, a new table holding only the
    new entry is put in front and is active; (3) if no table matches and
    [t] is the last table without the PC, the new entry goes into [t],
    which becomes active. *)
Theorem java_mismatch_search (config : STFImemConfig) (inst : STFInst)
    (s : IMemMapVec) (d0 : IMemData) :
  find_at (itv_ s) (pc inst) s = Some d0 ->
  opcodeMatch d0 (opcode inst) = false ->
  let s' := JavaIMem_count_impl config inst s in
  let in_warmup := inst_count_ s <? warmup_count config in
  let no_match_before (j : nat) :=
    forall i m d, (i < j)%nat -> imem_mapvec_ s !! i = Some m ->
      m !! pc inst = Some d -> opcodeMatch d (opcode inst) = false in
  (forall j m d,
     imem_mapvec_ s !! j = Some m -> m !! pc inst = Some d ->
     opcodeMatch d (opcode inst) = true -> no_match_before j ->
     itv_ s' = j
     /\ s' = JavaIMem_count_impl config inst (with_itv j s)
     /\ imem_mapvec_ s'
        = <[j := <[pc inst := (count_found config in_warmup (s, d)).2]> m]>
            (imem_mapvec_ s))
  /\ ((forall i m, imem_mapvec_ s !! i = Some m ->
         exists d, m !! pc inst = Some d
                   /\ opcodeMatch d (opcode inst) = false) ->
      itv_ s' = 0%nat
      /\ imem_mapvec_ s'
         = {[pc inst := createIMem_ inst 0 in_warmup]} :: imem_mapvec_ s)
  /\ (forall t m,
        no_match_before (length (imem_mapvec_ s)) ->
        imem_mapvec_ s !! t = Some m -> m !! pc inst = None ->
        (forall i m', (t < i)%nat -> imem_mapvec_ s !! i = Some m' ->
           is_Some (m' !! pc inst)) ->
        itv_ s' = t
        /\ imem_mapvec_ s'
           = <[t := <[pc inst := createIMem_ inst 0 in_warmup]> m]>
               (imem_mapvec_ s)).
Proof.
  intros Hcur Hop0 s' in_warmup no_match_before.
  assert (s' = JavaIMem_other_maps config inst s) as Hs'.
  { unfold s', JavaIMem_count_impl. by rewrite Hcur, Hop0. }
  rewrite Hs'. clear s' Hs'. unfold JavaIMem_other_maps.
  fold in_warmup.
  destruct (java_search (pc inst) (opcode inst) (imem_mapvec_ s) 0 None)
    as [[[j' d']|] itt] eqn:Hs.
  - apply java_search_found in Hs
      as (t' & m' & -> & Hm' & Hk' & Hop' & Hfirst). simpl in *.
    split; [|split].
    + intros j m d Hm Hk Hop Hbefore.
      assert (j = t') as ->.
      { destruct (Nat.lt_trichotomy j t') as [Hlt|[Heq|Hgt]]; [|done|].
        - specialize (Hfirst j m d Hlt Hm Hk). congruence.
        - specialize (Hbefore t' m' d' Hgt Hm' Hk'). congruence. }
      assert (m' = m) as -> by congruence.
      assert (d' = d) as -> by congruence.
      split; [done|]. split.
      * by rewrite (match_path_with_itv config inst s t' m d).
      * destruct (count_found_tables config in_warmup s d) as (Ht & _).
        rewrite Ht. by apply alter_as_insert.
    + intros Hall. destruct (Hall t' m' Hm') as (d & Hd & Hopd). congruence.
    + intros t m Hno. apply lookup_lt_Some in Hm' as Hlt.
      specialize (Hno t' m' d' Hlt Hm' Hk'). congruence.
  - apply java_search_none in Hs as (Hno & Hitt).
    split; [|split].
    + intros j m d Hm Hk Hop. specialize (Hno j m d Hm Hk). congruence.
    + intros Hall.
      destruct Hitt as [(-> & _)|(t & m & _ & Hm & Hk & _)].
      * split; [done|].
        change (map_insert (pc inst) (createIMem_ inst 0 in_warmup) ∅
                :: imem_mapvec_ s
                = {[pc inst := createIMem_ inst 0 in_warmup]}
                  :: imem_mapvec_ s).
        by rewrite map_insert_empty.
      * destruct (Hall t m Hm) as (d & Hd & _). congruence.
    + intros t m _ Hm Hk Hlast.
      destruct Hitt as [(-> & Hall)|(t' & m' & -> & Hm' & Hk' & Hlast')].
      * destruct (Hall t m Hm) as [d Hd]. congruence.
      * assert (t' = t) as ->.
        { destruct (Nat.lt_trichotomy t' t) as [Hlt|[Heq|Hgt]]; [|done|].
          - destruct (Hlast' t m Hlt Hm) as [d Hd]. congruence.
          - destruct (Hlast t' m' Hgt Hm') as [d Hd]. congruence. }
        assert (m' = m) as -> by congruence.
        rewrite Hcur. rewrite bool_decide_true by eauto.
        simpl. split; [done|].
        rewrite (alter_as_insert _ _ _ _ Hm). unfold map_insert.
        by rewrite Hk.
Qed.

(** * Creation of a load/store entry *)

Lemma scan_addresses_last accesses addr :
  scan_addresses accesses addr = List.last accesses addr.
Proof.
  unfold scan_addresses. revert addr.
  induction accesses as [|a accesses IH]; intros addr; [done|].
  simpl fold_left. rewrite IH. symmetry. apply last_cons_default.
Qed.

(** C8, as the code has it.  When [IMem::count_impl] first sees a PC and
    the instruction is a load or a store, the entry it creates records the
    LAST address among the memory reads (for a load) or the memory writes
    (for a store that is not a load), 0 when there is none, and it is
    classified as load/store exactly when that address is not 0. *)
Theorem first_sighting_load_store (config : STFImemConfig) (inst : STFInst)
    (s : IMemMapVec) (m : IMemMap) :
  imem_mapvec_ s !! itv_ s = Some m ->
  m !! pc inst = None ->
  isLoad inst || isStore inst = true ->
  let accesses :=
    if isLoad inst then getMemoryReads inst else getMemoryWrites inst in
  let addr := List.last accesses 0 in
  let d := IMemData_mem (isOpcode16 inst) (opcode inst) 0
             (inst_count_ s <? warmup_count config) addr in
  find_at (itv_ s) (pc inst) (count_impl IMem config inst s) = Some d
  /\ last_address_ d = addr
  /\ isLoadStore d = negb (addr =? 0).
Proof.
  intros Hm Hk Hls accesses addr d.
  split; [|split; reflexivity].
  simpl. unfold IMem_count_impl.
  rewrite (find_at_lookup _ _ _ _ Hm), Hk, Hls.
  unfold find_at, table_at, insert_at. simpl.
  rewrite (alter_as_insert _ _ _ _ Hm).
  rewrite list_lookup_insert_eq by (by apply lookup_lt_Some in Hm).
  simpl. unfold map_insert. rewrite Hk, lookup_insert_eq.
  unfold createIMem_addr, d, addr, accesses. do 2 f_equal.
  destruct (isLoad inst).
  - apply scan_addresses_last.
  - simpl in Hls. rewrite Hls. apply scan_addresses_last.
Qed.

(** The theorem for a load with reads at 16 and 32, first event of a run. *)
Lemma first_sighting_load_store_witness :
  let s' := count_impl IMem (default_config false)
              (load_inst 1 256 3 [16; 32]) IMemMapVec_init in
  exists d, find_at 0 256 s' = Some d /\ last_address_ d = 32
            /\ isLoadStore d = true.
Proof.
  intros s'.
  destruct (first_sighting_load_store (default_config false)
              (load_inst 1 256 3 [16; 32]) IMemMapVec_init ∅)
    as (Hfind & Haddr & Hls).
  - reflexivity.
  - reflexivity.
  - reflexivity.
  - eexists. split; [exact Hfind|]. split; [exact Haddr|exact Hls].
Defined.

(** C8 as stated fails on both counts: with two reads the entry keeps the
    second address, not the first; and a load whose address is 0 is not
    classified as load/store. *)
Lemma first_sighting_load_store_counterexample :
  ~ (forall config inst s d,
       find_at (itv_ s) (pc inst) s = None ->
       isLoad inst = true ->
       find_at (itv_ s) (pc inst) (count_impl IMem config inst s) = Some d ->
       last_address_ d = hd 0 (getMemoryReads inst))
  /\ ~ (forall config inst s d,
          find_at (itv_ s) (pc inst) s = None ->
          isLoad inst = true ->
          find_at (itv_ s) (pc inst) (count_impl IMem config inst s) = Some d ->
          isLoadStore d = true).
Proof.
  split; intros H.
  - specialize (H (default_config false) (load_inst 1 256 3 [16; 32])
                  IMemMapVec_init
                  (IMemData_mem false 3 0 false 32)
                  eq_refl eq_refl eq_refl).
    discriminate H.
  - specialize (H (default_config false) (load_inst 1 256 3 [0])
                  IMemMapVec_init
                  (IMemData_mem false 3 0 false 0)
                  eq_refl eq_refl eq_refl).
    discriminate H.
Qed.

(** * Runs *)

Lemma run_snoc impl config insts inst s :
  run impl config (insts ++ [inst]) s
  = loop_body impl config (run impl config insts s) inst.
Proof. unfold run. by rewrite fold_left_app. Qed.

Lemma report_invalid_tables inst s :
  imem_mapvec_ (report_invalid inst s) = imem_mapvec_ s
  /\ itv_ (report_invalid inst s) = itv_ s
  /\ inst_count_ (report_invalid inst s) = inst_count_ s.
Proof. unfold report_invalid. by destruct (negb (valid inst)). Qed.

(** * Branch history in [IMem] *)

Lemma ones_setbit_next (n : nat) :
  Z.setbit (Z.ones (Z.of_nat (n `min` MAX_LHIST_)))
    (Z.of_nat (n mod MAX_LHIST_))
  = Z.ones (Z.of_nat ((n + 1) `min` MAX_LHIST_)).
Proof.
  apply Z.bits_inj'. intros i Hi.
  rewrite Z.setbit_eqb by lia.
  rewrite !Z.testbit_ones by lia.
  assert ((n < MAX_LHIST_)%nat \/ (MAX_LHIST_ <= n)%nat) as [Hlt|Hge] by lia.
  - rewrite Nat.mod_small by done.
    rewrite (Nat.min_l n) by lia. rewrite (Nat.min_l (n + 1)) by lia.
    destruct (Z.eqb_spec (Z.of_nat n) i); simpl; lia.
  - rewrite (Nat.min_r n) by lia. rewrite (Nat.min_r (n + 1)) by lia.
    pose proof (slot_lt n).
    destruct (Z.eqb_spec (Z.of_nat (n mod MAX_LHIST_)) i); simpl; lia.
Qed.

Lemma branch_history_push n d :
  branch_history_of n d ->
  branch_history_of (n + 1) (nextBranchHistory true d).
Proof.
  intros (Hbr & Hlhr & Hidx). unfold branch_history_of, getBranchLhr in *.
  split; [|split].
  - simpl. split; [lia|done].
  - cbn [nextBranchHistory branch_lhr_]. rewrite Hlhr, Hidx.
    apply ones_setbit_next.
  - cbn [nextBranchHistory branch_lhr_idx_].
    rewrite cursor_branch_step by (rewrite Hidx; apply slot_lt).
    rewrite Hidx. unfold MAX_LHIST_. zify; Z.div_mod_to_equations; lia.
Qed.

Lemma taken_pushes_snoc config key opc insts inst :
  taken_pushes config key opc (insts ++ [inst])
  = (taken_pushes config key opc insts
     + if pushes_branch config key opc inst then 1 else 0)%nat.
Proof.
  unfold taken_pushes. rewrite List.filter_app, length_app. simpl.
  by destruct (pushes_branch config key opc inst).
Qed.

Lemma taken_pushes_unseen config key opc insts :
  Forall (fun e => admitted config e = true -> pc e <> key) insts ->
  taken_pushes config key opc insts = 0%nat.
Proof.
  unfold taken_pushes. induction 1 as [|e insts He _ IH]; [done|].
  simpl. unfold pushes_branch at 1.
  destruct (admitted config e); simpl; [|done].
  destruct (Z.eqb_spec (pc e) key); simpl; [|done].
  by destruct He.
Qed.

Lemma IMem_branch_inv_run config rv insts :
  IMem_branch_inv config insts
    (run IMem config insts (with_rv64 rv IMemMapVec_init)).
Proof.
  induction insts as [|inst insts IH] using rev_ind.
  - exists ∅. split_and!; done.
  - rewrite run_snoc. set (s := run IMem config insts (with_rv64 rv IMemMapVec_init)) in *.
    destruct IH as (m & Hm & Hitv & Hent & Habs).
    unfold loop_body.
    destruct (report_invalid_tables inst s) as (Ht & Hi & Hc).
    set (s1 := report_invalid inst s) in *.
    assert (imem_mapvec_ s1 !! itv_ s1 = Some m) as Hlook
      by by rewrite Ht, Hi, Hm, Hitv.
    destruct (admitted config inst) eqn:Hadm.
    + (* the event is counted *)
      unfold count. simpl count_impl. unfold IMemMapVec_init.
      unfold IMem_count_impl. cbn zeta.
      rewrite (find_at_lookup _ _ _ _ Hlook).
      destruct (m !! pc inst) as [d|] eqn:Hk.
      * destruct (opcodeMatch d (opcode inst)) eqn:Hop.
        -- (* update *)
           set (sd := count_found config _ (s1, d)).
           destruct (count_found_tables config
                       (inst_count_ s1 <? warmup_count config) s1 d)
             as (Ht' & Hi' & _).
           destruct (count_found_counted config s1 d) as (_ & Hcnt).
           fold sd in Ht', Hi', Hcnt.
           set (sd' := if isLoad inst || isStore inst
                       then nextStride_ _ sd
                       else if isTakenBranch inst
                            then nextBranchHistory_ (isTakenBranch inst) sd
                            else sd).
           assert (imem_mapvec_ sd'.1 = [m]) as Htab.
           { unfold sd'. destruct (isLoad inst || isStore inst);
               [|destruct (isTakenBranch inst)]; simpl;
               by rewrite Ht', Ht, Hm. }
           assert (opcode_ sd'.2 = opcode_ d) as Hopc.
           { unfold sd'. destruct (isLoad inst || isStore inst);
               [|destruct (isTakenBranch inst)]; simpl; apply Hcnt. }
           assert (branch_history_of
                     (taken_pushes config (pc inst) (opcode_ d)
                        (insts ++ [inst])) sd'.2) as Hhist.
           { rewrite taken_pushes_snoc. unfold pushes_branch.
             rewrite Hadm, Z.eqb_refl.
             unfold opcodeMatch in Hop. rewrite Z.eqb_sym, Hop. simpl.
             specialize (Hent _ _ Hk). unfold sd'.
             assert (branch_history_of
                       (taken_pushes config (pc inst) (opcode_ d) insts) sd.2)
               as Hsd.
             { unfold sd, count_found.
               destruct (inst_count_ s1 <? warmup_count config); simpl;
                 [exact Hent|].
               destruct (inst_count_ s1 <? runlength_count config); simpl;
                 exact Hent. }
             destruct (isLoad inst || isStore inst); simpl.
             - rewrite Nat.add_0_r. exact Hsd.
             - destruct (isTakenBranch inst); simpl.
               + by apply branch_history_push.
               + rewrite Nat.add_0_r. exact Hsd. }
           exists (<[pc inst := sd'.2]> m). split_and!.
           ++ unfold store_at.
              cbn [imem_mapvec_ with_inst_count with_mapvec].
              by rewrite Htab, Hi, Hitv.
           ++ unfold store_at.
              cbn [itv_ with_inst_count with_mapvec]. unfold sd'.
              destruct (isLoad inst || isStore inst);
                [|destruct (isTakenBranch inst)]; simpl;
                by rewrite Hi', Hi.
           ++ intros key d1 Hd1.
              destruct (decide (key = pc inst)) as [->|Hne].
              ** rewrite lookup_insert_eq in Hd1. inversion Hd1; subst d1.
                 rewrite Hopc. exact Hhist.
              ** rewrite lookup_insert_ne in Hd1 by done.
                 rewrite taken_pushes_snoc. unfold pushes_branch.
                 destruct (Z.eqb_spec (pc inst) key); [congruence|].
                 rewrite andb_false_r. simpl. rewrite Nat.add_0_r.
                 by apply Hent.
           ++ intros key Hnone.
              destruct (decide (key = pc inst)) as [->|Hne].
              ** by rewrite lookup_insert_eq in Hnone.
              ** rewrite lookup_insert_ne in Hnone by done.
                 apply Forall_app. split; [by apply Habs|].
                 constructor; [|constructor]. intros _. congruence.
        -- (* mismatch: a warning, tables as before *)
           exists m. split_and!.
           ++ simpl. by rewrite Ht.
           ++ simpl. by rewrite Hi.
           ++ intros key d1 Hd1. rewrite taken_pushes_snoc.
              unfold pushes_branch.
              destruct (Z.eqb_spec (pc inst) key) as [Heq|Hne].
              ** subst key. assert (d1 = d) as -> by congruence.
                 unfold opcodeMatch in Hop. rewrite Z.eqb_sym, Hop.
                 rewrite andb_false_r. simpl. rewrite Nat.add_0_r.
                 by apply Hent.
              ** rewrite andb_false_r. simpl. rewrite Nat.add_0_r.
                 by apply Hent.
           ++ intros key Hnone. apply Forall_app. split; [by apply Habs|].
              constructor; [|constructor]. intros _ Heq. congruence.
      * (* creation *)
        set (dnew :=
               if isLoad inst || isStore inst
               then createIMem_addr inst 0
                      (inst_count_ s1 <? warmup_count config)
                      (if isLoad inst
                       then scan_addresses (getMemoryReads inst) 0
                       else if isStore inst
                            then scan_addresses (getMemoryWrites inst) 0
                            else 0)
               else if isTakenBranch inst
                    then createIMem_branch inst 0
                           (inst_count_ s1 <? warmup_count config)
                           (isTakenBranch inst) (isTakenBranch inst)
                    else createIMem_ inst 0
                           (inst_count_ s1 <? warmup_count config)).
        exists (<[pc inst := dnew]> m).
        assert (forall d0, imem_mapvec_ (insert_at (itv_ s1) (pc inst) d0 s1)
                           = [<[pc inst := d0]> m]
                           /\ itv_ (insert_at (itv_ s1) (pc inst) d0 s1)
                              = 0%nat) as Hins.
        { intros d0. unfold insert_at. simpl.
          rewrite Ht, Hi, Hm, Hitv. simpl. unfold map_insert.
          by rewrite Hk. }
        assert (opcode_ dnew = opcode inst) as Hopc.
        { unfold dnew. destruct (isLoad inst || isStore inst);
            [|destruct (isTakenBranch inst)]; reflexivity. }
        assert (branch_history_of
                  (if negb (isLoad inst || isStore inst) && isTakenBranch inst
                   then 1 else 0) dnew) as Hhist.
        { unfold dnew. destruct (isLoad inst || isStore inst);
            [|destruct (isTakenBranch inst)]; simpl;
            (split; [|split]; [|reflexivity|reflexivity]);
            simpl; split; (done || lia). }
        split_and!.
        ++ simpl. unfold dnew.
           destruct (isLoad inst || isStore inst);
             [|destruct (isTakenBranch inst)]; apply Hins.
        ++ simpl. unfold dnew.
           destruct (isLoad inst || isStore inst);
             [|destruct (isTakenBranch inst)]; apply Hins.
        ++ intros key d1 Hd1.
           destruct (decide (key = pc inst)) as [->|Hne].
           ** rewrite lookup_insert_eq in Hd1. inversion Hd1; subst d1.
              rewrite taken_pushes_snoc.
              rewrite (taken_pushes_unseen _ _ _ _ (Habs _ Hk)).
              unfold pushes_branch.
              rewrite Hadm, Z.eqb_refl, Hopc, Z.eqb_refl. simpl.
              exact Hhist.
           ** rewrite lookup_insert_ne in Hd1 by done.
              rewrite taken_pushes_snoc. unfold pushes_branch.
              destruct (Z.eqb_spec (pc inst) key); [congruence|].
              rewrite andb_false_r. simpl. rewrite Nat.add_0_r.
              by apply Hent.
        ++ intros key Hnone.
           destruct (decide (key = pc inst)) as [->|Hne].
           ** by rewrite lookup_insert_eq in Hnone.
           ** rewrite lookup_insert_ne in Hnone by done.
              apply Forall_app. split; [by apply Habs|].
              constructor; [|constructor]. intros _. congruence.
    + (* the event is filtered out *)
      exists m. split_and!.
      * by rewrite Ht.
      * by rewrite Hi.
      * intros key d1 Hd1. rewrite taken_pushes_snoc. unfold pushes_branch.
        rewrite Hadm. simpl. rewrite Nat.add_0_r. by apply Hent.
      * intros key Hnone. apply Forall_app. split; [by apply Habs|].
        constructor; [|constructor]. congruence.
Qed.

(** C10.  In the non-Java profiler, after any run (from the state
    [processTrace_] starts in), the entry of a PC is
    marked as a branch exactly when at least one counted occurrence of it
    (admitted, same opcode, not a load or store) was a taken branch; its
    branch history holds a 1 in each slot written and nothing else, one
    slot per taken occurrence, so occurrences that are not taken push
    nothing and a branch that is never taken has no history at all. *)
Theorem never_taken_no_history (config : STFImemConfig) (rv : bool)
    (insts : list STFInst) (key : Z) (d : IMemData) :
  let s := run IMem config insts (with_rv64 rv IMemMapVec_init) in
  find_at (itv_ s) key s = Some d ->
  let n := taken_pushes config key (getOpcode d) insts in
  (isBranch d = true <-> (0 < n)%nat)
  /\ getBranchLhr d = Z.ones (Z.of_nat (n `min` 50))
  /\ branch_lhr_idx_ d = (n mod 50)%nat.
Proof.
  intros s Hfind n.
  destruct (IMem_branch_inv_run config rv insts) as (m & Hm & Hitv & Hent & _).
  fold s in Hm, Hitv.
  unfold find_at, table_at in Hfind. rewrite Hm, Hitv in Hfind.
  simpl in Hfind. exact (Hent key d Hfind).
Qed.

(** * The sorted report *)

Lemma multimap_order_emitted a b :
  multimap_order a b <-> emitted_before b a.
Proof.
  unfold multimap_order, emitted_before, SortedMapKey.lt,
    SortedMapKey.getCount, SortedMapKey.getPC.
  destruct a as [[ca pa] va], b as [[cb pb] vb]; simpl. lia.
Qed.

Lemma multimap_emplace_elem k v m x :
  x ∈ multimap_emplace k v m -> x = (k, v) \/ x ∈ m.
Proof.
  induction m as [|e m IH]; simpl.
  - rewrite list_elem_of_singleton. auto.
  - destruct (SortedMapKey.lt k e.1).
    + rewrite elem_of_cons. auto.
    + rewrite !elem_of_cons. intros [->|Hx]; [auto|].
      destruct (IH Hx); auto.
Qed.

Lemma multimap_emplace_Forall (P : SortedMapKey.t * SortedVector -> Prop)
    k v m :
  P (k, v) -> Forall P m -> Forall P (multimap_emplace k v m).
Proof.
  intros Hk Hm. apply Forall_forall. intros x Hx.
  apply multimap_emplace_elem in Hx as [->|Hx]; [done|].
  rewrite Forall_forall in Hm. by apply Hm.
Qed.

Lemma multimap_emplace_sorted k v m :
  StronglySorted multimap_order m ->
  StronglySorted multimap_order (multimap_emplace k v m).
Proof.
  induction 1 as [|e m Hm IH He]; simpl.
  - repeat constructor.
  - destruct (SortedMapKey.lt k e.1) eqn:Hlt.
    + constructor; [by constructor|]. constructor.
      * unfold multimap_order, SortedMapKey.lt in *. simpl.
        destruct k, e as [[] ?]; simpl in *. lia.
      * eapply Forall_impl; [exact He|]. intros x Hx.
        unfold multimap_order, SortedMapKey.lt in *. simpl.
        destruct k, e as [[] ?], x as [[] ?]; simpl in *. lia.
    + constructor; [exact IH|].
      apply multimap_emplace_Forall; [exact Hlt|exact He].
Qed.

Lemma StronglySorted_rev_flip {A} (R : relation A) (l : list A) :
  StronglySorted R l -> StronglySorted (flip R) (reverse l).
Proof.
  induction 1 as [|x l Hl IH Hx]; [constructor|].
  rewrite reverse_cons.
  apply StronglySorted_app_2; [|done|repeat constructor].
  intros x1 x2 Hx1 Hx2. apply list_elem_of_singleton in Hx2 as ->.
  rewrite elem_of_reverse in Hx1. rewrite Forall_forall in Hx.
  unfold flip. by apply Hx.
Qed.

Lemma block_total_snoc block e :
  block_total (block ++ [e]) = wrap64 (block_total block + getCount e.2).
Proof. unfold block_total. by rewrite fold_left_app. Qed.

(** Where [print] evaluates [current_block.front()], the vector is not
    empty: an entry has been seen ([first] is off) and each entry is put in
    the open block. *)
Lemma print_item_block_nonempty config b l cur :
  sort_output config = true ->
  current_block (print_item config b l cur) <> []
  /\ first (print_item config b l cur) = false.
Proof.
  intros Hs. unfold print_item. rewrite Hs.
  destruct (first l) eqn:Hf; simpl.
  - split; [by destruct (current_block l)|done].
  - destruct (negb (wrap64 (prev_pc l + prev_size l) =? cur.1)); simpl.
    + done.
    + rewrite Hf. split; [by destruct (current_block l)|done].
Qed.

Lemma print_item_inv config b l cur :
  print_inv config l -> print_inv config (print_item config b l cur).
Proof.
  intros (Hsorted & Hok & Hcount & Hne).
  destruct (sort_output config) eqn:Hs.
  - pose proof (print_item_block_nonempty config b l cur Hs) as (Hne' & _).
    revert Hne'. unfold print_inv, print_item. rewrite Hs.
    destruct (first l) eqn:Hf; simpl.
    + intros Hne'. split_and!; try done.
      by rewrite block_total_snoc, Hcount.
    + destruct (negb (wrap64 (prev_pc l + prev_size l) =? cur.1)); simpl.
      * intros _. split_and!; try done.
        -- by apply multimap_emplace_sorted.
        -- apply multimap_emplace_Forall; [|done].
           split_and!; simpl; auto.
      * intros Hne'. split_and!; try done.
        by rewrite block_total_snoc, Hcount.
  - unfold print_inv, print_item. rewrite Hs.
    destruct (first l) eqn:Hf; simpl.
    + split_and!; done.
    + destruct (negb (wrap64 (prev_pc l + prev_size l) =? cur.1)); simpl;
        split_and!; done.
Qed.

Lemma print_items_inv config b entries l :
  print_inv config l ->
  print_inv config (fold_left (print_item config b) entries l).
Proof.
  revert l. induction entries as [|e entries IH]; intros l Hl; [done|].
  simpl. apply IH. by apply print_item_inv.
Qed.

Lemma print_inv_ext config l l' :
  sorted_map l' = sorted_map l ->
  block_count l' = block_count l ->
  current_block l' = current_block l ->
  first l' = first l ->
  print_inv config l -> print_inv config l'.
Proof. unfold print_inv. by intros -> -> -> ->. Qed.

Lemma print_map_inv config b rv l m :
  print_inv config l -> print_inv config (print_map config b rv l m).
Proof.
  intros Hl. unfold print_map. cbn zeta.
  eapply print_inv_ext; [reflexivity..|].
  apply print_items_inv.
  eapply print_inv_ext; [reflexivity..|exact Hl].
Qed.

Lemma print_loops_inv config b s :
  print_inv config (print_loops config b s).
Proof.
  unfold print_loops.
  set (l0 := mkPrintLocals _ _ _ _ _ _ _ _).
  assert (print_inv config l0) as Hl0.
  { split_and!; simpl; try done; constructor. }
  revert Hl0. generalize l0. clear l0.
  induction (reverse (imem_mapvec_ s)) as [|m tabs IH]; intros l0 Hl0; [done|].
  simpl. apply IH. by apply print_map_inv.
Qed.

Lemma print_sorted_items_shape block acc :
  omap line_shape (fold_left print_sorted_item block acc).1
  = omap line_shape acc.1 ++ (inr ∘ fst <$> block).
Proof.
  revert acc. induction block as [|e block IH]; intros acc.
  - simpl. by rewrite app_nil_r.
  - simpl fold_left. rewrite IH. unfold print_sorted_item.
    cbn [fst snd]. rewrite omap_app. simpl. by rewrite <- app_assoc.
Qed.

Lemma print_sorted_blocks_shape blocks acc :
  omap line_shape (fold_left print_sorted_block blocks acc).1
  = omap line_shape acc.1 ++ (blocks ≫= block_shape).
Proof.
  revert acc. induction blocks as [|blk blocks IH]; intros acc.
  - simpl. by rewrite app_nil_r.
  - simpl fold_left. rewrite IH, bind_cons. unfold print_sorted_block.
    rewrite print_sorted_items_shape. cbn [fst snd].
    rewrite omap_app. simpl. unfold block_shape.
    by rewrite <- !app_assoc.
Qed.

(** The sorted report consists of the blocks of [sorted_blocks], in that
    order: for each its header, then its entries. *)
Lemma print_sorted_shape config b s :
  match sorted_os_ (print config b s) with
  | Some out =>
      sort_output config = true
      /\ omap line_shape out = sorted_blocks config b s ≫= block_shape
  | None => sort_output config = false \/ sorted_blocks config b s = []
  end.
Proof.
  unfold print. destruct (sort_output config); [|by left]. cbn zeta.
  destruct (sorted_blocks config b s) as [|blk blocks] eqn:Hb; [by right|].
  cbn [sorted_os_]. split; [done|].
  rewrite print_sorted_blocks_shape. by destruct b.
Qed.

(** C5.  The blocks of the frequency-ranked report, in the order in which
    [print] writes them: of any two, the one written first has the larger
    aggregate count, or the same count and a starting PC that is not
    larger.  Each block is filed under the PC of its first entry and the
    count accumulated over its entries, and the report written is these
    blocks one after the other, header first. *)
Theorem sorted_report_order (config : STFImemConfig) (os_is_stdout : bool)
    (s : IMemMapVec) :
  StronglySorted emitted_before (sorted_blocks config os_is_stdout s)
  /\ Forall block_ok (sorted_blocks config os_is_stdout s)
  /\ match sorted_os_ (print config os_is_stdout s) with
     | Some out =>
         sort_output config = true
         /\ omap line_shape out
            = sorted_blocks config os_is_stdout s ≫= block_shape
     | None =>
         sort_output config = false
         \/ sorted_blocks config os_is_stdout s = []
     end.
Proof.
  destruct (print_loops_inv config os_is_stdout s)
    as (Hsorted & Hok & Hcount & Hne).
  set (l := print_loops config os_is_stdout s) in *.
  assert (StronglySorted multimap_order (print_sorted_map config l)
          /\ Forall block_ok (print_sorted_map config l)) as (Hs & Hb).
  { unfold print_sorted_map.
    destruct (sort_output config); simpl; [|done].
    case_bool_decide as Hcb; simpl; [done|]. split.
    - by apply multimap_emplace_sorted.
    - apply multimap_emplace_Forall; [|done]. split_and!; simpl; auto. }
  split; [|split; [|apply print_sorted_shape]]; unfold sorted_blocks; fold l.
  - apply StronglySorted_rev_flip in Hs.
    eapply Sorted.StronglySorted_ind with
      (P := StronglySorted emitted_before); [constructor| |exact Hs].
    intros a l' _ IH Ha. constructor; [done|].
    eapply Forall_impl; [exact Ha|]. intros x Hx.
    by apply multimap_order_emitted.
  - apply Forall_forall. intros x Hx. rewrite elem_of_reverse in Hx.
    rewrite Forall_forall in Hb. by apply Hb.
Qed.

(** * The address-ordered report *)

(** The iteration of a table visits each entry once, in strictly ascending
    key order. *)
Lemma map_begin_end_sorted (m : IMemMap) :
  StronglySorted pc_lt (map_begin_end m) /\ map_begin_end m ≡ₚ map_to_list m.
Proof.
  unfold map_begin_end. split; [|apply merge_sort_Permutation].
  assert (NoDup (merge_sort key_le (map_to_list m)).*1) as Hnd.
  { rewrite merge_sort_Permutation. apply NoDup_fst_map_to_list. }
  pose proof (StronglySorted_merge_sort key_le (map_to_list m)) as Hs.
  revert Hnd. induction Hs as [|x l Hl IH Hx]; intros Hnd; [constructor|].
  rewrite fmap_cons in Hnd. apply NoDup_cons in Hnd as (Hnotin & Hnd).
  constructor; [by apply IH|].
  apply Forall_forall. intros y Hy. rewrite Forall_forall in Hx.
  specialize (Hx y Hy). unfold key_le in Hx. unfold pc_lt.
  assert (x.1 <> y.1); [|lia].
  intros Heq. apply Hnotin. rewrite Heq. apply list_elem_of_fmap. eauto.
Qed.

Lemma filter_not_gap_header config :
  List.filter not_gap (print_header config) = print_header config.
Proof. unfold print_header. by destruct (track config). Qed.

Lemma print_item_os config b l cur :
  List.filter not_gap (os (print_item config b l cur))
  = List.filter not_gap (os l)
    ++ (if negb b || negb (sort_output config)
        then [OutItem cur.1 cur.2] else [])
  /\ map_num (print_item config b l cur) = map_num l.
Proof.
  unfold print_item.
  destruct (first l), (negb (wrap64 (prev_pc l + prev_size l) =? cur.1)),
    (sort_output config), b; simpl;
    rewrite ?List.filter_app; simpl; rewrite ?app_nil_r; done.
Qed.

Lemma print_items_os config b entries l :
  List.filter not_gap (os (fold_left (print_item config b) entries l))
  = List.filter not_gap (os l)
    ++ (if negb b || negb (sort_output config)
        then (fun e => OutItem e.1 e.2) <$> entries else [])
  /\ map_num (fold_left (print_item config b) entries l) = map_num l.
Proof.
  revert l. induction entries as [|e entries IH]; intros l.
  - simpl. destruct (negb b || negb (sort_output config));
      by rewrite app_nil_r.
  - simpl fold_left. destruct (IH (print_item config b l e)) as (-> & ->).
    destruct (print_item_os config b l e) as (-> & ->).
    split; [|done]. rewrite <- app_assoc. f_equal.
    by destruct (negb b || negb (sort_output config)).
Qed.

Lemma print_map_os config b rv l m :
  List.filter not_gap (os (print_map config b rv l m))
  = List.filter not_gap (os l)
    ++ OutMapBanner (map_num l) rv :: table_rows config b m
  /\ map_num (print_map config b rv l m) = (map_num l + 1) mod 2 ^ 32.
Proof.
  unfold print_map. cbn zeta. cbn [os map_num].
  match goal with
  | |- context [fold_left _ _ ?l1] =>
      destruct (print_items_os config b (map_begin_end m) l1) as (-> & ->)
  end.
  cbn [os map_num]. rewrite List.filter_app. simpl.
  rewrite <- app_assoc. done.
Qed.

Lemma print_maps_os config b rv tabs l :
  List.filter not_gap (os (fold_left (print_map config b rv) tabs l))
  = List.filter not_gap (os l)
    ++ concat (imap (fun i m =>
                       OutMapBanner
                         (Nat.iter i (fun n => (n + 1) mod 2 ^ 32) (map_num l))
                         rv :: table_rows config b m) tabs).
Proof.
  revert l. induction tabs as [|m tabs IH]; intros l.
  - simpl. by rewrite app_nil_r.
  - simpl fold_left. rewrite IH.
    destruct (print_map_os config b rv l m) as (-> & ->).
    rewrite imap_cons. simpl concat. rewrite <- app_assoc. simpl.
    erewrite (imap_ext _ (_ ∘ S)); [reflexivity|].
    intros i x _. unfold compose.
    by rewrite (Nat.iter_succ_r i (fun n => (n + 1) mod 2 ^ 32)).
Qed.

(** The lines of the address-ordered report, gap markers apart: the header,
    then table by table the banner and the rows, the tables taken from the
    back of [imem_mapvec_] to its front. *)
Lemma print_os_tables config b s :
  List.filter not_gap (os_ (print config b s))
  = report_of_tables config b (is_rv64_ s) (reverse (imem_mapvec_ s)).
Proof.
  assert (os_ (print config b s) = os (print_loops config b s)) as ->.
  { unfold print. destruct (sort_output config); [|done].
    by destruct (sorted_blocks config b s). }
  unfold print_loops. rewrite print_maps_os. simpl.
  by rewrite filter_not_gap_header.
Qed.

(** * Creation order of the tables *)

Lemma table_step_grow config inst s T :
  table_step config inst s T ->
  length T = length (imem_mapvec_ s)
  \/ exists m, T = m :: imem_mapvec_ s.
Proof.
  intros [| | |]; rewrite ?length_insert; eauto.
Qed.

(** One iteration of the counting loop leaves the number of tables as it
    is, or puts one new table in front of the others. *)
Lemma loop_body_tables_grow impl config s inst :
  length (imem_mapvec_ (loop_body impl config s inst))
    = length (imem_mapvec_ s)
  \/ exists m, imem_mapvec_ (loop_body impl config s inst)
               = m :: imem_mapvec_ s.
Proof.
  unfold loop_body. destruct (report_invalid_tables inst s) as (Ht & _).
  destruct (admitted config inst); [|left; by rewrite Ht].
  unfold count. simpl. rewrite <- Ht.
  eapply table_step_grow. apply count_impl_step.
Qed.

(** What one iteration does to the tables, with the opcodes: each entry
    stays under its key with its opcode, in the table where it was; a new
    table holds the entry of the event. *)
Lemma loop_body_tables impl config s inst :
  (length (imem_mapvec_ (loop_body impl config s inst))
   = length (imem_mapvec_ s)
   /\ forall i m key d,
        imem_mapvec_ s !! i = Some m -> m !! key = Some d ->
        exists m' d',
          imem_mapvec_ (loop_body impl config s inst) !! i = Some m'
          /\ m' !! key = Some d' /\ getOpcode d' = getOpcode d)
  \/ exists d,
       imem_mapvec_ (loop_body impl config s inst)
       = {[pc inst := d]} :: imem_mapvec_ s
       /\ getOpcode d = opcode inst.
Proof.
  unfold loop_body. destruct (report_invalid_tables inst s) as (Ht & _).
  destruct (admitted config inst).
  - unfold count. cbn zeta.
    change (imem_mapvec_ (with_inst_count ?n ?x)) with (imem_mapvec_ x).
    pose proof (count_impl_step impl config inst (report_invalid inst s))
      as Hstep.
    rewrite <- Ht.
    destruct Hstep as [|it m0 d0 d' Hm Hk Hop Hc|it m0 d0 Hm Hk Hc|d0 Hc].
    + left. split; [done|]. intros i m key d Hi Hd. eauto.
    + left. split; [by rewrite length_insert|].
      intros i m key d Hi Hd.
      pose proof (lookup_lt_Some _ _ _ Hm) as Hlt.
      destruct (decide (i = it)) as [->|Hne].
      * rewrite list_lookup_insert_eq by done.
        assert (m = m0) as -> by congruence.
        destruct (decide (key = pc inst)) as [->|Hkey].
        -- exists (<[pc inst := d']> m0), d'.
           rewrite lookup_insert_eq. split_and!; try done.
           assert (d = d0) as -> by congruence.
           destruct Hc as (_ & Ho & _). done.
        -- exists (<[pc inst := d']> m0), d.
           by rewrite lookup_insert_ne.
      * exists m, d. by rewrite list_lookup_insert_ne.
    + left. split; [by rewrite length_insert|].
      intros i m key d Hi Hd.
      pose proof (lookup_lt_Some _ _ _ Hm) as Hlt.
      destruct (decide (i = it)) as [->|Hne].
      * rewrite list_lookup_insert_eq by done.
        assert (m = m0) as -> by congruence.
        exists (<[pc inst := d0]> m0), d.
        rewrite lookup_insert_ne by congruence. done.
      * exists m, d. by rewrite list_lookup_insert_ne.
    + right. exists d0. split; [done|]. by destruct Hc as (_ & Ho & _).
  - left. rewrite Ht. split; [done|]. intros i m key d Hi Hd. eauto.
Qed.

Lemma new_table_at_front (m : IMemMap) (T : list IMemMap) :
  new_table_at T (m :: T) = Some 0%nat.
Proof.
  unfold new_table_at. cbn [length seq List.filter].
  by rewrite bool_decide_true.
Qed.

Lemma new_table_at_same_length (T T' : list IMemMap) :
  length T' = length T -> new_table_at T T' = None.
Proof.
  intros Hlen. unfold new_table_at.
  assert (forall l, Forall (fun i => (i < length T')%nat) l ->
            List.filter (fun i => bool_decide (delete i T' = T)) l = [])
    as Hnil.
  { induction 1 as [|i l Hi _ IH]; [done|]. simpl.
    rewrite bool_decide_false; [done|]. intros Heq.
    apply (f_equal length) in Heq.
    rewrite length_delete in Heq by by apply lookup_lt_is_Some.
    lia. }
  rewrite Hnil; [done|].
  apply Forall_forall. intros i Hi. apply elem_of_seq in Hi. lia.
Qed.

Lemma run_births_snoc impl config rv insts inst :
  run_births impl config rv (insts ++ [inst])
  = births_step impl config (run_births impl config rv insts) inst.
Proof. unfold run_births. by rewrite fold_left_app. Qed.

(** A table keeps its stamp when the trace goes on, as long as its entries
    stay with their opcodes. *)
Lemma created_by_snoc impl config rv insts inst stamp (m m' : IMemMap) :
  (forall key d, m !! key = Some d ->
     exists d', m' !! key = Some d' /\ getOpcode d' = getOpcode d) ->
  created_by impl config rv insts stamp m ->
  created_by impl config rv (insts ++ [inst]) stamp m'.
Proof.
  intros Hkeep. destruct stamp as [|k]; [done|]. simpl.
  intros (Hgrow & e & d & He & Hd & Ho).
  pose proof (lookup_lt_Some _ _ _ He) as Hlt.
  rewrite !take_app_le by lia. split; [done|].
  destruct (Hkeep _ _ Hd) as (d' & Hd' & Ho').
  exists e, d'. split_and!; [by apply lookup_app_l_Some|done|congruence].
Qed.

(** The stamps go with the tables of the run: each table has the stamp of
    the event that added it, and the stamps decrease strictly from the
    front of [imem_mapvec_] to its back. *)
Lemma run_births_spec impl config rv insts :
  let r := run_births impl config rv insts in
  r.1.1 = length insts
  /\ r.1.2 = run impl config insts (with_rv64 rv IMemMapVec_init)
  /\ Forall2 (created_by impl config rv insts) r.2 (imem_mapvec_ r.1.2)
  /\ StronglySorted (fun a b => (b < a)%nat) r.2
  /\ Forall (fun a => (a <= length insts)%nat) r.2.
Proof.
  induction insts as [|inst insts IH] using rev_ind.
  - simpl. split_and!; try done; repeat constructor.
  - rewrite run_births_snoc. destruct IH as (Hpos & Hs & Hall & Hsort & Hle).
    set (r := run_births impl config rv insts) in *.
    unfold births_step. cbn zeta. cbn [fst snd].
    rewrite run_snoc, <- Hs, length_app. cbn [length].
    assert (Forall (fun a => (a <= length insts + 1)%nat) r.2) as Hle'.
    { eapply Forall_impl; [exact Hle|]. simpl. intros; lia. }
    split; [lia|]. split; [done|].
    destruct (loop_body_tables impl config r.1.2 inst)
      as [(Hlen & Hkeep)|(d & HT & Ho)].
    + rewrite (new_table_at_same_length _ _ Hlen).
      split_and!; try done.
      apply Forall2_same_length_lookup.
      apply Forall2_same_length_lookup in Hall as (Hl & Hall).
      split; [by rewrite Hlen|].
      intros i stamp m' Hst Hm'.
      destruct (lookup_lt_is_Some_2 (imem_mapvec_ r.1.2) i) as (m & Hm).
      { rewrite <- Hlen. by apply lookup_lt_Some in Hm'. }
      apply (created_by_snoc impl config rv insts inst stamp m m');
        [|by apply (Hall i)].
      intros key x Hx. destruct (Hkeep i m key x Hm Hx) as (m1 & d' & H1 & H2).
      assert (m1 = m') as -> by congruence. eauto.
    + rewrite HT, new_table_at_front. cbn [take drop app].
      split_and!.
      * constructor.
        -- simpl. rewrite Hpos.
           rewrite take_app_le by lia. rewrite firstn_all.
           rewrite (take_ge (insts ++ [inst]))
             by (rewrite length_app; simpl; lia).
           rewrite run_snoc, <- Hs, HT. simpl. split; [done|].
           exists inst, d. split_and!; [|apply lookup_singleton_eq|done].
           by rewrite lookup_app_r, Nat.sub_diag.
        -- eapply Forall2_impl; [exact Hall|].
           intros stamp m. apply created_by_snoc. eauto.
      * constructor; [done|]. rewrite Hpos.
        eapply Forall_impl; [exact Hle|]. simpl. intros; lia.
      * constructor; [lia|done].
Qed.

(** C4, as the code has it.  In the address-ordered report of any run the
    tables are written from the back of [imem_mapvec_] to its front, which
    is from the first-created table to the most recently created one:
    each table carries the stamp of the event that added it (the run has
    one table more after that event than before it, and the table holds
    the entry made for that event), and the stamps of the tables, in the
    order written, increase strictly.  Within each table the entries are
    written in strictly ascending PC order, each once. *)
Theorem linear_report_order (impl : ImplType) (config : STFImemConfig)
    (rv : bool) (insts : list STFInst) (os_is_stdout : bool) :
  let s := run impl config insts (with_rv64 rv IMemMapVec_init) in
  let births := table_births impl config rv insts in
  List.filter not_gap (os_ (print config os_is_stdout s))
    = report_of_tables config os_is_stdout (is_rv64_ s)
        (reverse (imem_mapvec_ s))
  /\ length births = length (imem_mapvec_ s)
  /\ Forall2 (created_by impl config rv insts) births (imem_mapvec_ s)
  /\ StronglySorted (fun a b => (a < b)%nat) (reverse births)
  /\ Forall (fun m => StronglySorted pc_lt (map_begin_end m)
                      /\ map_begin_end m ≡ₚ map_to_list m)
       (imem_mapvec_ s).
Proof.
  intros s births.
  destruct (run_births_spec impl config rv insts)
    as (_ & Hs & Hall & Hsort & _).
  fold s in Hs. unfold births, table_births. rewrite Hs in Hall.
  split_and!.
  - apply print_os_tables.
  - by apply Forall2_length in Hall.
  - exact Hall.
  - apply (StronglySorted_rev_flip _ _ Hsort).
  - apply Forall_forall. intros m _. apply map_begin_end_sorted.
Qed.

(** C4 as stated fails: after two events at PC 0x100 with opcodes 19 and
    51 the Java variant has two tables, in front the one added by the
    second event (stamp 2, holding opcode 51) and behind it the
    constructor's (stamp 0, holding opcode 19); the report writes the
    entry with opcode 19 first and the one with opcode 51 last, so the
    most recently created table comes last, not first. *)
Lemma linear_report_order_counterexample :
  let config := default_config false in
  let insts := [plain_inst 1 256 19; plain_inst 2 256 51] in
  let s := run JavaIMem config insts (with_rv64 false IMemMapVec_init) in
  table_births JavaIMem config false insts = [2; 0]%nat
  /\ (fun m => (fun e => (e.1, getOpcode e.2)) <$> map_begin_end m)
       <$> imem_mapvec_ s
     = [[(256, 51)]; [(256, 19)]]
  /\ omap item_opcode (os_ (print config false s)) = [19; 51]
  /\ omap item_opcode (os_ (print config false s)) <> [51; 19]
  /\ List.filter not_gap (os_ (print config false s))
     <> report_of_tables config false (is_rv64_ s) (imem_mapvec_ s).
Proof.
  split_and!; try reflexivity.
  - vm_compute. intros H. discriminate H.
  - vm_compute. intros H. discriminate H.
Qed.

(** * Morph identifiers *)

Section morph_id.
Import STFMorpher.

(** One step of the digit loop on a numeral: evaluate the digit of the
    first character and the comparison with the base. *)
Local Ltac digit_step base :=
  match goal with
  | |- context [digit_of ?c] =>
      let v := eval vm_compute in (digit_of c) in
      change (digit_of c) with v
  end;
  cbv iota beta;
  match goal with
  | |- context [?v <? base] =>
      let b := eval vm_compute in (v <? base) in
      change (v <? base) with b
  end;
  cbv iota.

Lemma strtoull_digits_dec_acc (d : Decimal.uint) (p : positive) (any : bool) :
  strtoull_digits 10 (dec_string d) (Z.pos p) any
  = (Z.pos (Pos.of_uint_acc d p), any || has_digit d).
Proof.
  unfold dec_string. revert p any. induction d; intros p any;
    cbn [DecimalString.NilEmpty.string_of_uint strtoull_digits
         Pos.of_uint_acc has_digit];
    [by rewrite orb_false_r|..];
    digit_step 10;
    (match goal with
     | |- strtoull_digits _ _ ?acc _ = (Z.pos (Pos.of_uint_acc _ ?q), _) =>
         replace acc with (Z.pos q) by lia
     end);
    rewrite IHd, orb_true_r; reflexivity.
Qed.

Lemma strtoull_digits_dec (d : Decimal.uint) (any : bool) :
  strtoull_digits 10 (dec_string d) 0 any
  = (Z.of_N (Pos.of_uint d), any || has_digit d).
Proof.
  unfold dec_string. revert any. induction d; intros any;
    cbn [DecimalString.NilEmpty.string_of_uint strtoull_digits
         Pos.of_uint has_digit];
    [by rewrite orb_false_r|..];
    digit_step 10;
    first [ rewrite IHd, orb_true_r; reflexivity
          | match goal with
            | |- strtoull_digits _ _ ?acc _ = _ =>
                let v := eval vm_compute in acc in change acc with v
            end;
            fold (dec_string d);
            rewrite strtoull_digits_dec_acc, orb_true_r; reflexivity ].
Qed.

Lemma strtoull_digits_hex_acc (d : Hexadecimal.uint) (p : positive)
    (any : bool) :
  strtoull_digits 16 (hex_string d) (Z.pos p) any
  = (Z.pos (Pos.of_hex_uint_acc d p), any || has_hex_digit d).
Proof.
  unfold hex_string. revert p any. induction d; intros p any;
    cbn [HexadecimalString.NilEmpty.string_of_uint strtoull_digits
         Pos.of_hex_uint_acc has_hex_digit];
    [by rewrite orb_false_r|..];
    digit_step 16;
    (match goal with
     | |- strtoull_digits _ _ ?acc _ = (Z.pos (Pos.of_hex_uint_acc _ ?q), _) =>
         replace acc with (Z.pos q) by lia
     end);
    rewrite IHd, orb_true_r; reflexivity.
Qed.

Lemma strtoull_digits_hex (d : Hexadecimal.uint) (any : bool) :
  strtoull_digits 16 (hex_string d) 0 any
  = (Z.of_N (Pos.of_hex_uint d), any || has_hex_digit d).
Proof.
  unfold hex_string. revert any. induction d; intros any;
    cbn [HexadecimalString.NilEmpty.string_of_uint strtoull_digits
         Pos.of_hex_uint has_hex_digit];
    [by rewrite orb_false_r|..];
    digit_step 16;
    first [ rewrite IHd, orb_true_r; reflexivity
          | match goal with
            | |- strtoull_digits _ _ ?acc _ = _ =>
                let v := eval vm_compute in acc in change acc with v
            end;
            fold (hex_string d);
            rewrite strtoull_digits_hex_acc, orb_true_r; reflexivity ].
Qed.

Lemma stoull_dec (d : Decimal.uint) :
  has_digit d = true ->
  stoull (dec_string d) 10
  = let r := strtoull_digits 10 (dec_string d) 0 false in
    if negb r.2 then invalid_argument
    else if 2 ^ 64 <=? r.1 then out_of_range else Id r.1.
Proof. destruct d; [discriminate|..]; intros _; reflexivity. Qed.

Lemma skip_hex_prefix_digits (h : Hexadecimal.uint) :
  skip_hex_prefix (hex_string h) = hex_string h.
Proof.
  destruct h as [|h|h|h|h|h|h|h|h|h|h|h|h|h|h|h|h]; try reflexivity.
  unfold hex_string.
  destruct h; cbn [HexadecimalString.NilEmpty.string_of_uint];
    try reflexivity;
    match goal with
    | |- context [HexadecimalString.NilEmpty.string_of_uint ?x] =>
        generalize (HexadecimalString.NilEmpty.string_of_uint x)
    end;
    intros [|c rest]; reflexivity.
Qed.

Lemma stoull_hex (h : Hexadecimal.uint) :
  has_hex_digit h = true ->
  stoull (hex_string h) 16
  = let r := strtoull_digits 16 (hex_string h) 0 false in
    if negb r.2 then invalid_argument
    else if 2 ^ 64 <=? r.1 then out_of_range else Id r.1.
Proof.
  intros Hd. unfold stoull.
  assert (split_sign (skip_space (hex_string h)) = (false, hex_string h))
    as -> by (destruct h; reflexivity).
  cbn [fst snd]. change (16 =? 16) with true. cbv iota.
  by rewrite skip_hex_prefix_digits.
Qed.

Lemma stoull_hex_prefixed (h : Hexadecimal.uint) :
  has_hex_digit h = true ->
  stoull (String "0" (String "x" (hex_string h))) 16
  = stoull (hex_string h) 16.
Proof.
  intros Hd. rewrite (stoull_hex h Hd).
  destruct h; [discriminate|..]; reflexivity.
Qed.

End morph_id.

(** C9.  [convertMorphId_] reads the identifier of a sequence-index morph
    as a decimal numeral and that of a PC morph as a hexadecimal numeral
    (with or without a [0x] in front): a numeral that fits 64 bits is
    returned at its value in base 10, respectively base 16. *)
Theorem convertMorphId_reads_base (d : Decimal.uint) (h : Hexadecimal.uint) :
  has_digit d = true -> has_hex_digit h = true ->
  dec_value d < 2 ^ 64 -> hex_value h < 2 ^ 64 ->
  STFMorpher.convertMorphId_ STFMorpher.STFID (dec_string d)
    = STFMorpher.Id (dec_value d)
  /\ STFMorpher.convertMorphId_ STFMorpher.PC (hex_string h)
     = STFMorpher.Id (hex_value h)
  /\ STFMorpher.convertMorphId_ STFMorpher.PC
       (String "0" (String "x" (hex_string h)))
     = STFMorpher.Id (hex_value h).
Proof.
  intros Hd Hh Hdv Hhv. unfold STFMorpher.convertMorphId_.
  rewrite (stoull_hex_prefixed h Hh), (stoull_dec d Hd), (stoull_hex h Hh).
  rewrite strtoull_digits_dec, strtoull_digits_hex, Hd, Hh. cbn zeta.
  cbn [fst snd orb negb].
  unfold dec_value, hex_value, N.of_uint, N.of_hex_uint in *.
  rewrite (proj2 (Z.leb_gt _ _) Hdv), (proj2 (Z.leb_gt _ _) Hhv).
  done.
Qed.

(** The theorem at the numeral 1000: one thousand as a sequence index,
    0x1000 as a PC. *)
Lemma convertMorphId_reads_base_witness :
  STFMorpher.convertMorphId_ STFMorpher.STFID "1000" = STFMorpher.Id 1000
  /\ STFMorpher.convertMorphId_ STFMorpher.PC "1000" = STFMorpher.Id 4096
  /\ STFMorpher.convertMorphId_ STFMorpher.PC "0x1000" = STFMorpher.Id 4096.
Proof.
  apply (convertMorphId_reads_base
           (Decimal.D1 (Decimal.D0 (Decimal.D0 (Decimal.D0 Decimal.Nil))))
           (Hexadecimal.D1
              (Hexadecimal.D0 (Hexadecimal.D0 (Hexadecimal.D0 Hexadecimal.Nil)))));
    reflexivity.
Defined.

(** * The counting loop *)

(** [processTrace_loop] stops where [run] on a prefix of the sequence
    stops: the [break] only cuts the sequence short. *)
Lemma processTrace_loop_run impl config insts s :
  exists k, processTrace_loop impl config insts s
            = run impl config (take k insts) s.
Proof.
  revert s. induction insts as [|inst insts IH]; intros s.
  - by exists 0%nat.
  - cbn [processTrace_loop]. cbn zeta.
    assert (forall k, run impl config (take (S k) (inst :: insts)) s
                      = run impl config (take k insts)
                          (loop_body impl config s inst)) as Hrun
      by done.
    destruct (admitted config inst) eqn:Hadm.
    + destruct (keep_count config
                <=? inst_count_ (count impl config inst (report_invalid inst s)))
        eqn:Hkeep.
      * exists 1%nat. rewrite Hrun. unfold loop_body. by rewrite Hadm.
      * destruct (IH (count impl config inst (report_invalid inst s)))
          as (k & Hk).
        exists (S k). rewrite Hk, Hrun. unfold loop_body. by rewrite Hadm.
    + destruct (IH (report_invalid inst s)) as (k & Hk).
      exists (S k). rewrite Hk, Hrun. unfold loop_body. by rewrite Hadm.
Qed.

Lemma count_impl_itv_valid impl config inst s :
  itv_valid s -> itv_valid (count_impl impl config inst s).
Proof.
  unfold itv_valid. intros Hv. destruct impl; simpl.
  - unfold IMem_count_impl.
    destruct (find_at (itv_ s) (pc inst) s) as [d|].
    + destruct (opcodeMatch d (opcode inst)); [|done].
      destruct (count_found_tables config
                  (inst_count_ s <? warmup_count config) s d)
        as (Ht & Hi & _).
      cbn zeta.
      destruct (isLoad inst || isStore inst);
        [|destruct (isTakenBranch inst)]; simpl;
        by rewrite length_alter, Ht, Hi.
    + destruct (isLoad inst || isStore inst);
        [|destruct (isTakenBranch inst)]; simpl;
        by rewrite length_alter.
  - assert ((itv_ (JavaIMem_other_maps config inst s)
             < length (imem_mapvec_ (JavaIMem_other_maps config inst s)))%nat)
      as Hother.
    { unfold JavaIMem_other_maps.
      destruct (java_search (pc inst) (opcode inst) (imem_mapvec_ s) 0 None)
        as [[[j d]|] itt] eqn:Hs.
      - apply java_search_found in Hs as (t & m & -> & Hm & _).
        apply lookup_lt_Some in Hm.
        destruct (count_found_tables config
                    (inst_count_ s <? warmup_count config) s d)
          as (Ht & _).
        simpl. by rewrite length_alter, Ht.
      - apply java_search_none in Hs as (_ & Hitt).
        destruct itt as [t|].
        + destruct Hitt as [(? & _)|(t' & m & Heq & Hm & _)]; [done|].
          inversion Heq; subst t. apply lookup_lt_Some in Hm.
          cbn zeta. case_bool_decide; simpl; by rewrite length_alter.
        + simpl. lia. }
    unfold JavaIMem_count_impl.
    destruct (find_at (itv_ s) (pc inst) s) as [d|]; [|exact Hother].
    destruct (opcodeMatch d (opcode inst)); [|exact Hother].
    destruct (count_found_tables config
                (inst_count_ s <? warmup_count config) s d)
      as (Ht & Hi & _).
    simpl. by rewrite length_alter, Ht, Hi.
Qed.

(** [itv_] designates a table throughout a run. *)
Lemma run_itv_valid impl config rv insts :
  itv_valid (run impl config insts (with_rv64 rv IMemMapVec_init)).
Proof.
  induction insts as [|inst insts IH] using rev_ind.
  - unfold itv_valid. simpl. lia.
  - rewrite run_snoc. unfold loop_body.
    destruct (report_invalid_tables inst
                (run impl config insts (with_rv64 rv IMemMapVec_init)))
      as (Ht & Hi & _).
    assert (itv_valid (report_invalid inst
                         (run impl config insts
                            (with_rv64 rv IMemMapVec_init)))) as Hv
      by (unfold itv_valid in *; by rewrite Ht, Hi).
    destruct (admitted config inst); [|exact Hv].
    unfold count. apply (count_impl_itv_valid impl config inst) in Hv.
    exact Hv.
Qed.

(** What [processTrace_] returns is a [run], from its start state, on a
    prefix of the instruction sequence; the theorems about runs hold of
    it. *)
Lemma processTrace_run impl config rv insts :
  exists k, processTrace_ impl config rv insts IMemMapVec_init
            = run impl config (take k insts) (with_rv64 rv IMemMapVec_init).
Proof. apply processTrace_loop_run. Qed.

(** * Where the counts go *)

Lemma tables_total_bound (f : IMemData -> Z) (tables : list IMemMap) it m k d :
  Forall (map_Forall (fun (_ : Z) d => 0 <= f d)) tables ->
  tables !! it = Some m -> m !! k = Some d ->
  0 <= f d <= tables_total f tables.
Proof.
  intros Hall Hm Hk.
  assert (forall m', map_Forall (fun (_ : Z) d => 0 <= f d) m' ->
                     0 <= map_total f m') as Hpos.
  { intros m'. unfold map_total.
    induction m' as [|i x m' Hi _ IH] using map_first_key_ind.
    - by rewrite map_fold_empty.
    - intros Hm'. apply map_Forall_insert in Hm' as (Hx & Hm'); [|done].
      rewrite map_fold_insert_L; [|intros; lia|done].
      specialize (IH Hm'). lia. }
  assert (0 <= f d <= map_total f m) as Hd.
  { pose proof (Forall_lookup_1 _ _ _ _ Hall Hm) as Hmall.
    rewrite (map_total_delete f m k d Hk).
    pose proof (map_Forall_lookup_1 _ _ _ _ Hmall Hk) as Hfd. simpl in Hfd.
    assert (0 <= map_total f (delete k m)); [|lia].
    apply Hpos. intros i x Hix. apply lookup_delete_Some in Hix as (_ & Hix).
    apply (map_Forall_lookup_1 _ _ _ _ Hmall Hix). }
  revert it Hm. induction Hall as [|m0 tables Hm0 Hall IH]; intros it Hm.
  - done.
  - simpl. destruct it as [|it]; simpl in Hm.
    + inversion Hm; subst m0.
      assert (0 <= tables_total f tables); [|lia].
      clear -Hall Hpos. induction Hall as [|m1 tables Hm1 _ IH]; simpl.
      * lia.
      * specialize (Hpos m1 Hm1). lia.
    + specialize (IH it Hm). specialize (Hpos m0 Hm0). lia.
Qed.

Lemma two_opcodes_warnings_write line s :
  two_opcodes_warnings (cerr_write line s)
  = two_opcodes_warnings s + (if is_two_opcodes line then 1 else 0).
Proof.
  unfold two_opcodes_warnings, cerr_write. simpl.
  rewrite List.filter_app, length_app. simpl.
  destruct (is_two_opcodes line); simpl; lia.
Qed.

Lemma counts_nonneg_insert (tables : list IMemMap) it m k d :
  Forall (map_Forall (fun (_ : Z) d => 0 <= getCount d)) tables ->
  tables !! it = Some m -> 0 <= getCount d ->
  Forall (map_Forall (fun (_ : Z) d => 0 <= getCount d))
    (<[it := <[k := d]> m]> tables).
Proof.
  intros Hall Hm Hd. apply Forall_insert; [done|].
  apply map_Forall_insert_2; [done|].
  apply (Forall_lookup_1 _ _ _ _ Hall Hm).
Qed.

(** The effect on the counts of updating the entry of the key in table
    [it], and of creating it there. *)
Lemma store_at_counts config inst s s1 it m d d' :
  counts_nonneg s -> total_count s < 2 ^ 64 - 1 ->
  imem_mapvec_ s1 = imem_mapvec_ s -> cerr_ s1 = cerr_ s ->
  imem_mapvec_ s !! it = Some m -> m !! pc inst = Some d ->
  entry_counted config s d d' ->
  counted_once s (store_at it (pc inst) d' s1).
Proof.
  intros Hnn Hlt Hs1 Hc1 Hm Hk (Hc & _).
  destruct (tables_total_bound getCount _ _ _ _ _ Hnn Hm Hk) as (H0 & Hle).
  unfold counted_once, total_count, counts_nonneg, store_at in *.
  cbn [imem_mapvec_ cerr_ with_mapvec].
  rewrite Hs1, (alter_as_insert _ _ _ _ Hm).
  assert (getCount d' = getCount d + 1) as Hd'.
  { unfold getCount in *. rewrite Hc. apply wrap64_small. lia. }
  split_and!.
  - rewrite (tables_total_insert _ _ _ _ _ Hm).
    rewrite (map_total_insert_Some _ _ _ _ _ Hk). lia.
  - apply counts_nonneg_insert; [done|done|lia].
  - done.
Qed.

Lemma insert_at_counts config inst s it m d :
  counts_nonneg s ->
  imem_mapvec_ s !! it = Some m -> m !! pc inst = None ->
  entry_created config inst s d ->
  counted_once s (insert_at it (pc inst) d s).
Proof.
  intros Hnn Hm Hk (Hc & _).
  unfold counted_once, total_count, counts_nonneg, insert_at in *.
  cbn [imem_mapvec_ cerr_ with_mapvec].
  rewrite (alter_as_insert _ _ _ _ Hm). unfold map_insert. rewrite Hk.
  split_and!.
  - rewrite (tables_total_insert _ _ _ _ _ Hm).
    rewrite (map_total_insert_None _ _ _ _ Hk). unfold getCount. lia.
  - apply counts_nonneg_insert; [done|done|]. unfold getCount. lia.
  - done.
Qed.

Lemma counted_once_with_itv s x j :
  counted_once s x -> counted_once s (with_itv j x).
Proof. intros H. exact H. Qed.

Lemma find_at_None it key s :
  (it < length (imem_mapvec_ s))%nat -> find_at it key s = None ->
  exists m, imem_mapvec_ s !! it = Some m /\ m !! key = None.
Proof.
  intros Hlt Hf. apply lookup_lt_is_Some in Hlt as (m & Hm).
  exists m. split; [done|]. by rewrite (find_at_lookup _ _ _ _ Hm) in Hf.
Qed.

Lemma JavaIMem_other_maps_counts config inst s :
  itv_valid s -> counts_nonneg s -> total_count s < 2 ^ 64 - 1 ->
  counted_once s (JavaIMem_other_maps config inst s).
Proof.
  intros Hv Hnn Hlt. unfold JavaIMem_other_maps.
  destruct (java_search (pc inst) (opcode inst) (imem_mapvec_ s) 0 None)
    as [[[j d]|] itt] eqn:Hs.
  - apply java_search_found in Hs as (t & m & -> & Hm & Hk & Hop & _).
    destruct (count_found_counted config s d) as (_ & Hd').
    destruct (count_found_tables config
                (inst_count_ s <? warmup_count config) s d)
      as (Ht & _ & Hc & _).
    cbn zeta. apply counted_once_with_itv.
    by eapply store_at_counts.
  - apply java_search_none in Hs as (_ & Hitt).
    destruct itt as [t|].
    + destruct Hitt as [(? & _)|(t' & m & Heq & Hm & Hk & _)]; [done|].
      inversion Heq; subst t. cbn zeta. case_bool_decide as Hact.
      * change (counted_once s
                  (with_itv t'
                     (insert_at t' (pc inst)
                        (createIMem_ inst 0
                           (inst_count_ s <? warmup_count config)) s))).
        apply counted_once_with_itv.
        eapply insert_at_counts; eauto. apply entry_created_new.
      * assert (find_at (itv_ s) (pc inst) s = None) as Hcur.
        { destruct (find_at (itv_ s) (pc inst) s); [|done].
          destruct Hact. eauto. }
        destruct (find_at_None _ _ _ Hv Hcur) as (m0 & Hm0 & Hk0).
        eapply insert_at_counts; eauto. apply entry_created_new.
    + cbn zeta.
      change (insert_at _ _ ?d _)
        with (with_itv 0
                (with_mapvec (map_insert (pc inst) d ∅ :: imem_mapvec_ s) s)).
      rewrite map_insert_empty.
      unfold counted_once, total_count, counts_nonneg.
      cbn [imem_mapvec_ cerr_ with_mapvec with_itv tables_total foldr].
      rewrite map_total_singleton.
      change (getCount (createIMem_ _ _ _)) with 1.
      split_and!; [fold (tables_total getCount (imem_mapvec_ s)); lia| |done].
      constructor; [|done]. apply map_Forall_singleton.
      by change (getCount (createIMem_ _ _ _)) with 1.
Qed.

(** One call of [count_impl] counts the event in an entry, except where
    [IMem] meets another opcode: the tables then stay as they are and one
    warning is written. *)
Lemma count_impl_counts impl config inst s :
  itv_valid s -> counts_nonneg s -> total_count s < 2 ^ 64 - 1 ->
  let s' := count_impl impl config inst s in
  counted_once s s'
  \/ (impl = IMem /\ imem_mapvec_ s' = imem_mapvec_ s
      /\ exists key o1 o2, cerr_ s' = cerr_ s ++ [DiagTwoOpcodes key o1 o2]).
Proof.
  intros Hv Hnn Hlt s'. unfold s'. clear s'.
  destruct impl; simpl.
  - unfold IMem_count_impl.
    destruct (find_at (itv_ s) (pc inst) s) as [d|] eqn:Hcur.
    + apply find_at_Some in Hcur as (m & Hm & Hk).
      destruct (opcodeMatch d (opcode inst)) eqn:Hop.
      * left.
        destruct (count_found_counted config s d) as (_ & Hd').
        destruct (count_found_tables config
                    (inst_count_ s <? warmup_count config) s d)
          as (Ht & _ & Hc & _).
        cbn zeta.
        destruct (isLoad inst || isStore inst);
          [|destruct (isTakenBranch inst)];
          by eapply store_at_counts.
      * right. split_and!; [done|done|]. simpl. eauto.
    + left. destruct (find_at_None _ _ _ Hv Hcur) as (m & Hm & Hk).
      destruct (isLoad inst || isStore inst);
        [|destruct (isTakenBranch inst)];
        (eapply insert_at_counts; eauto; apply entry_created_new).
  - left. unfold JavaIMem_count_impl.
    destruct (find_at (itv_ s) (pc inst) s) as [d|] eqn:Hcur;
      [|by apply JavaIMem_other_maps_counts].
    destruct (opcodeMatch d (opcode inst)) eqn:Hop;
      [|by apply JavaIMem_other_maps_counts].
    apply find_at_Some in Hcur as (m & Hm & Hk).
    destruct (count_found_counted config s d) as (_ & Hd').
    destruct (count_found_tables config
                (inst_count_ s <? warmup_count config) s d)
      as (Ht & _ & Hc & _).
    by eapply store_at_counts.
Qed.

Lemma count_impl_inst_count impl config inst s :
  inst_count_ (count_impl impl config inst s) = inst_count_ s.
Proof.
  pose proof (fun d => proj2 (proj2 (proj2 (count_found_tables config
                 (inst_count_ s <? warmup_count config) s d)))) as Hc.
  destruct impl; simpl.
  - unfold IMem_count_impl.
    destruct (find_at (itv_ s) (pc inst) s) as [d|].
    + destruct (opcodeMatch d (opcode inst)); [|done]. cbn zeta.
      destruct (isLoad inst || isStore inst);
        [|destruct (isTakenBranch inst)]; simpl; apply Hc.
    + by destruct (isLoad inst || isStore inst);
        [|destruct (isTakenBranch inst)].
  - assert (inst_count_ (JavaIMem_other_maps config inst s) = inst_count_ s)
      as Hother.
    { unfold JavaIMem_other_maps.
      destruct (java_search (pc inst) (opcode inst) (imem_mapvec_ s) 0 None)
        as [[[j d]|] [t|]]; cbn zeta; simpl; try apply Hc; try done.
      by case_bool_decide. }
    unfold JavaIMem_count_impl.
    destruct (find_at (itv_ s) (pc inst) s) as [d|]; [|exact Hother].
    destruct (opcodeMatch d (opcode inst)); [|exact Hother].
    simpl. apply Hc.
Qed.

Lemma admitted_count_snoc config insts inst :
  admitted_count config (insts ++ [inst])
  = admitted_count config insts + (if admitted config inst then 1 else 0).
Proof.
  unfold admitted_count. rewrite List.filter_app, length_app. simpl.
  destruct (admitted config inst); simpl; lia.
Qed.

Lemma admitted_count_bound config insts :
  0 <= admitted_count config insts <= Z.of_nat (length insts).
Proof.
  unfold admitted_count. split; [lia|].
  apply inj_le. apply List.filter_length_le.
Qed.

(** The count sum of a run: the counts of all entries and the mismatch
    warnings add up to the number of admitted events, which is also the
    value of [inst_count_]; the Java variant has no such warning, so there
    the counts alone add up to it. *)
Lemma run_count_sum impl config rv insts :
  Z.of_nat (length insts) < 2 ^ 64 ->
  let s := run impl config insts (with_rv64 rv IMemMapVec_init) in
  total_count s + two_opcodes_warnings s = admitted_count config insts
  /\ inst_count_ s = admitted_count config insts
  /\ counts_nonneg s
  /\ (impl = JavaIMem -> two_opcodes_warnings s = 0).
Proof.
  induction insts as [|inst insts IH] using rev_ind; intros Hlen.
  - split_and!; try done.
    + constructor; [apply map_Forall_empty|constructor].
  - rewrite length_app in Hlen. simpl in Hlen.
    destruct IH as (Hsum & Hcnt & Hnn & Hjava); [lia|].
    pose proof (run_itv_valid impl config rv insts) as Hv.
    pose proof (admitted_count_bound config insts) as Hb.
    rewrite run_snoc, admitted_count_snoc.
    set (s := run impl config insts (with_rv64 rv IMemMapVec_init)) in *.
    unfold loop_body.
    destruct (report_invalid_tables inst s) as (Ht & Hi & Hc).
    assert (two_opcodes_warnings (report_invalid inst s)
            = two_opcodes_warnings s) as Hw.
    { unfold report_invalid. destruct (negb (valid inst)); [|done].
      rewrite two_opcodes_warnings_write. simpl. lia. }
    set (s1 := report_invalid inst s) in *.
    assert (total_count s1 = total_count s) as Ht1
      by (unfold total_count; by rewrite Ht).
    assert (counts_nonneg s1) as Hnn1
      by (unfold counts_nonneg; by rewrite Ht).
    assert (0 <= two_opcodes_warnings s) as Hw0
      by (unfold two_opcodes_warnings; lia).
    destruct (admitted config inst).
    + unfold count.
      destruct (count_impl_counts impl config inst s1)
        as [(Hc1 & Hn1 & He1)|(-> & Ht' & key & o1 & o2 & He')].
      * unfold itv_valid in *. by rewrite Ht, Hi.
      * done.
      * lia.
      * split_and!.
        -- change (total_count (with_inst_count ?n ?x)) with (total_count x).
           change (two_opcodes_warnings (with_inst_count ?n ?x))
             with (two_opcodes_warnings x).
           unfold two_opcodes_warnings in *. rewrite He1. lia.
        -- cbn [inst_count_ with_inst_count].
           rewrite count_impl_inst_count, Hc, Hcnt.
           apply wrap64_small. lia.
        -- exact Hn1.
        -- intros Himpl. specialize (Hjava Himpl).
           change (two_opcodes_warnings (with_inst_count ?n ?x))
             with (two_opcodes_warnings x).
           unfold two_opcodes_warnings in *. rewrite He1. lia.
      * split_and!.
        -- change (total_count (with_inst_count ?n ?x)) with (total_count x).
           change (two_opcodes_warnings (with_inst_count ?n ?x))
             with (two_opcodes_warnings x).
           unfold total_count, two_opcodes_warnings in *.
           rewrite Ht', He', List.filter_app, length_app. simpl.
           lia.
        -- cbn [inst_count_ with_inst_count].
           rewrite count_impl_inst_count, Hc, Hcnt.
           apply wrap64_small. lia.
        -- unfold counts_nonneg in *.
           change (imem_mapvec_ (with_inst_count ?n ?x))
             with (imem_mapvec_ x).
           by rewrite Ht'.
        -- done.
    + split_and!; try done; lia.
Qed.

(** * The cumulative count of the sorted report *)

Lemma wrap64_idem x : wrap64 (wrap64 x) = wrap64 x.
Proof. unfold wrap64. by rewrite Z.mod_mod. Qed.

Lemma wrap64_add_l x y : wrap64 (wrap64 x + y) = wrap64 (x + y).
Proof. unfold wrap64. by rewrite Zplus_mod_idemp_l. Qed.

Lemma print_sorted_items_total block acc :
  wrap64 acc.2 = acc.2 ->
  (fold_left print_sorted_item block acc).2
  = wrap64 (acc.2 + entries_total block).
Proof.
  revert acc. induction block as [|e block IH]; intros acc Hacc.
  - simpl. by rewrite Z.add_0_r.
  - simpl fold_left. rewrite IH by apply wrap64_idem.
    simpl. rewrite wrap64_add_l. f_equal. lia.
Qed.

Lemma print_sorted_blocks_total blocks acc :
  wrap64 acc.2 = acc.2 ->
  (fold_left print_sorted_block blocks acc).2
  = wrap64 (acc.2 + blocks_total blocks).
Proof.
  revert acc. induction blocks as [|blk blocks IH]; intros acc Hacc.
  - simpl. by rewrite Z.add_0_r.
  - simpl fold_left. unfold print_sorted_block at 2.
    rewrite IH.
    + rewrite print_sorted_items_total by done. simpl.
      rewrite wrap64_add_l. f_equal. lia.
    + rewrite print_sorted_items_total by done. apply wrap64_idem.
Qed.

Lemma entries_total_snoc block e :
  entries_total (block ++ [e]) = entries_total block + getCount e.2.
Proof. unfold entries_total. induction block; simpl; lia. Qed.

Lemma entries_total_perm l1 l2 :
  l1 ≡ₚ l2 -> entries_total l1 = entries_total l2.
Proof. unfold entries_total. induction 1; simpl; lia. Qed.

Lemma entries_total_map (m : IMemMap) :
  entries_total (map_begin_end m) = map_total getCount m.
Proof.
  rewrite (entries_total_perm _ (map_to_list m))
    by apply merge_sort_Permutation.
  unfold map_total. rewrite map_fold_foldr. unfold entries_total.
  induction (map_to_list m) as [|[k d] l IH]; simpl; [done|]. by rewrite IH.
Qed.

Lemma blocks_total_emplace k v m :
  blocks_total (multimap_emplace k v m) = entries_total v + blocks_total m.
Proof.
  induction m as [|e m IH]; simpl; [done|].
  destruct (SortedMapKey.lt k e.1); simpl; [done|]. rewrite IH. lia.
Qed.

Lemma blocks_total_reverse blocks :
  blocks_total (reverse blocks) = blocks_total blocks.
Proof.
  assert (forall a b, blocks_total (a ++ b) = blocks_total a + blocks_total b)
    as Happ.
  { intros a b. unfold blocks_total. induction a; simpl; lia. }
  induction blocks as [|blk blocks IH]; [done|].
  rewrite reverse_cons, Happ, IH. simpl. lia.
Qed.

Lemma tables_total_reverse f (tables : list IMemMap) :
  tables_total f (reverse tables) = tables_total f tables.
Proof.
  assert (forall a b, tables_total f (a ++ b)
                      = tables_total f a + tables_total f b) as Happ.
  { intros a b. unfold tables_total. induction a; simpl; lia. }
  induction tables as [|m tables IH]; [done|].
  rewrite reverse_cons, Happ, IH. simpl. lia.
Qed.

(** With sorting on, every entry is put in the open block, and an open
    block is filed in the sorted map when it is closed: the counts in the
    sorted map and the open block are those of the entries seen so far. *)
Lemma print_item_total config b l cur :
  sort_output config = true ->
  blocks_total (sorted_map (print_item config b l cur))
  + entries_total (current_block (print_item config b l cur))
  = blocks_total (sorted_map l) + entries_total (current_block l)
    + getCount cur.2.
Proof.
  intros Hs. unfold print_item. rewrite Hs.
  destruct (first l); simpl.
  - rewrite entries_total_snoc. lia.
  - destruct (negb (wrap64 (prev_pc l + prev_size l) =? cur.1)); simpl.
    + rewrite blocks_total_emplace. lia.
    + rewrite entries_total_snoc. lia.
Qed.

Lemma print_items_total config b entries l :
  sort_output config = true ->
  blocks_total (sorted_map (fold_left (print_item config b) entries l))
  + entries_total (current_block (fold_left (print_item config b) entries l))
  = blocks_total (sorted_map l) + entries_total (current_block l)
    + entries_total entries.
Proof.
  intros Hs. revert l. induction entries as [|e entries IH]; intros l.
  - simpl. lia.
  - simpl fold_left. rewrite IH, (print_item_total config b l e Hs).
    simpl. lia.
Qed.

Lemma print_maps_total config b rv tabs l :
  sort_output config = true ->
  blocks_total (sorted_map (fold_left (print_map config b rv) tabs l))
  + entries_total (current_block (fold_left (print_map config b rv) tabs l))
  = blocks_total (sorted_map l) + entries_total (current_block l)
    + tables_total getCount tabs.
Proof.
  intros Hs. revert l. induction tabs as [|m tabs IH]; intros l.
  - simpl. lia.
  - simpl fold_left. rewrite IH. unfold print_map. cbn zeta.
    cbn [sorted_map current_block].
    rewrite (print_items_total config b _ _ Hs), entries_total_map.
    simpl. lia.
Qed.

Lemma sorted_blocks_total config b s :
  sort_output config = true ->
  blocks_total (sorted_blocks config b s) = total_count s.
Proof.
  intros Hs. unfold sorted_blocks. rewrite blocks_total_reverse.
  pose proof (print_maps_total config b (is_rv64_ s)
                (reverse (imem_mapvec_ s))
                (mkPrintLocals 0 0 1 true 0 [] [] (print_header config)) Hs)
    as Htot.
  fold (print_loops config b s) in Htot.
  rewrite tables_total_reverse in Htot. simpl in Htot.
  unfold print_sorted_map, total_count. rewrite Hs. simpl.
  case_bool_decide as Hcb; simpl.
  - rewrite Hcb in Htot. simpl in Htot. lia.
  - rewrite blocks_total_emplace. lia.
Qed.

(** The assertion at the end of the sorted report compares the sum of all
    counts, as a [uint64_t], with [inst_count_]. *)
Lemma print_assert_spec config b s :
  sort_output config = true ->
  stf_assert_failed_ (print config b s)
  = if bool_decide (sorted_blocks config b s = []) then None
    else if wrap64 (total_count s) =? inst_count_ s then None
         else Some (wrap64 (total_count s), inst_count_ s).
Proof.
  intros Hs. pose proof (sorted_blocks_total config b s Hs) as Htot.
  unfold print. rewrite Hs. cbn zeta.
  destruct (sorted_blocks config b s) as [|blk blocks] eqn:Hb; [done|].
  rewrite bool_decide_false by done. cbn [stf_assert_failed_].
  rewrite print_sorted_blocks_total by done. rewrite Z.add_0_l, Htot. done.
Qed.

(** In a run without mismatch warning, and so in every run of the Java
    variant, the assertion of the sorted report holds. *)
Lemma run_assert_passes impl config rv insts b :
  Z.of_nat (length insts) < 2 ^ 64 ->
  let s := run impl config insts (with_rv64 rv IMemMapVec_init) in
  two_opcodes_warnings s = 0 \/ impl = JavaIMem ->
  stf_assert_failed_ (print config b s) = None.
Proof.
  intros Hlen s Hw.
  destruct (run_count_sum impl config rv insts Hlen)
    as (Hsum & Hcnt & _ & Hjava).
  fold s in Hsum, Hcnt, Hjava.
  assert (two_opcodes_warnings s = 0) as Hw0 by (destruct Hw; auto).
  destruct (sort_output config) eqn:Hs.
  - rewrite print_assert_spec by done. case_bool_decide; [done|].
    pose proof (admitted_count_bound config insts).
    rewrite wrap64_small by lia.
    rewrite (proj2 (Z.eqb_eq _ _)) by lia. done.
  - unfold print. by rewrite Hs.
Qed.

(** * Counters stay below their maximum *)

(** What holds of each entry in a run: the warm-up and run-length counters
    do not exceed the count. *)
Lemma table_step_windows config inst s T :
  counts_nonneg s -> total_count s < 2 ^ 64 - 1 ->
  Forall (map_Forall (fun (_ : Z) d =>
            0 <= getWarmup d <= getCount d
            /\ 0 <= getRunLength d <= getCount d)) (imem_mapvec_ s) ->
  table_step config inst s T ->
  Forall (map_Forall (fun (_ : Z) d =>
            0 <= getWarmup d <= getCount d
            /\ 0 <= getRunLength d <= getCount d)) T.
Proof.
  intros Hnn Hlt Hall [|it m d d' Hm Hk Hop Hc|it m d Hm Hk Hc|d Hc].
  - done.
  - apply Forall_insert; [done|]. apply map_Forall_insert_2.
    + destruct (tables_total_bound getCount _ _ _ _ _ Hnn Hm Hk) as (H0 & Hle).
      pose proof (map_Forall_lookup_1 _ _ _ _
                    (Forall_lookup_1 _ _ _ _ Hall Hm) Hk) as Hd.
      simpl in Hd. destruct Hc as (Hc & _ & Hw & Hr).
      unfold total_count, getWarmup, getRunLength, getCount in *.
      rewrite Hc, Hw, Hr. rewrite (wrap64_small (count_ d + 1)) by lia.
      destruct (inst_count_ s <? warmup_count config);
        [|destruct (inst_count_ s <? runlength_count config)];
        rewrite ?wrap64_small by lia; lia.
    + apply (Forall_lookup_1 _ _ _ _ Hall Hm).
  - apply Forall_insert; [done|]. apply map_Forall_insert_2.
    + destruct Hc as (Hc & _ & Hw & Hr).
      unfold getWarmup, getRunLength, getCount. rewrite Hc, Hw, Hr.
      destruct (inst_count_ s <? warmup_count config); lia.
    + apply (Forall_lookup_1 _ _ _ _ Hall Hm).
  - constructor; [|done]. apply map_Forall_singleton.
    destruct Hc as (Hc & _ & Hw & Hr).
    unfold getWarmup, getRunLength, getCount. rewrite Hc, Hw, Hr.
    destruct (inst_count_ s <? warmup_count config); lia.
Qed.

Lemma run_windows impl config rv insts :
  Z.of_nat (length insts) < 2 ^ 64 ->
  Forall (map_Forall (fun (_ : Z) d =>
            0 <= getWarmup d <= getCount d
            /\ 0 <= getRunLength d <= getCount d))
    (imem_mapvec_ (run impl config insts (with_rv64 rv IMemMapVec_init))).
Proof.
  induction insts as [|inst insts IH] using rev_ind; intros Hlen.
  - constructor; [apply map_Forall_empty|constructor].
  - rewrite length_app in Hlen. simpl in Hlen.
    specialize (IH ltac:(lia)).
    destruct (run_count_sum impl config rv insts ltac:(lia))
      as (Hsum & _ & Hnn & _).
    pose proof (admitted_count_bound config insts) as Hb.
    rewrite run_snoc.
    set (s := run impl config insts (with_rv64 rv IMemMapVec_init)) in *.
    unfold loop_body. destruct (report_invalid_tables inst s) as (Ht & _).
    destruct (admitted config inst); [|by rewrite Ht].
    unfold count.
    change (imem_mapvec_ (with_inst_count ?n ?x)) with (imem_mapvec_ x).
    assert (0 <= two_opcodes_warnings s) by (unfold two_opcodes_warnings; lia).
    eapply (table_step_windows config inst (report_invalid inst s)).
    + unfold counts_nonneg. by rewrite Ht.
    + unfold total_count in *. rewrite Ht. lia.
    + by rewrite Ht.
    + apply count_impl_step.
Qed.

(** In a run of fewer than 2^64 - 1 instructions no warm-up or run-length
    counter reaches [UINT64_MAX]. *)
Lemma run_counters_below_max impl config rv insts :
  Z.of_nat (length insts) < 2 ^ 64 - 1 ->
  counters_below_max (run impl config insts (with_rv64 rv IMemMapVec_init)).
Proof.
  intros Hlen.
  pose proof (run_windows impl config rv insts ltac:(lia)) as Hwin.
  destruct (run_count_sum impl config rv insts ltac:(lia))
    as (Hsum & _ & Hnn & _).
  pose proof (admitted_count_bound config insts) as Hb.
  set (s := run impl config insts (with_rv64 rv IMemMapVec_init)) in *.
  assert (0 <= two_opcodes_warnings s) by (unfold two_opcodes_warnings; lia).
  unfold counters_below_max. apply Forall_lookup. intros it m Hm k d Hk.
  destruct (tables_total_bound getCount _ _ _ _ _ Hnn Hm Hk) as (H0 & Hle).
  pose proof (map_Forall_lookup_1 _ _ _ _
                (Forall_lookup_1 _ _ _ _ Hwin Hm) Hk) as Hd.
  simpl in Hd. unfold total_count in *. lia.
Qed.

(** * The count sum and the assertion of the sorted report *)

(** C1 on the code: a run of the non-Java profiler over two admitted
    events at one PC with different opcodes.  The second event takes the
    warning branch, which counts nothing, while [inst_count_] goes to 2:
    the counts of all entries sum to 1, and [print] with sorting on ends in
    the failed [stf_assert] (cumulative count 1 against 2 instructions).
    Without such a warning, and always in the Java variant, the sum is the
    number of admitted events and the assertion holds ([run_count_sum],
    [run_assert_passes]). *)
Theorem imem_mismatch_breaks_count_sum :
  let config := default_config true in
  let insts := [plain_inst 1 256 19; plain_inst 2 256 51] in
  let s := processTrace_ IMem config false insts IMemMapVec_init in
  Forall (fun inst => admitted config inst = true) insts
  /\ inst_count_ s = 2
  /\ total_count s = 1
  /\ cerr_ s = [DiagTwoOpcodes 256 19 51]
  /\ stf_assert_failed_ (print config false s) = Some (1, 2).
Proof.
  split_and!; try reflexivity. repeat constructor.
Qed.

(** * The theorems at sample runs *)

(** C6's theorem at the state after one event, for a second sighting of
    the same instruction. *)
Lemma warmup_runlength_exclusive_witness :
  let config := default_config false in
  let inst := plain_inst 1 256 19 in
  let s := run IMem config [inst] IMemMapVec_init in
  counters_below_max s
  /\ total_warmup (count_impl IMem config inst s) - total_warmup s = 0
  /\ total_runlength (count_impl IMem config inst s) - total_runlength s = 1.
Proof.
  intros config inst s.
  assert (counters_below_max s) as Hmax.
  { unfold counters_below_max. apply (bool_decide_unpack _).
    vm_compute. exact I. }
  split; [exact Hmax|].
  destruct (warmup_runlength_exclusive IMem config inst s Hmax)
    as [(Hw & Hr)|[(Hw & Hr)|(Hw & Hr)]].
  - vm_compute in Hr. discriminate Hr.
  - vm_compute in Hw. discriminate Hw.
  - split; [exact Hw|exact Hr].
Defined.

(** C3's theorem at states of a Java run, one for each outcome of the
    search. *)
Lemma java_mismatch_search_witness :
  let config := default_config false in
  let s2 := run JavaIMem config [plain_inst 1 256 19; plain_inst 2 256 51]
              IMemMapVec_init in
  let s3 := run JavaIMem config
              [plain_inst 1 256 19; plain_inst 2 256 51; plain_inst 3 512 7]
              IMemMapVec_init in
  itv_ (JavaIMem_count_impl config (plain_inst 4 256 19) s2) = 1%nat
  /\ length (imem_mapvec_ (JavaIMem_count_impl config (plain_inst 4 256 99) s2))
     = 3%nat
  /\ itv_ (JavaIMem_count_impl config (plain_inst 4 512 8) s3) = 1%nat.
Proof.
  intros config s2 s3. split_and!.
  - destruct (java_mismatch_search config (plain_inst 4 256 19) s2
                (IMemData_plain false 51 0 false))
      as (Hfound & _ & _); [reflexivity|reflexivity|].
    destruct (Hfound 1%nat {[256 := IMemData_plain false 19 0 false]}
                (IMemData_plain false 19 0 false))
      as (Hitv & _);
      [reflexivity|reflexivity|reflexivity| |exact Hitv].
    intros [|i] m d Hi Hm Hd; [|lia].
    vm_compute in Hm. inversion Hm; subst m.
    vm_compute in Hd. inversion Hd; subst d. reflexivity.
  - destruct (java_mismatch_search config (plain_inst 4 256 99) s2
                (IMemData_plain false 51 0 false))
      as (_ & Hall & _); [reflexivity|reflexivity|].
    destruct Hall as (_ & Htab); [|by rewrite Htab].
    intros [|[|i]] m Hm; vm_compute in Hm; inversion Hm; subst m;
      eexists; (split; [vm_compute; reflexivity|reflexivity]).
  - destruct (java_mismatch_search config (plain_inst 4 512 8) s3
                (IMemData_plain false 7 0 false))
      as (_ & _ & Hlast); [reflexivity|reflexivity|].
    destruct (Hlast 1%nat {[256 := IMemData_plain false 19 0 false]})
      as (Hitv & _); [|reflexivity|reflexivity| |exact Hitv].
    + intros [|[|i]] m d _ Hm Hd; vm_compute in Hm; inversion Hm; subst m.
      * destruct (decide (pc (plain_inst 4 512 8) = 512)) as [_|Hne];
          [|by destruct Hne].
        vm_compute in Hd. inversion Hd; subst d. reflexivity.
      * vm_compute in Hd. discriminate Hd.
    + intros [|[|i]] m Hi Hm; [lia|lia|]. vm_compute in Hm. inversion Hm.
Defined.

(** C10's theorem at a run of three sightings of one instruction, taken,
    not taken, taken: marked as a branch, two slots of history, both 1. *)
Lemma never_taken_no_history_witness :
  let config := default_config false in
  let insts := [taken_branch_inst 1 256 99; plain_inst 2 256 99;
                taken_branch_inst 3 256 99] in
  let s := run IMem config insts IMemMapVec_init in
  exists d, find_at (itv_ s) 256 s = Some d
            /\ isBranch d = true /\ getBranchLhr d = 3
            /\ branch_lhr_idx_ d = 2%nat.
Proof.
  intros config insts s.
  destruct (find_at (itv_ s) 256 s) as [d|] eqn:Hd; [|discriminate Hd].
  destruct (never_taken_no_history config false insts 256 d Hd)
    as (Hbr & Hlhr & Hidx).
  exists d. split; [reflexivity|].
  assert (getOpcode d = 99) as Hop by (by inversion Hd).
  rewrite Hop in Hbr, Hlhr, Hidx.
  split; [|split].
  - apply Hbr. vm_compute. lia.
  - exact Hlhr.
  - exact Hidx.
Defined.

(** * What [processTrace_] returns *)

Lemma take_length_le {A} (k : nat) (l : list A) :
  Z.of_nat (length (take k l)) <= Z.of_nat (length l).
Proof. rewrite length_take. lia. Qed.

(** The counts of all entries and the mismatch warnings written add up to
    [inst_count_] in the state [processTrace_] returns, for a trace of
    fewer than 2^64 events; with the Java variant the counts alone do. *)
Theorem processTrace_counts_add_up (impl : ImplType) (config : STFImemConfig)
    (rv : bool) (insts : list STFInst) :
  Z.of_nat (length insts) < 2 ^ 64 ->
  let s := processTrace_ impl config rv insts IMemMapVec_init in
  total_count s + two_opcodes_warnings s = inst_count_ s
  /\ (impl = JavaIMem -> total_count s = inst_count_ s).
Proof.
  intros Hlen s. unfold s.
  destruct (processTrace_run impl config rv insts) as (k & ->).
  pose proof (take_length_le k insts) as Hk.
  destruct (run_count_sum impl config rv (take k insts) ltac:(lia))
    as (Hsum & Hcnt & _ & Hjava).
  split; [lia|]. intros Himpl. specialize (Hjava Himpl). lia.
Qed.

(** [itv_] designates a table of [imem_mapvec_] in the state
    [processTrace_] returns, and the non-Java profiler still has the one
    table it started with. *)
Theorem processTrace_itv_in_range (impl : ImplType) (config : STFImemConfig)
    (rv : bool) (insts : list STFInst) :
  let s := processTrace_ impl config rv insts IMemMapVec_init in
  (itv_ s < length (imem_mapvec_ s))%nat
  /\ (impl = IMem -> length (imem_mapvec_ s) = 1%nat /\ itv_ s = 0%nat).
Proof.
  intros s. unfold s.
  destruct (processTrace_run impl config rv insts) as (k & ->).
  split; [apply run_itv_valid|]. intros ->.
  destruct (IMem_branch_inv_run config rv (take k insts))
    as (m & -> & -> & _).
  done.
Qed.

Lemma admitted_count_cons config inst insts :
  admitted_count config (inst :: insts)
  = (if admitted config inst then 1 else 0) + admitted_count config insts.
Proof.
  unfold admitted_count. simpl.
  destruct (admitted config inst); simpl; lia.
Qed.

Lemma processTrace_loop_inst_count impl config insts s :
  0 <= inst_count_ s ->
  inst_count_ s + Z.of_nat (length insts) < 2 ^ 64 ->
  inst_count_ (processTrace_loop impl config insts s)
  = Z.min (inst_count_ s + admitted_count config insts)
      (Z.max (inst_count_ s + 1) (keep_count config)).
Proof.
  revert s. induction insts as [|inst insts IH]; intros s H0 Hlen.
  - cbn [processTrace_loop]. unfold admitted_count. simpl. lia.
  - cbn [processTrace_loop]. cbn zeta. rewrite admitted_count_cons.
    pose proof (admitted_count_bound config insts) as Hb.
    destruct (report_invalid_tables inst s) as (_ & _ & Hc).
    simpl length in Hlen.
    destruct (admitted config inst).
    + assert (inst_count_ (count impl config inst (report_invalid inst s))
              = inst_count_ s + 1) as Hn.
      { unfold count. cbn [inst_count_ with_inst_count].
        rewrite count_impl_inst_count, Hc. apply wrap64_small. lia. }
      rewrite Hn.
      destruct (keep_count config <=? inst_count_ s + 1) eqn:Hkeep.
      * rewrite Hn. lia.
      * rewrite IH by lia. rewrite Hn. lia.
    + rewrite IH by lia. rewrite Hc. lia.
Qed.

(** [keep_count] caps the number of events counted: [processTrace_] counts
    the admitted events of the trace up to [keep_count] of them, and one
    when [keep_count] is 0 (the bound is tested after the event has been
    counted). *)
Theorem processTrace_keep_count (impl : ImplType) (config : STFImemConfig)
    (rv : bool) (insts : list STFInst) :
  Z.of_nat (length insts) < 2 ^ 64 ->
  inst_count_ (processTrace_ impl config rv insts IMemMapVec_init)
  = Z.min (admitted_count config insts) (Z.max 1 (keep_count config)).
Proof.
  intros Hlen. unfold processTrace_.
  rewrite processTrace_loop_inst_count; simpl; lia.
Qed.

(** * Filtered events and the diagnostic stream *)

(** [count_impl] reads nothing from the diagnostic stream. *)
Lemma count_impl_footprint impl config inst s1 s2 :
  footprint s1 = footprint s2 ->
  footprint (count_impl impl config inst s1)
  = footprint (count_impl impl config inst s2).
Proof.
  destruct s1 as [T i n rv mc mw mr c1], s2 as [T2 i2 n2 rv2 mc2 mw2 mr2 c2].
  intros H. unfold footprint in H. simpl in H.
  injection H as <- <- <- <- <- <- <-.
  destruct impl; simpl.
  - unfold footprint, IMem_count_impl, find_at, table_at. simpl.
    destruct (default ∅ (T !! i) !! pc inst) as [d|]; [|by repeat case_match].
    destruct (opcodeMatch d (opcode inst)); [|done].
    unfold count_found, incCount_, incWarmup_, incRunLength_. simpl.
    by repeat case_match.
  - assert (forall c,
              footprint (JavaIMem_other_maps config inst
                           (mkIMemMapVec T i n rv mc mw mr c))
              = footprint (JavaIMem_other_maps config inst
                           (mkIMemMapVec T i n rv mc mw mr []))) as Hother.
    { intros c. unfold footprint, JavaIMem_other_maps, find_at, table_at.
      simpl.
      destruct (java_search (pc inst) (opcode inst) T 0 None)
        as [[[j d]|] [t|]]; cbn zeta.
      - unfold count_found, incCount_, incWarmup_, incRunLength_. simpl.
        by repeat case_match.
      - unfold count_found, incCount_, incWarmup_, incRunLength_. simpl.
        by repeat case_match.
      - by case_bool_decide.
      - done. }
    unfold JavaIMem_count_impl, find_at, table_at. simpl.
    destruct (default ∅ (T !! i) !! pc inst) as [d|];
      [|by rewrite (Hother c1), (Hother c2)].
    destruct (opcodeMatch d (opcode inst));
      [|by rewrite (Hother c1), (Hother c2)].
    unfold footprint, count_found, incCount_, incWarmup_, incRunLength_.
    simpl. by repeat case_match.
Qed.

Lemma footprint_with_inst_count n s1 s2 :
  footprint s1 = footprint s2 ->
  footprint (with_inst_count n s1) = footprint (with_inst_count n s2).
Proof. unfold footprint. simpl. by intros [= -> -> _ -> -> -> ->]. Qed.

Lemma footprint_inst_count s1 s2 :
  footprint s1 = footprint s2 -> inst_count_ s1 = inst_count_ s2.
Proof. unfold footprint. by intros [= _ _ -> _ _ _ _]. Qed.

Lemma footprint_report_invalid inst s :
  footprint (report_invalid inst s) = footprint s.
Proof. unfold report_invalid. by destruct (negb (valid inst)). Qed.

Lemma count_footprint impl config inst s1 s2 :
  footprint s1 = footprint s2 ->
  footprint (count impl config inst s1) = footprint (count impl config inst s2).
Proof.
  intros H. unfold count. cbn zeta.
  pose proof (count_impl_footprint impl config inst s1 s2 H) as H'.
  rewrite (footprint_inst_count _ _ H').
  by apply footprint_with_inst_count.
Qed.

Lemma processTrace_loop_footprint impl config insts s1 s2 :
  footprint s1 = footprint s2 ->
  footprint (processTrace_loop impl config insts s1)
  = footprint (processTrace_loop impl config
                 (List.filter (admitted config) insts) s2).
Proof.
  revert s1 s2. induction insts as [|inst insts IH]; intros s1 s2 H.
  - done.
  - cbn [processTrace_loop List.filter]. cbn zeta.
    destruct (admitted config inst) eqn:Hadm.
    + cbn [processTrace_loop]. cbn zeta. rewrite Hadm.
      assert (footprint (count impl config inst (report_invalid inst s1))
              = footprint (count impl config inst (report_invalid inst s2)))
        as Hc.
      { apply count_footprint. by rewrite !footprint_report_invalid. }
      rewrite (footprint_inst_count _ _ Hc).
      destruct (keep_count config
                <=? inst_count_ (count impl config inst
                                   (report_invalid inst s2))); [done|].
      by apply IH.
    + apply IH. by rewrite footprint_report_invalid.
Qed.

(** Events of another hardware thread, process or thread than the ones
    selected, and faulting events, leave no trace in the footprint:
    [processTrace_] ends with the same tables, active table, instruction
    count and maxima on a trace and on the trace without them. *)
Theorem processTrace_ignores_filtered (impl : ImplType)
    (config : STFImemConfig) (rv : bool) (insts : list STFInst)
    (s : IMemMapVec) :
  footprint (processTrace_ impl config rv insts s)
  = footprint (processTrace_ impl config rv
                 (List.filter (admitted config) insts) s).
Proof. by apply processTrace_loop_footprint. Qed.

Lemma count_impl_cerr impl config inst s :
  List.filter (fun l => negb (is_two_opcodes l))
    (cerr_ (count_impl impl config inst s))
  = List.filter (fun l => negb (is_two_opcodes l)) (cerr_ s).
Proof.
  destruct impl; simpl; [|by rewrite JavaIMem_count_impl_cerr].
  unfold IMem_count_impl.
  destruct (find_at (itv_ s) (pc inst) s) as [d|].
  - destruct (opcodeMatch d (opcode inst)).
    + cbn zeta.
      destruct (count_found_tables config
                  (inst_count_ s <? warmup_count config) s d)
        as (_ & _ & Hc & _).
      destruct (isLoad inst || isStore inst);
        [|destruct (isTakenBranch inst)]; simpl; by rewrite Hc.
    + simpl. rewrite List.filter_app. simpl. by rewrite app_nil_r.
  - by destruct (isLoad inst || isStore inst);
      [|destruct (isTakenBranch inst)].
Qed.

(** Over the loop without its [break], every invalid instruction is
    reported, in order, whether or not the event is then filtered out. *)
Lemma run_cerr_invalid (impl : ImplType) (config : STFImemConfig)
    (rv : bool) (insts : list STFInst) :
  let s := run impl config insts (with_rv64 rv IMemMapVec_init) in
  List.filter (fun l => negb (is_two_opcodes l)) (cerr_ s)
    = invalid_reports insts
  /\ (impl = JavaIMem -> cerr_ s = invalid_reports insts).
Proof.
  cbn zeta.
  assert (List.filter (fun l => negb (is_two_opcodes l))
            (cerr_ (run impl config insts (with_rv64 rv IMemMapVec_init)))
          = invalid_reports insts) as Hf.
  { induction insts as [|inst insts IH] using rev_ind; [done|].
    rewrite run_snoc. unfold loop_body, invalid_reports.
    rewrite List.filter_app, fmap_app. fold (invalid_reports insts).
    rewrite <- IH.
    set (s := run impl config insts (with_rv64 rv IMemMapVec_init)).
    assert (List.filter (fun l => negb (is_two_opcodes l))
              (cerr_ (report_invalid inst s))
            = List.filter (fun l => negb (is_two_opcodes l)) (cerr_ s)
              ++ ((fun e => DiagInvalidInst (index e) (opcode e) (pc e))
                    <$> List.filter (fun e => negb (valid e)) [inst]))
      as Hr.
    { unfold report_invalid. simpl.
      destruct (negb (valid inst)); simpl.
      - by rewrite List.filter_app.
      - by rewrite app_nil_r. }
    destruct (admitted config inst); [|exact Hr].
    unfold count. cbn zeta.
    change (cerr_ (with_inst_count ?n ?x)) with (cerr_ x).
    by rewrite count_impl_cerr. }
  split; [exact Hf|]. intros ->. clear Hf.
  induction insts as [|inst insts IH] using rev_ind; [done|].
  rewrite run_snoc. unfold loop_body, invalid_reports.
  rewrite List.filter_app, fmap_app. fold (invalid_reports insts).
  rewrite <- IH.
  set (s := run JavaIMem config insts (with_rv64 rv IMemMapVec_init)).
  assert (cerr_ (report_invalid inst s)
          = cerr_ s
            ++ ((fun e => DiagInvalidInst (index e) (opcode e) (pc e))
                  <$> List.filter (fun e => negb (valid e)) [inst]))
    as Hr.
  { unfold report_invalid. simpl.
    destruct (negb (valid inst)); simpl; [done|by rewrite app_nil_r]. }
  destruct (admitted config inst); [|exact Hr].
  unfold count. cbn zeta.
  change (cerr_ (with_inst_count ?n ?x)) with (cerr_ x).
  simpl. by rewrite JavaIMem_count_impl_cerr.
Qed.

(** The loop with its [break] is the loop without it on the events it
    reads. *)
Lemma processTrace_loop_reached impl config insts s :
  processTrace_loop impl config insts s
  = run impl config (reached config (inst_count_ s) insts) s.
Proof.
  revert s. induction insts as [|inst insts IH]; intros s; [done|].
  cbn [processTrace_loop reached]. cbn zeta.
  assert (inst_count_ (report_invalid inst s) = inst_count_ s) as Hri.
  { unfold report_invalid. by destruct (negb (valid inst)). }
  assert (inst_count_ (count impl config inst (report_invalid inst s))
          = wrap64 (inst_count_ s + 1)) as Hc.
  { unfold count. simpl. by rewrite count_impl_inst_count, Hri. }
  destruct (admitted config inst) eqn:Hadm.
  - rewrite Hc.
    destruct (keep_count config <=? wrap64 (inst_count_ s + 1)).
    + unfold run. cbn [fold_left]. unfold loop_body. cbn zeta.
      by rewrite Hadm.
    + rewrite IH, Hc. unfold run. cbn [fold_left].
      unfold loop_body at 3. cbn zeta. by rewrite Hadm.
  - rewrite IH, Hri. unfold run. cbn [fold_left].
    unfold loop_body at 3. cbn zeta. by rewrite Hadm.
Qed.

Lemma reached_prefix config n insts :
  exists k, reached config n insts = take k insts.
Proof.
  revert n. induction insts as [|inst insts IH]; intros n.
  - by exists 0%nat.
  - cbn [reached]. destruct (admitted config inst).
    + destruct (keep_count config <=? wrap64 (n + 1)).
      * by exists 1%nat.
      * destruct (IH (wrap64 (n + 1))) as (k & ->). by exists (S k).
    + destruct (IH n) as (k & ->). by exists (S k).
Qed.

(** Without the [break] the loop reads the whole sequence. *)
Lemma reached_all config n insts :
  0 <= n ->
  n + Z.of_nat (length insts) < 2 ^ 64 ->
  n + admitted_count config insts < keep_count config ->
  reached config n insts = insts.
Proof.
  revert n. induction insts as [|inst insts IH]; intros n Hn Hlen Hk;
    [done|].
  cbn [reached]. rewrite admitted_count_cons in Hk.
  cbn [length] in Hlen.
  pose proof (admitted_count_bound config insts) as Hb.
  destruct (admitted config inst).
  - rewrite wrap64_small by lia.
    destruct (keep_count config <=? n + 1) eqn:Hkeep; [lia|].
    f_equal. apply IH; lia.
  - f_equal. apply IH; lia.
Qed.

(** When the loop leaves by its [break], the last event it read is an
    admitted one. *)
Lemma reached_stops config n insts :
  reached config n insts <> insts ->
  exists e, last (reached config n insts) = Some e
            /\ admitted config e = true.
Proof.
  revert n. induction insts as [|inst insts IH]; intros n; [done|].
  cbn [reached]. destruct (admitted config inst) eqn:Hadm.
  - destruct (keep_count config <=? wrap64 (n + 1)).
    + intros _. by exists inst.
    + intros Hne. destruct (IH (wrap64 (n + 1))) as (e & He & Ha);
        [congruence|].
      exists e. split; [|done].
      destruct (reached config (wrap64 (n + 1)) insts); [done|].
      by rewrite last_cons, He.
  - intros Hne. destruct (IH n) as (e & He & Ha); [congruence|].
    exists e. split; [|done].
    destruct (reached config n insts); [done|].
    by rewrite last_cons, He.
Qed.

(** Every invalid instruction among the events the loop of [processTrace_]
    reads is reported, in trace order, whether or not the event is then
    filtered out; apart from the opcode mismatch warnings of the non-Java
    profiler nothing else is written to the diagnostic stream, and the
    Java variant writes only these reports.  The events read are a prefix
    of the sequence: all of it when fewer than [keep_count] events are
    admitted, and otherwise they end with the admitted event at which the
    loop leaves, so that an invalid instruction after it is not
    reported. *)
Theorem processTrace_reports_invalid (impl : ImplType)
    (config : STFImemConfig) (rv : bool) (insts : list STFInst) :
  let s := processTrace_ impl config rv insts IMemMapVec_init in
  let read := reached config 0 insts in
  List.filter (fun l => negb (is_two_opcodes l)) (cerr_ s)
    = invalid_reports read
  /\ (impl = JavaIMem -> cerr_ s = invalid_reports read)
  /\ (exists k, read = take k insts)
  /\ (Z.of_nat (length insts) < 2 ^ 64 ->
      admitted_count config insts < keep_count config -> read = insts)
  /\ (read <> insts ->
      exists e, last read = Some e /\ admitted config e = true).
Proof.
  intros s read.
  assert (s = run impl config read (with_rv64 rv IMemMapVec_init)) as ->.
  { unfold s, processTrace_. by rewrite processTrace_loop_reached. }
  destruct (run_cerr_invalid impl config rv read) as (Hf & Hj).
  split_and!.
  - exact Hf.
  - exact Hj.
  - apply reached_prefix.
  - intros Hlen Hk. apply reached_all; [done|lia|lia].
  - apply reached_stops.
Qed.

(** * What each entry counts *)

Lemma insert_at_tables it key d s m :
  imem_mapvec_ s !! it = Some m -> m !! key = None ->
  imem_mapvec_ (insert_at it key d s)
  = <[it := <[key := d]> m]> (imem_mapvec_ s).
Proof.
  intros Hm Hk. unfold insert_at. simpl.
  rewrite (alter_as_insert _ _ _ _ Hm). unfold map_insert. by rewrite Hk.
Qed.

Lemma store_at_tables it key d s s1 m :
  imem_mapvec_ s1 = imem_mapvec_ s ->
  imem_mapvec_ s !! it = Some m ->
  imem_mapvec_ (store_at it key d s1)
  = <[it := <[key := d]> m]> (imem_mapvec_ s).
Proof.
  intros Hs Hm. unfold store_at. simpl. rewrite Hs.
  by rewrite (alter_as_insert _ _ _ _ Hm).
Qed.

Lemma opcodeMatch_false_no_pair tables key opc :
  (forall i m d, tables !! i = Some m -> m !! key = Some d ->
     opcodeMatch d opc = false) ->
  ~ has_pair tables key opc.
Proof.
  intros Hno (i & m & d & Hm & Hk & Hop).
  specialize (Hno i m d Hm Hk). unfold opcodeMatch, getOpcode in *. lia.
Qed.

Lemma count_found_max config w s d :
  max_count_ (count_found config w (s, d)).1
  = Z.max (max_count_ s) (getCount (count_found config w (s, d)).2).
Proof.
  unfold count_found. destruct w; simpl; [done|].
  by destruct (inst_count_ s <? runlength_count config).
Qed.

Lemma count_cases_store impl config inst s s1 it it' m d d' :
  imem_mapvec_ s1 = imem_mapvec_ s ->
  max_count_ s1 = Z.max (max_count_ s) (getCount d') ->
  imem_mapvec_ s !! it = Some m -> m !! pc inst = Some d ->
  opcodeMatch d (opcode inst) = true ->
  entry_counted config s d d' ->
  count_cases impl config inst s
    (with_itv it' (store_at it (pc inst) d' s1)).
Proof.
  intros Hs Hmax Hm Hk Hop Hc. left. exists it, m, d, d'.
  split_and!; try done.
  change (imem_mapvec_ (with_itv ?i ?x)) with (imem_mapvec_ x).
  by apply store_at_tables.
Qed.

Lemma with_itv_same s : with_itv (itv_ s) s = s.
Proof. by destruct s. Qed.

Lemma count_cases_insert impl config inst s s1 it m d :
  imem_mapvec_ s1 = imem_mapvec_ s -> max_count_ s1 = max_count_ s ->
  imem_mapvec_ s !! it = Some m -> m !! pc inst = None ->
  entry_created config inst s d ->
  (impl = IMem -> it = itv_ s) ->
  (impl = JavaIMem -> ~ has_pair (imem_mapvec_ s) (pc inst) (opcode inst)) ->
  count_cases impl config inst s (insert_at it (pc inst) d s1).
Proof.
  intros Hs Hmax Hm Hk Hc Hi Hj. right; left. exists it, m, d.
  split_and!; try done.
  rewrite <- Hs in Hm. rewrite <- Hs. by apply insert_at_tables.
Qed.

Lemma JavaIMem_other_maps_cases config inst s :
  itv_valid s ->
  count_cases JavaIMem config inst s (JavaIMem_other_maps config inst s).
Proof.
  intros Hv. unfold JavaIMem_other_maps.
  destruct (java_search (pc inst) (opcode inst) (imem_mapvec_ s) 0 None)
    as [[[j d]|] itt] eqn:Hs.
  - apply java_search_found in Hs as (t & m & -> & Hm & Hk & Hop & _).
    cbn zeta. simpl.
    eapply count_cases_store;
      [apply count_found_tables|apply count_found_max|exact Hm|exact Hk
      |exact Hop|apply count_found_counted].
  - apply java_search_none in Hs as (Hno & Hitt).
    apply opcodeMatch_false_no_pair in Hno.
    destruct Hitt as [(-> & Hall)|(t & m & -> & Ht & Hnone & _)].
    + right; right; left. eexists. split_and!;
        [apply entry_created_new| |done|done|done].
      cbn zeta. unfold insert_at. simpl. by rewrite map_insert_empty.
    + cbn zeta. simpl. case_bool_decide as Hcur.
      * apply (count_cases_insert JavaIMem config inst s _ t m);
          try done; apply entry_created_new.
      * assert (find_at (itv_ s) (pc inst) s = None) as Hf.
        { destruct (find_at (itv_ s) (pc inst) s) eqn:E; [|done].
          exfalso. apply Hcur. eauto. }
        destruct (find_at_None _ _ _ Hv Hf) as (m0 & Hm0 & Hk0).
        apply (count_cases_insert JavaIMem config inst s _ (itv_ s) m0);
          try done; apply entry_created_new.
Qed.

Lemma count_impl_cases impl config inst s :
  itv_valid s ->
  count_cases impl config inst s (count_impl impl config inst s).
Proof.
  intros Hv. destruct impl; simpl.
  - unfold IMem_count_impl.
    destruct (find_at (itv_ s) (pc inst) s) as [d|] eqn:Hcur.
    + apply find_at_Some in Hcur as (m & Hm & Hk).
      destruct (opcodeMatch d (opcode inst)) eqn:Hop.
      * cbn zeta.
        destruct (isLoad inst || isStore inst);
          [|destruct (isTakenBranch inst)];
          simpl;
          match goal with
          | |- count_cases _ _ _ _ ?x => rewrite <- (with_itv_same x)
          end;
          (eapply count_cases_store;
             [apply count_found_tables|apply count_found_max|exact Hm
             |exact Hk|exact Hop|apply count_found_counted]).
      * right; right; right. split_and!; [done|done|done|]. eauto.
    + destruct (find_at_None _ _ _ Hv Hcur) as (m & Hm & Hk).
      destruct (isLoad inst || isStore inst);
        [|destruct (isTakenBranch inst)];
        (apply (count_cases_insert IMem config inst s _ (itv_ s) m);
           try done; apply entry_created_new).
  - unfold JavaIMem_count_impl.
    destruct (find_at (itv_ s) (pc inst) s) as [d|] eqn:Hcur;
      [|by apply JavaIMem_other_maps_cases].
    destruct (opcodeMatch d (opcode inst)) eqn:Hop;
      [|by apply JavaIMem_other_maps_cases].
    apply find_at_Some in Hcur as (m & Hm & Hk).
    simpl.
    match goal with
    | |- count_cases _ _ _ _ ?x => rewrite <- (with_itv_same x)
    end.
    eapply count_cases_store;
      [apply count_found_tables|apply count_found_max|exact Hm|exact Hk
      |exact Hop|apply count_found_counted].
Qed.

Lemma occurrences_snoc config key opc insts inst :
  occurrences config key opc (insts ++ [inst])
  = occurrences config key opc insts
    + (if counts_event config key opc inst then 1 else 0).
Proof.
  unfold occurrences. rewrite List.filter_app, length_app. simpl.
  destruct (counts_event config key opc inst); simpl; lia.
Qed.

Lemma occurrences_bound config key opc insts :
  0 <= occurrences config key opc insts <= Z.of_nat (length insts).
Proof.
  unfold occurrences. split; [lia|].
  apply inj_le. apply List.filter_length_le.
Qed.

Lemma counts_event_admitted config key opc inst :
  admitted config inst = true ->
  counts_event config key opc inst = true
  <-> pc inst = key /\ opcode inst = opc.
Proof. intros Ha. unfold counts_event. rewrite Ha. simpl. lia. Qed.

Lemma entry_at_insert T it m key d i k x :
  T !! it = Some m ->
  entry_at (<[it := <[key := d]> m]> T) i k x
  <-> (i = it /\ k = key /\ x = d)
      \/ ((i <> it \/ k <> key) /\ entry_at T i k x).
Proof.
  intros Hm. unfold entry_at.
  pose proof (lookup_lt_Some _ _ _ Hm) as Hlt.
  destruct (decide (i = it)) as [->|Hne].
  - rewrite list_lookup_insert_eq by done.
    destruct (decide (k = key)) as [->|Hk].
    + split.
      * intros (m' & [= <-] & Hx). rewrite lookup_insert_eq in Hx.
        left. by inversion Hx.
      * intros [(_ & _ & ->)|([|] & _)]; [|done|done].
        eexists. split; [done|]. by rewrite lookup_insert_eq.
    + split.
      * intros (m' & [= <-] & Hx). rewrite lookup_insert_ne in Hx by done.
        right. eauto.
      * intros [(_ & -> & _)|(_ & m' & Hm' & Hx)]; [done|].
        eexists. split; [done|]. rewrite lookup_insert_ne by done.
        congruence.
  - rewrite list_lookup_insert_ne by done. split.
    + intros H. right. split; [by left|done].
    + intros [(? & _)|(_ & H)]; done.
Qed.

Lemma entry_at_cons m0 T i k x :
  entry_at (m0 :: T) i k x
  <-> (i = 0%nat /\ m0 !! k = Some x)
      \/ exists i0, i = S i0 /\ entry_at T i0 k x.
Proof.
  unfold entry_at. destruct i as [|i]; simpl.
  - split.
    + intros (m & [= <-] & Hx). by left.
    + intros [(_ & Hx)|(i0 & Hi & _)]; [eauto|done].
  - split.
    + intros H. right. eauto.
    + intros [(Hi & _)|(i0 & [= ->] & H)]; [done|done].
Qed.

Lemma has_pair_entry tables key opc :
  has_pair tables key opc
  <-> exists i d, entry_at tables i key d /\ getOpcode d = opc.
Proof.
  unfold has_pair, entry_at. split.
  - intros (i & m & d & Hm & Hd & Ho). exists i, d. eauto.
  - intros (i & d & (m & Hm & Hd) & Ho). exists i, m, d. eauto.
Qed.

(** One admitted event keeps the entries exact. *)
Lemma counts_exact_step impl config insts inst s s' :
  admitted config inst = true ->
  Z.of_nat (length insts) < 2 ^ 64 - 1 ->
  (impl = IMem -> exists m, imem_mapvec_ s = [m] /\ itv_ s = 0%nat) ->
  count_cases impl config inst s s' ->
  counts_exact config insts (imem_mapvec_ s) ->
  seen_pairs impl config insts (imem_mapvec_ s) ->
  counts_exact config (insts ++ [inst]) (imem_mapvec_ s')
  /\ seen_pairs impl config (insts ++ [inst]) (imem_mapvec_ s').
Proof.
  intros Hadm Hlen Hone Hcases (Hcnt & Huniq) Hseen.
  set (T := imem_mapvec_ s) in *.
  assert (forall k o, occurrences config k o (insts ++ [inst])
                      = occurrences config k o insts
                        + (if bool_decide (pc inst = k /\ opcode inst = o)
                           then 1 else 0)) as Hocc.
  { intros k o. rewrite occurrences_snoc.
    pose proof (counts_event_admitted config k o inst Hadm) as Hev.
    case_bool_decide as Hd; destruct (counts_event config k o inst);
      try done.
    - by apply Hev in Hd.
    - exfalso. apply Hd. by apply Hev. }
  assert (forall k o, 0 <= occurrences config k o insts < 2 ^ 64 - 1) as Hb.
  { intros k o. pose proof (occurrences_bound config k o insts). lia. }
  (* creation: no entry for this PC and opcode before *)
  assert (forall it m, T !! it = Some m -> m !! pc inst = None ->
            (impl = IMem -> it = itv_ s) ->
            (impl = JavaIMem -> ~ has_pair T (pc inst) (opcode inst)) ->
            ~ has_pair T (pc inst) (opcode inst)) as Hnopair.
  { intros it m Hm Hk Hi Hj. destruct impl; [|by apply Hj].
    destruct (Hone eq_refl) as (m0 & HT & Hitv).
    rewrite (Hi eq_refl), Hitv in Hm. fold T in HT. rewrite HT in *.
    simpl in Hm. inversion Hm; subst m0.
    intros (i & mi & d & Hmi & Hd & _).
    destruct i; simpl in Hmi; [|done]. congruence. }
  assert (~ has_pair T (pc inst) (opcode inst) ->
          (impl = IMem -> forall i d, ~ entry_at T i (pc inst) d) ->
          occurrences config (pc inst) (opcode inst) insts = 0) as Hfresh.
  { intros Hno Himem.
    destruct (decide (0 < occurrences config (pc inst) (opcode inst) insts))
      as [Hpos|]; [|pose proof (Hb (pc inst) (opcode inst)); lia].
    specialize (Hseen _ _ Hpos). destruct impl; [|done].
    destruct Hseen as (i & d & He). by destruct (Himem eq_refl i d). }
  unfold count_cases in Hcases. cbn zeta in Hcases. fold T in Hcases.
  destruct Hcases as [(it & m & d & d' & Hm & Hk & Hop & Hc & -> & _)
                     |[(it & m & d & Hm & Hk & Hc & -> & _ & Hi & Hj)
                      |[(d & Hc & -> & _ & Himpl & Hno)
                       |(-> & -> & _ & m & d & Hm & Hk & Hop)]]].
  - (* counted in its entry *)
    destruct Hc as (Hc & Ho & _).
    assert (entry_at T it (pc inst) d) as Hd by (exists m; done).
    destruct (Hcnt _ _ _ Hd) as (Hcd & Hpos).
    assert (getOpcode d = opcode inst) as Hod
      by (unfold opcodeMatch, getOpcode in *; lia).
    assert (getCount d' = getCount d + 1) as Hc'.
    { unfold getCount. rewrite Hc. apply wrap64_small.
      pose proof (Hb (pc inst) (getOpcode d)). unfold getCount in *. lia. }
    assert (getOpcode d' = opcode inst) as Hod' by (unfold getOpcode in *; congruence).
    assert (forall i k x,
              entry_at (<[it := <[pc inst := d']> m]> T) i k x ->
              exists x0, entry_at T i k x0 /\ getOpcode x0 = getOpcode x)
      as Hback.
    { intros i k x [(-> & -> & ->)|(_ & He)]%(entry_at_insert _ _ _ _ _ _ _ _ Hm).
      - exists d. split; [done|congruence].
      - eauto. }
    assert (forall i k x, entry_at T i k x ->
              exists x', entry_at (<[it := <[pc inst := d']> m]> T) i k x'
                         /\ getOpcode x' = getOpcode x) as Hfwd.
    { intros i k x He.
      destruct (decide (i = it /\ k = pc inst)) as [(-> & ->)|Hne].
      - exists d'. split; [apply (entry_at_insert _ _ _ _ _ _ _ _ Hm); by left|].
        destruct He as (m' & Hm' & Hx), Hd as (m'' & Hm'' & Hx'').
        congruence.
      - exists x. split; [|done].
        apply (entry_at_insert _ _ _ _ _ _ _ _ Hm). right.
        split; [|done]. destruct (decide (i = it)) as [->|]; [|by left].
        right. intros ->. by apply Hne. }
    split; [split|].
    + intros i k x [(-> & -> & ->)|(Hne & He)]%(entry_at_insert _ _ _ _ _ _ _ _ Hm).
      * rewrite Hocc, Hod', bool_decide_true by done.
        rewrite Hc', Hcd, Hod.
        pose proof (Hb (pc inst) (opcode inst)). lia.
      * destruct (Hcnt _ _ _ He) as (Hcx & Hpx).
        rewrite Hocc. rewrite bool_decide_false; [lia|].
        intros (<- & Hox).
        assert (i = it)
          by (apply (Huniq i it (pc inst) x d); [done|done|congruence]).
        by destruct Hne.
    + intros i j k di dj Hei Hej Heq.
      destruct (Hback _ _ _ Hei) as (xi & Hxi & Hoi).
      destruct (Hback _ _ _ Hej) as (xj & Hxj & Hoj).
      apply (Huniq i j k xi xj); [done|done|congruence].
    + intros k o Hko. rewrite Hocc in Hko.
      assert (exists i x, entry_at (<[it := <[pc inst := d']> m]> T) i k x
                          /\ (impl = JavaIMem -> getOpcode x = o)) as Hex.
      { case_bool_decide as Hev.
        - destruct Hev as (<- & <-). exists it, d'.
          split; [apply (entry_at_insert _ _ _ _ _ _ _ _ Hm); by left|done].
        - assert (0 < occurrences config k o insts) as Hp by lia.
          specialize (Hseen _ _ Hp). destruct impl.
          + destruct Hseen as (i & x & He).
            destruct (Hfwd _ _ _ He) as (x' & He' & _). by exists i, x'.
          + apply has_pair_entry in Hseen as (i & x & He & Hox).
            destruct (Hfwd _ _ _ He) as (x' & He' & Hox').
            exists i, x'. split; [done|congruence]. }
      destruct Hex as (i & x & He & Hox). destruct impl.
      * eauto.
      * apply has_pair_entry. exists i, x. auto.
  - (* an entry made in a table that lacks the PC *)
    destruct Hc as (Hc & Ho & _).
    pose proof (Hnopair _ _ Hm Hk Hi Hj) as Hno.
    assert (occurrences config (pc inst) (opcode inst) insts = 0) as H0.
    { apply Hfresh; [done|]. intros -> i x (mi & Hmi & Hx).
      destruct (Hone eq_refl) as (m0 & HT & Hitv). fold T in HT.
      rewrite (Hi eq_refl), Hitv, HT in Hm. rewrite HT in Hmi.
      destruct i; simpl in *; [|done]. congruence. }
    assert (forall i x, entry_at T i (pc inst) x ->
              getOpcode x <> opcode inst) as Hother.
    { intros i x He Hox. apply Hno. apply has_pair_entry. eauto. }
    split; [split|].
    + intros i k x [(-> & -> & ->)|(Hne & He)]%(entry_at_insert _ _ _ _ _ _ _ _ Hm).
      * unfold getCount, getOpcode. rewrite Hocc, Ho, Hc.
        rewrite bool_decide_true by done. lia.
      * destruct (Hcnt _ _ _ He) as (Hcx & Hpx).
        rewrite Hocc. rewrite bool_decide_false; [lia|].
        intros (<- & Hox). by apply (Hother i x).
    + intros i j k di dj
        [(-> & -> & ->)|(Hni & Hei)]%(entry_at_insert _ _ _ _ _ _ _ _ Hm)
        [(-> & Hkj & ->)|(Hnj & Hej)]%(entry_at_insert _ _ _ _ _ _ _ _ Hm)
        Heq; try done.
      * exfalso. apply (Hother j dj Hej). unfold getOpcode in *. congruence.
      * subst k. exfalso. apply (Hother i di Hei).
        unfold getOpcode in *. congruence.
      * by apply (Huniq i j k di dj).
    + intros k o Hko. rewrite Hocc in Hko.
      assert (exists i x, entry_at (<[it := <[pc inst := d]> m]> T) i k x
                          /\ (impl = JavaIMem -> getOpcode x = o)) as Hex.
      { case_bool_decide as Hev.
        - destruct Hev as (<- & <-). exists it, d.
          split; [apply (entry_at_insert _ _ _ _ _ _ _ _ Hm); by left|done].
        - assert (0 < occurrences config k o insts) as Hp by lia.
          specialize (Hseen _ _ Hp).
          assert (forall i x, entry_at T i k x ->
                    entry_at (<[it := <[pc inst := d]> m]> T) i k x) as Hfwd.
          { intros i x He. apply (entry_at_insert _ _ _ _ _ _ _ _ Hm).
            right. split; [|done].
            destruct (decide (i = it)) as [->|]; [|by left].
            right. intros ->. destruct He as (m' & Hm' & Hx). congruence. }
          destruct impl.
          + destruct Hseen as (i & x & He). exists i, x.
            split; [by apply Hfwd|done].
          + apply has_pair_entry in Hseen as (i & x & He & Hox).
            exists i, x. split; [by apply Hfwd|done]. }
      destruct Hex as (i & x & He & Hox). destruct impl.
      * eauto.
      * apply has_pair_entry. exists i, x. auto.
  - (* a new table in front *)
    subst impl. destruct Hc as (Hc & Ho & _).
    assert (occurrences config (pc inst) (opcode inst) insts = 0) as H0
      by (apply Hfresh; done).
    assert (forall i x, entry_at T i (pc inst) x ->
              getOpcode x <> opcode inst) as Hother.
    { intros i x He Hox. apply Hno. apply has_pair_entry. eauto. }
    assert (forall k x, ({[pc inst := d]} : IMemMap) !! k = Some x
                        <-> k = pc inst /\ x = d) as Hsing.
    { intros k x. rewrite lookup_singleton_Some. split.
      - by intros (-> & ->).
      - by intros (-> & ->). }
    split; [split|].
    + intros i k x [(-> & (-> & ->)%Hsing)|(i0 & -> & He)]%entry_at_cons.
      * unfold getCount, getOpcode. rewrite Hocc, Ho, Hc.
        rewrite bool_decide_true by done. lia.
      * destruct (Hcnt _ _ _ He) as (Hcx & Hpx).
        rewrite Hocc. rewrite bool_decide_false; [lia|].
        intros (<- & Hox). by apply (Hother i0 x).
    + intros i j k di dj
        [(-> & (-> & ->)%Hsing)|(i0 & -> & Hei)]%entry_at_cons
        [(-> & (Hkj & ->)%Hsing)|(j0 & -> & Hej)]%entry_at_cons
        Heq; try done.
      * exfalso. apply (Hother j0 dj Hej). unfold getOpcode in *. congruence.
      * subst k. exfalso. apply (Hother i0 di Hei).
        unfold getOpcode in *. congruence.
      * f_equal. by apply (Huniq i0 j0 k di dj).
    + intros k o Hko. rewrite Hocc in Hko. apply has_pair_entry.
      case_bool_decide as Hev.
      * destruct Hev as (<- & <-). exists 0%nat, d.
        split; [|done]. apply entry_at_cons. left. split; [done|].
        by apply Hsing.
      * assert (0 < occurrences config k o insts) as Hp by lia.
        specialize (Hseen _ _ Hp).
        apply has_pair_entry in Hseen as (i & x & He & Hox).
        exists (S i), x. split; [|done]. apply entry_at_cons. eauto.
  - (* another opcode in the active table of the non-Java profiler *)
    destruct (Hone eq_refl) as (m0 & HT & Hitv). fold T in HT.
    rewrite Hitv, HT in Hm. simpl in Hm. inversion Hm; subst m0.
    assert (forall i x, entry_at T i (pc inst) x -> x = d) as Honly.
    { intros i x (mi & Hmi & Hx). rewrite HT in Hmi.
      destruct i; simpl in Hmi; [|done]. congruence. }
    split; [split|].
    + intros i k x He. destruct (Hcnt _ _ _ He) as (Hcx & Hpx).
      rewrite Hocc. rewrite bool_decide_false; [lia|].
      intros (<- & Hox). rewrite (Honly _ _ He) in Hox.
      unfold opcodeMatch, getOpcode in *. lia.
    + exact Huniq.
    + intros k o Hko. rewrite Hocc in Hko.
      case_bool_decide as Hev.
      * destruct Hev as (<- & <-). exists 0%nat, d, m.
        by rewrite HT.
      * apply (Hseen k o). lia.
Qed.

Lemma counts_event_not_admitted config key opc inst :
  admitted config inst = false -> counts_event config key opc inst = false.
Proof. intros Ha. unfold counts_event. by rewrite Ha. Qed.

(** Every run keeps the entries exact. *)
Lemma run_counts_exact impl config rv insts :
  Z.of_nat (length insts) < 2 ^ 64 ->
  let s := run impl config insts (with_rv64 rv IMemMapVec_init) in
  counts_exact config insts (imem_mapvec_ s)
  /\ seen_pairs impl config insts (imem_mapvec_ s).
Proof.
  induction insts as [|inst insts IH] using rev_ind; intros Hlen.
  - cbn zeta. split; [split|].
    + intros i key d (m & Hm & Hd). simpl in Hm.
      destruct i; simpl in Hm; [|done]. inversion Hm; subst.
      by rewrite lookup_empty in Hd.
    + intros i j key di dj (m & Hm & Hd). simpl in Hm.
      destruct i; simpl in Hm; [|done]. inversion Hm; subst.
      by rewrite lookup_empty in Hd.
    + intros key opc Hpos. unfold occurrences in Hpos. simpl in Hpos. lia.
  - rewrite length_app in Hlen. simpl in Hlen.
    destruct IH as (Hex & Hseen); [lia|]. cbn zeta.
    rewrite run_snoc.
    pose proof (run_itv_valid impl config rv insts) as Hv.
    assert (impl = IMem ->
            exists m, imem_mapvec_ (run impl config insts
                                      (with_rv64 rv IMemMapVec_init)) = [m]
                      /\ itv_ (run impl config insts
                                 (with_rv64 rv IMemMapVec_init)) = 0%nat)
      as Hone.
    { intros ->.
      destruct (IMem_branch_inv_run config rv insts) as (m & Hm & Hi & _).
      eauto. }
    set (s := run impl config insts (with_rv64 rv IMemMapVec_init)) in *.
    unfold loop_body. destruct (report_invalid_tables inst s) as (Ht & Hi & _).
    destruct (admitted config inst) eqn:Hadm.
    + unfold count. cbn zeta.
      change (imem_mapvec_ (with_inst_count ?n ?x)) with (imem_mapvec_ x).
      apply (counts_exact_step impl config insts inst (report_invalid inst s)
               (count_impl impl config inst (report_invalid inst s)));
        [done|lia| | |by rewrite Ht|by rewrite Ht].
      * intros Himpl. rewrite Ht, Hi. by apply Hone.
      * apply count_impl_cases. unfold itv_valid in *. by rewrite Ht, Hi.
    + rewrite Ht.
      assert (forall k o, occurrences config k o (insts ++ [inst])
                          = occurrences config k o insts) as Hocc.
      { intros k o. rewrite occurrences_snoc.
        rewrite counts_event_not_admitted by done. lia. }
      destruct Hex as (Hcnt & Huniq). split; [split|].
      * intros i key d He. rewrite Hocc. by apply (Hcnt i).
      * exact Huniq.
      * intros key opc Hpos. rewrite Hocc in Hpos. by apply Hseen.
Qed.

(** The count of an entry is the number of admitted events of the run at
    its PC with its opcode, in both variants, for a trace of fewer than
    2^64 events; no entry has a count of 0. *)
Theorem run_entry_counts (impl : ImplType) (config : STFImemConfig)
    (rv : bool) (insts : list STFInst) :
  Z.of_nat (length insts) < 2 ^ 64 ->
  let s := run impl config insts (with_rv64 rv IMemMapVec_init) in
  Forall (map_Forall (fun key d =>
            getCount d = occurrences config key (getOpcode d) insts
            /\ 0 < getCount d))
    (imem_mapvec_ s).
Proof.
  intros Hlen s.
  destruct (run_counts_exact impl config rv insts Hlen) as ((Hcnt & _) & _).
  apply Forall_lookup. intros i m Hm key d Hd.
  apply (Hcnt i key d). by exists m.
Qed.

(** In a run of the Java variant an entry exists for a PC and opcode
    exactly when an admitted event had them, and it is the only one: no two
    tables hold the same PC with the same opcode. *)
Theorem java_one_entry_per_opcode (config : STFImemConfig) (rv : bool)
    (insts : list STFInst) :
  Z.of_nat (length insts) < 2 ^ 64 ->
  let T := imem_mapvec_
             (run JavaIMem config insts (with_rv64 rv IMemMapVec_init)) in
  (forall key opc,
     has_pair T key opc <-> 0 < occurrences config key opc insts)
  /\ (forall i j key di dj,
        entry_at T i key di -> entry_at T j key dj ->
        getOpcode di = getOpcode dj -> i = j).
Proof.
  intros Hlen T.
  destruct (run_counts_exact JavaIMem config rv insts Hlen)
    as ((Hcnt & Huniq) & Hseen).
  split; [|exact Huniq]. intros key opc. split.
  - intros (i & d & He & <-)%has_pair_entry.
    destruct (Hcnt i key d He) as (Hc & Hpos). lia.
  - apply Hseen.
Qed.

(** * The opcode the non-Java profiler keeps *)

Lemma first_opcode_snoc config key insts inst :
  first_opcode config key (insts ++ [inst])
  = match first_opcode config key insts with
    | Some o => Some o
    | None => if at_pc config key inst then Some (opcode inst) else None
    end.
Proof.
  unfold first_opcode. rewrite List.filter_app.
  destruct (List.filter (at_pc config key) insts) as [|e l]; simpl.
  - by destruct (at_pc config key inst).
  - done.
Qed.

Lemma IMem_first_opcode_run config rv insts :
  exists m,
    imem_mapvec_ (run IMem config insts (with_rv64 rv IMemMapVec_init)) = [m]
    /\ forall key, getOpcode <$> m !! key = first_opcode config key insts.
Proof.
  induction insts as [|inst insts IH] using rev_ind.
  - exists ∅. split; [done|]. intros key. by rewrite lookup_empty.
  - destruct IH as (m & HT & Hfirst).
    rewrite run_snoc.
    pose proof (run_itv_valid IMem config rv insts) as Hv.
    destruct (IMem_branch_inv_run config rv insts) as (m0 & Hm0 & Hitv & _).
    set (s := run IMem config insts (with_rv64 rv IMemMapVec_init)) in *.
    rewrite HT in Hm0. inversion Hm0; subst m0. clear Hm0.
    unfold loop_body. destruct (report_invalid_tables inst s) as (Ht & Hi & _).
    destruct (admitted config inst) eqn:Hadm.
    + unfold count. cbn zeta.
      change (imem_mapvec_ (with_inst_count ?n ?x)) with (imem_mapvec_ x).
      assert (itv_valid (report_invalid inst s)) as Hv1
        by (unfold itv_valid in *; by rewrite Ht, Hi).
      pose proof (count_impl_cases IMem config inst _ Hv1) as Hcases.
      unfold count_cases in Hcases. cbn zeta in Hcases.
      rewrite Ht, HT in Hcases.
      assert (forall key, key <> pc inst ->
                first_opcode config key (insts ++ [inst])
                = first_opcode config key insts) as Hne.
      { intros key Hk. rewrite first_opcode_snoc.
        destruct (first_opcode config key insts); [done|].
        unfold at_pc. rewrite Hadm. simpl.
        by rewrite (proj2 (Z.eqb_neq _ _)) by done. }
      assert (forall d, m !! pc inst = Some d ->
                first_opcode config (pc inst) (insts ++ [inst])
                = Some (getOpcode d)) as Hold.
      { intros d Hd. rewrite first_opcode_snoc, <- Hfirst, Hd. done. }
      destruct Hcases as [(it & m1 & d & d' & Hm & Hk & Hop & Hc & -> & _)
                         |[(it & m1 & d & Hm & Hk & Hc & -> & _)
                          |[(d & _ & _ & _ & ? & _)
                           |(_ & -> & _ & m1 & d & Hm & Hk & _)]]];
        [| |done|].
      * destruct it; simpl in Hm; [|done]. inversion Hm; subst m1.
        eexists. split; [done|]. intros key.
        destruct (decide (key = pc inst)) as [->|Hkey].
        -- rewrite lookup_insert_eq. simpl. rewrite (Hold d Hk).
           destruct Hc as (_ & Ho & _). unfold getOpcode. by rewrite Ho.
        -- rewrite lookup_insert_ne by done. by rewrite Hne.
      * destruct it; simpl in Hm; [|done]. inversion Hm; subst m1.
        eexists. split; [done|]. intros key.
        destruct (decide (key = pc inst)) as [->|Hkey].
        -- rewrite lookup_insert_eq. simpl.
           rewrite first_opcode_snoc, <- Hfirst, Hk. simpl.
           unfold at_pc. rewrite Hadm, Z.eqb_refl. simpl.
           destruct Hc as (_ & Ho & _). unfold getOpcode. by rewrite Ho.
        -- rewrite lookup_insert_ne by done. by rewrite Hne.
      * rewrite Hi, Hitv in Hm. inversion Hm; subst m1.
        exists m. split; [done|]. intros key.
        destruct (decide (key = pc inst)) as [->|Hkey]; [|by rewrite Hne].
        by rewrite (Hold d Hk), Hk.
    + exists m. split; [by rewrite Ht|]. intros key.
      rewrite first_opcode_snoc, <- Hfirst.
      destruct (m !! key); simpl; [done|].
      unfold at_pc. by rewrite Hadm.
Qed.

(** The single table of the non-Java profiler holds, for each PC, the
    opcode of the first admitted event at that PC, and no entry for a PC
    without admitted event. *)
Theorem imem_keeps_first_opcode (config : STFImemConfig) (rv : bool)
    (insts : list STFInst) :
  let s := run IMem config insts (with_rv64 rv IMemMapVec_init) in
  exists m, imem_mapvec_ s = [m]
    /\ forall key, getOpcode <$> m !! key = first_opcode config key insts.
Proof. apply IMem_first_opcode_run. Qed.

(** * Blocks and gap markers of the reports *)

Lemma contiguous_snoc block e :
  contiguous (block ++ [e])
  <-> contiguous block
      /\ match last block with
         | Some x => follows x e = true
         | None => True
         end.
Proof.
  induction block as [|x block IH]; simpl; [tauto|].
  destruct block as [|y block]; simpl in *; [tauto|].
  rewrite IH. tauto.
Qed.

Lemma breaks_snoc entries e :
  breaks (entries ++ [e])
  = (breaks entries
     + match last entries with
       | Some x => if follows x e then 0 else 1
       | None => 0
       end)%nat.
Proof.
  induction entries as [|x entries IH]; simpl; [done|].
  destruct entries as [|y entries]; simpl in *; [lia|].
  rewrite IH. lia.
Qed.

Lemma multimap_emplace_perm k v m :
  multimap_emplace k v m ≡ₚ (k, v) :: m.
Proof.
  induction m as [|e m IH]; simpl; [done|].
  destruct (SortedMapKey.lt k e.1); [done|].
  rewrite IH. apply Permutation_swap.
Qed.

Lemma concat_blocks_perm (m1 m2 : SortedMap) :
  m1 ≡ₚ m2 -> concat m1.*2 ≡ₚ concat m2.*2.
Proof. intros H. by rewrite H. Qed.

Lemma print_item_trace config b seen l cur :
  print_trace config seen l ->
  print_trace config (seen ++ [cur]) (print_item config b l cur).
Proof.
  intros (Hfirst & Hprev & Hmode).
  assert (last (seen ++ [cur]) = Some cur) as Hlast by apply last_snoc.
  unfold print_trace. rewrite Hlast, breaks_snoc.
  split; [|split].
  - split; [|intros H; by destruct seen].
    unfold print_item. destruct (sort_output config); simpl;
      destruct (first l) eqn:Hf; simpl; try done;
      destruct (negb (wrap64 (prev_pc l + prev_size l) =? cur.1));
      simpl; try done; by rewrite Hf.
  - intros e [= <-]. unfold print_item. by simpl.
  - destruct (first l) eqn:Hf.
    + assert (seen = []) as -> by by apply Hfirst.
      unfold print_item. rewrite Hf. simpl.
      destruct (sort_output config); simpl.
      * destruct Hmode as (Hperm & Hcont & Hcb & Hl & Hlen & Hos).
        assert (current_block l = []) as Hcur.
        { apply Permutation_nil_r in Hperm.
          by apply app_eq_nil in Hperm as (_ & ?). }
        rewrite Hcur in *. simpl. split_and!; try done.
        -- rewrite app_nil_r in Hperm. apply Permutation_nil_r in Hperm.
           by rewrite Hperm.
        -- destruct b; simpl; [done|].
           apply Forall_app. split; [done|]. by repeat constructor.
      * destruct b; simpl;
          rewrite List.filter_app; simpl; by rewrite app_nil_r.
    + assert (seen <> []) as Hne by (intros H; apply Hfirst in H; congruence).
      destruct (last seen) as [x|] eqn:Hx;
        [|by apply last_None in Hx].
      destruct (Hprev x eq_refl) as (Hpc & Hsz).
      unfold print_item. rewrite Hf, Hpc, Hsz. simpl.
      fold (follows x cur).
      destruct (sort_output config); simpl.
      * destruct Hmode as (Hperm & Hcont & Hcb & Hl & Hlen & Hos).
        destruct (follows x cur) eqn:Hfol; simpl.
        -- split_and!; try done.
           ++ by rewrite app_assoc, Hperm.
           ++ apply contiguous_snoc. split; [done|]. by rewrite Hl.
           ++ by rewrite last_snoc.
           ++ lia.
           ++ destruct b; simpl; [done|].
              apply Forall_app. split; [done|]. by repeat constructor.
        -- split_and!; try done.
           ++ rewrite (concat_blocks_perm _ _ (multimap_emplace_perm _ _ _)).
              simpl. rewrite <- Hperm.
              apply Permutation_app_tail, Permutation_app_comm.
           ++ by apply multimap_emplace_Forall.
           ++ rewrite (multimap_emplace_perm _ _ _). simpl. lia.
           ++ destruct b; simpl; [done|].
              apply Forall_app. split; [done|]. by repeat constructor.
      * destruct (follows x cur) eqn:Hfol; simpl.
        -- destruct b; simpl;
             rewrite !List.filter_app, !length_app; simpl; lia.
        -- destruct b; simpl;
             rewrite !List.filter_app, !length_app; simpl; lia.
Qed.
Lemma print_items_trace config b entries seen l :
  print_trace config seen l ->
  print_trace config (seen ++ entries)
    (fold_left (print_item config b) entries l).
Proof.
  revert seen l. induction entries as [|e entries IH]; intros seen l Hl.
  - by rewrite app_nil_r.
  - simpl. rewrite (cons_middle e), app_assoc. apply IH.
    by apply print_item_trace.
Qed.

Lemma print_map_trace config b rv seen l m :
  print_trace config seen l ->
  print_trace config (seen ++ map_begin_end m) (print_map config b rv l m).
Proof.
  intros Hl. unfold print_map. cbn zeta.
  set (l1 := mkPrintLocals _ _ _ _ _ _ _ (os l ++ _)).
  assert (print_trace config seen l1) as Hl1.
  { destruct Hl as (Hfirst & Hprev & Hmode). split_and!; try done.
    destruct (sort_output config).
    - destruct Hmode as (? & ? & ? & ? & ? & Hos). split_and!; try done.
      apply Forall_app. split; [done|]. by repeat constructor.
    - unfold l1. cbn [os]. rewrite List.filter_app. simpl.
      by rewrite app_nil_r. }
  apply (print_items_trace config b (map_begin_end m)) in Hl1.
  destruct Hl1 as (Hfirst & Hprev & Hmode). by split_and!.
Qed.

Lemma print_loops_trace config b s :
  print_trace config (visited_entries s) (print_loops config b s).
Proof.
  unfold print_loops, visited_entries.
  set (l0 := mkPrintLocals _ _ _ _ _ _ _ _).
  assert (print_trace config [] l0) as Hl0.
  { split_and!; try done. unfold l0. cbn [os sorted_map current_block].
    destruct (sort_output config).
    - split_and!; try done. unfold print_header.
      destruct (track config); by repeat constructor.
    - unfold print_header. by destruct (track config). }
  change (reverse (imem_mapvec_ s) ≫= map_begin_end)
    with ([] ++ (reverse (imem_mapvec_ s) ≫= map_begin_end)).
  revert Hl0. generalize l0 (@nil (Z * IMemData)). clear l0.
  induction (reverse (imem_mapvec_ s)) as [|m tabs IH]; intros l0 seen Hl0.
  - simpl. by rewrite app_nil_r.
  - simpl fold_left. rewrite bind_cons, app_assoc. apply IH.
    by apply print_map_trace.
Qed.

Lemma os_print config b s :
  os_ (print config b s) = os (print_loops config b s).
Proof.
  unfold print. destruct (sort_output config); [|done].
  by destruct (sorted_blocks config b s).
Qed.

(** The blocks of the sorted report and the entries visited. *)
Lemma sorted_blocks_trace config b s :
  sort_output config = true ->
  concat (sorted_blocks config b s).*2 ≡ₚ visited_entries s
  /\ Forall (fun blk => contiguous blk.2) (sorted_blocks config b s)
  /\ length (sorted_blocks config b s)
     = match visited_entries s with
       | [] => 0%nat
       | _ :: _ => S (breaks (visited_entries s))
       end.
Proof.
  intros Hs. pose proof (print_loops_trace config b s) as (_ & _ & Hmode).
  rewrite Hs in Hmode.
  destruct Hmode as (Hperm & Hcont & Hcb & Hl & Hlen & _).
  unfold sorted_blocks, print_sorted_map. rewrite Hs. simpl.
  set (l := print_loops config b s) in *.
  rewrite length_reverse.
  assert (forall m : SortedMap, concat (reverse m).*2 ≡ₚ concat m.*2) as Hrev.
  { intros m. apply concat_blocks_perm. by rewrite reverse_Permutation. }
  case_bool_decide as Hcur; simpl.
  - rewrite Hcur, app_nil_r in Hperm. rewrite Hcur in Hl. simpl in Hl.
    symmetry in Hl. apply last_None in Hl. rewrite Hl in *.
    split_and!.
    + by rewrite Hrev.
    + by apply Forall_reverse.
    + done.
  - split_and!.
    + rewrite Hrev.
      rewrite (concat_blocks_perm _ _ (multimap_emplace_perm _ _ _)).
      simpl. rewrite <- Hperm. apply Permutation_app_comm.
    + apply Forall_reverse. by apply multimap_emplace_Forall.
    + rewrite (multimap_emplace_perm _ _ _). simpl.
      destruct (visited_entries s) as [|e rest] eqn:Hv; [|by rewrite Hlen].
      simpl in Hl. by apply last_None in Hl.
Qed.

Lemma sorted_blocks_unsorted config b s :
  sort_output config = false -> sorted_blocks config b s = [].
Proof.
  intros Hs. unfold sorted_blocks, print_sorted_map. rewrite Hs. simpl.
  assert (sorted_map (print_loops config b s) = []) as ->; [|done].
  unfold print_loops.
  set (l0 := mkPrintLocals _ _ _ _ _ _ _ _).
  assert (sorted_map l0 = []) as Hl0 by done.
  revert Hl0. generalize l0. clear l0.
  induction (reverse (imem_mapvec_ s)) as [|m tabs IH]; intros l0 Hl0;
    [done|].
  simpl. apply IH. unfold print_map. cbn zeta. cbn [sorted_map].
  set (l1 := mkPrintLocals _ _ _ _ _ _ _ (os l0 ++ _)).
  assert (sorted_map l1 = []) as Hl1 by done.
  revert Hl1. generalize l1. clear l1.
  induction (map_begin_end m) as [|e es IHe]; intros l1 Hl1; [done|].
  simpl. apply IHe. unfold print_item. rewrite Hs. simpl.
  destruct (first l1); simpl; [done|].
  by destruct (negb (wrap64 (prev_pc l1 + prev_size l1) =? e.1)).
Qed.

(** With sorting on, each entry of each table goes into exactly one
    block of the sorted report: the entries of the blocks are those of the
    tables, each once.  Without sorting there is no block. *)
Theorem sorted_blocks_cover (config : STFImemConfig) (os_is_stdout : bool)
    (s : IMemMapVec) :
  concat (sorted_blocks config os_is_stdout s).*2
  ≡ₚ (if sort_output config then visited_entries s else []).
Proof.
  destruct (sort_output config) eqn:Hs.
  - by apply sorted_blocks_trace.
  - by rewrite sorted_blocks_unsorted.
Qed.

(** The blocks of the sorted report are the maximal runs of back-to-back
    instructions: inside a block each entry starts where the one before it
    ends, and there is one block more than there are places, in the order
    in which the entries are visited, where an entry does not start where
    the one before it ends. *)
Theorem sorted_blocks_are_runs (config : STFImemConfig) (os_is_stdout : bool)
    (s : IMemMapVec) :
  Forall (fun blk => contiguous blk.2) (sorted_blocks config os_is_stdout s)
  /\ length (sorted_blocks config os_is_stdout s)
     = (if sort_output config then
          match visited_entries s with
          | [] => 0%nat
          | _ :: _ => S (breaks (visited_entries s))
          end
        else 0%nat).
Proof.
  destruct (sort_output config) eqn:Hs.
  - split; by apply sorted_blocks_trace.
  - by rewrite sorted_blocks_unsorted.
Qed.

(** The address-ordered report has a gap marker exactly where an entry
    does not start where the entry visited before it ends, and none when
    sorting is on. *)
Theorem report_gap_markers (config : STFImemConfig) (os_is_stdout : bool)
    (s : IMemMapVec) :
  length (List.filter is_gap (os_ (print config os_is_stdout s)))
  = if sort_output config then 0%nat else breaks (visited_entries s).
Proof.
  rewrite os_print.
  pose proof (print_loops_trace config os_is_stdout s) as (_ & _ & Hmode).
  destruct (sort_output config); [|done].
  destruct Hmode as (_ & _ & _ & _ & _ & Hos).
  induction Hos as [|line lines Hline _ IH]; [done|].
  simpl. unfold is_gap at 1. by rewrite Hline.
Qed.

(** * The empty footprint and the assertion of the sorted report *)

Lemma map_begin_end_nil (m : IMemMap) : map_begin_end m = [] <-> m = ∅.
Proof.
  unfold map_begin_end. split.
  - intros H. apply map_to_list_empty_iff.
    apply Permutation_nil_r. rewrite <- H.
    symmetry. apply merge_sort_Permutation.
  - intros ->. by rewrite map_to_list_empty.
Qed.

Lemma visited_entries_nil s :
  visited_entries s = [] <-> Forall (fun m => m = ∅) (imem_mapvec_ s).
Proof.
  unfold visited_entries. rewrite <- (Forall_reverse _ (imem_mapvec_ s)).
  induction (reverse (imem_mapvec_ s)) as [|m tabs IH]; [done|].
  rewrite bind_cons, Forall_cons, <- IH, <- map_begin_end_nil.
  split.
  - by intros (? & ?)%app_eq_nil.
  - by intros (-> & ->).
Qed.

Lemma sorted_blocks_nil config b s :
  sort_output config = true ->
  sorted_blocks config b s = [] <-> visited_entries s = [].
Proof.
  intros Hs. destruct (sorted_blocks_trace config b s Hs) as (_ & _ & Hlen).
  split.
  - intros H. rewrite H in Hlen. by destruct (visited_entries s).
  - intros H. rewrite H in Hlen. by apply nil_length_inv.
Qed.

(** With sorting on and no entry in any table, [print] writes the
    empty-footprint warning, opens no sorted report and skips the
    assertion; in every other case it writes no diagnostic. *)
Theorem print_warns_empty_footprint (config : STFImemConfig)
    (os_is_stdout : bool) (s : IMemMapVec) :
  print_cerr_ (print config os_is_stdout s)
  = (if bool_decide (sort_output config = true
                     /\ Forall (fun m => m = ∅) (imem_mapvec_ s))
     then [DiagEmptyImem] else [])
  /\ (print_cerr_ (print config os_is_stdout s) = [DiagEmptyImem] ->
      sorted_os_ (print config os_is_stdout s) = None
      /\ stf_assert_failed_ (print config os_is_stdout s) = None).
Proof.
  split.
  - destruct (sort_output config) eqn:Hs.
    + pose proof (sorted_blocks_nil config os_is_stdout s Hs) as Hnil.
      rewrite visited_entries_nil in Hnil.
      unfold print. rewrite Hs. cbn zeta.
      destruct (sorted_blocks config os_is_stdout s) as [|blk blocks].
      * rewrite bool_decide_true; [done|]. split; [done|]. by apply Hnil.
      * rewrite bool_decide_false; [done|]. intros (_ & H).
        by apply Hnil in H.
    + unfold print. rewrite Hs. rewrite bool_decide_false; [done|].
      by intros (? & _).
  - unfold print. destruct (sort_output config); [|done]. cbn zeta.
    by destruct (sorted_blocks config os_is_stdout s).
Qed.

Lemma map_total_nonneg (f : IMemData -> Z) (m : IMemMap) :
  map_Forall (fun (_ : Z) d => 0 <= f d) m -> 0 <= map_total f m.
Proof.
  unfold map_total.
  apply (map_fold_weak_ind
           (fun acc (m : IMemMap) =>
              map_Forall (fun (_ : Z) d => 0 <= f d) m -> 0 <= acc)).
  - done.
  - intros i x m' r Hi IH Hall.
    apply map_Forall_insert in Hall as (Hx & Hm'); [|done].
    specialize (IH Hm'). lia.
Qed.

Lemma tables_total_nonneg (f : IMemData -> Z) (tables : list IMemMap) :
  Forall (map_Forall (fun (_ : Z) d => 0 <= f d)) tables ->
  0 <= tables_total f tables.
Proof.
  induction 1 as [|m tables Hm _ IH]; simpl; [done|].
  pose proof (map_total_nonneg f m Hm). lia.
Qed.

(** A run that wrote a mismatch warning has an entry. *)
Lemma run_warning_entry impl config rv insts :
  Z.of_nat (length insts) < 2 ^ 64 ->
  let s := run impl config insts (with_rv64 rv IMemMapVec_init) in
  0 < two_opcodes_warnings s -> visited_entries s <> [].
Proof.
  intros Hlen s Hw Hnil. apply visited_entries_nil in Hnil.
  destruct (run_count_sum impl config rv insts Hlen)
    as (Hsum & _ & Hnn & Hjava).
  fold s in Hsum, Hnn, Hjava.
  destruct impl; [|specialize (Hjava eq_refl); lia].
  destruct (IMem_first_opcode_run config rv insts) as (m & HT & Hfirst).
  fold s in HT. rewrite HT in Hnil.
  apply Forall_cons in Hnil as (-> & _).
  assert (total_count s = 0) as Ht.
  { unfold total_count. rewrite HT. simpl. rewrite map_total_empty. lia. }
  assert (0 < admitted_count config insts) as Ha by lia.
  unfold admitted_count in Ha.
  destruct (List.filter (admitted config) insts) as [|e l] eqn:Hf;
    [simpl in Ha; lia|].
  assert (In e (List.filter (admitted config) insts)) as Hin
    by (rewrite Hf; by left).
  apply List.filter_In in Hin as (Hin & Hadm).
  specialize (Hfirst (pc e)). rewrite lookup_empty in Hfirst.
  unfold first_opcode in Hfirst.
  assert (In e (List.filter (at_pc config (pc e)) insts)) as Hin'.
  { apply List.filter_In. split; [done|]. unfold at_pc.
    by rewrite Hadm, Z.eqb_refl. }
  by destruct (List.filter (at_pc config (pc e)) insts).
Qed.

(** The assertion that ends the sorted report fails exactly when sorting
    is on and the counting loop wrote an opcode mismatch warning, for a
    trace of fewer than 2^64 events. *)
Theorem sorted_report_assert_fails_iff (impl : ImplType)
    (config : STFImemConfig) (rv : bool) (insts : list STFInst)
    (os_is_stdout : bool) :
  Z.of_nat (length insts) < 2 ^ 64 ->
  let s := processTrace_ impl config rv insts IMemMapVec_init in
  stf_assert_failed_ (print config os_is_stdout s) <> None
  <-> sort_output config = true /\ 0 < two_opcodes_warnings s.
Proof.
  intros Hlen s. unfold s. clear s.
  destruct (processTrace_run impl config rv insts) as (k & ->).
  pose proof (take_length_le k insts) as Hk.
  set (pre := take k insts) in *.
  assert (Z.of_nat (length pre) < 2 ^ 64) as Hpre by lia.
  destruct (run_count_sum impl config rv pre Hpre)
    as (Hsum & Hcnt & Hnn & _).
  pose proof (admitted_count_bound config pre) as Hb.
  set (s := run impl config pre (with_rv64 rv IMemMapVec_init)) in *.
  assert (0 <= two_opcodes_warnings s) as Hw0
    by (unfold two_opcodes_warnings; lia).
  assert (0 <= total_count s) as Ht0 by by apply tables_total_nonneg.
  split.
  - intros Hfail. destruct (sort_output config) eqn:Hs.
    + split; [done|].
      destruct (decide (two_opcodes_warnings s = 0)) as [Hz|]; [|lia].
      exfalso. apply Hfail.
      apply (run_assert_passes impl config rv pre os_is_stdout Hpre).
      by left.
    + exfalso. apply Hfail. unfold print. by rewrite Hs.
  - intros (Hs & Hw). rewrite print_assert_spec by done.
    rewrite bool_decide_false.
    + rewrite wrap64_small by lia.
      by rewrite (proj2 (Z.eqb_neq _ _)) by lia.
    + rewrite sorted_blocks_nil by done.
      by apply (run_warning_entry impl config rv pre Hpre).
Qed.

(** * Window counters and the maximum count *)

(** Induction over a run: a property that holds of the start state, is
    kept by an event that is filtered out and by one that is counted
    (given the cases of [count_impl]), holds after the run. *)
Lemma run_ind impl config rv (P : list STFInst -> IMemMapVec -> Prop) :
  P [] (with_rv64 rv IMemMapVec_init) ->
  (forall insts inst,
     let s := run impl config insts (with_rv64 rv IMemMapVec_init) in
     P insts s -> admitted config inst = false ->
     P (insts ++ [inst]) (report_invalid inst s)) ->
  (forall insts inst,
     let s := run impl config insts (with_rv64 rv IMemMapVec_init) in
     let s1 := report_invalid inst s in
     P insts s -> admitted config inst = true ->
     count_cases impl config inst s1 (count_impl impl config inst s1) ->
     P (insts ++ [inst]) (count impl config inst s1)) ->
  forall insts, P insts (run impl config insts (with_rv64 rv IMemMapVec_init)).
Proof.
  intros H0 Hskip Hcount insts.
  induction insts as [|inst insts IH] using rev_ind; [done|].
  rewrite run_snoc. unfold loop_body.
  destruct (admitted config inst) eqn:Hadm.
  - apply Hcount; [done|done|]. apply count_impl_cases.
    pose proof (run_itv_valid impl config rv insts) as Hv.
    destruct (report_invalid_tables inst
                (run impl config insts (with_rv64 rv IMemMapVec_init)))
      as (Ht & Hi & _).
    unfold itv_valid in *. by rewrite Ht, Hi.
  - by apply Hskip.
Qed.

Lemma entry_at_Forall (P : Z -> IMemData -> Prop) tables :
  (forall i key d, entry_at tables i key d -> P key d)
  <-> Forall (map_Forall P) tables.
Proof.
  rewrite Forall_lookup. unfold entry_at. split.
  - intros H i m Hm key d Hd. apply (H i). eauto.
  - intros H i key d (m & Hm & Hd). by apply (H i m Hm key d).
Qed.

(** The windows of an entry: both counters are counts of some of the
    occurrences counted, no occurrence in both. *)
Lemma run_window_sum impl config rv insts :
  Z.of_nat (length insts) < 2 ^ 64 ->
  let s := run impl config insts (with_rv64 rv IMemMapVec_init) in
  forall i key d, entry_at (imem_mapvec_ s) i key d ->
    0 <= getWarmup d /\ 0 <= getRunLength d
    /\ getWarmup d + getRunLength d <= getCount d
    /\ (Z.of_nat (length insts) <= runlength_count config ->
        getWarmup d + getRunLength d = getCount d).
Proof.
  revert insts.
  apply (run_ind impl config rv
           (fun insts s =>
              Z.of_nat (length insts) < 2 ^ 64 ->
              forall i key d, entry_at (imem_mapvec_ s) i key d ->
                0 <= getWarmup d /\ 0 <= getRunLength d
                /\ getWarmup d + getRunLength d <= getCount d
                /\ (Z.of_nat (length insts) <= runlength_count config ->
                    getWarmup d + getRunLength d = getCount d))).
  - intros _ i key d (m & Hm & Hd). destruct i; simpl in Hm; [|done].
    inversion Hm; subst. by rewrite lookup_empty in Hd.
  - intros insts inst s IH Hadm Hlen i key d He.
    rewrite length_app in *. simpl in *.
    destruct (report_invalid_tables inst s) as (Ht & _).
    rewrite Ht in He.
    destruct (IH ltac:(lia) i key d He) as (? & ? & ? & Heq).
    split_and!; try done. intros. apply Heq. lia.
  - intros insts inst s s1 IH Hadm Hcases Hlen i key d He.
    rewrite length_app in *. simpl in *.
    specialize (IH ltac:(lia)).
    destruct (run_counts_exact impl config rv insts ltac:(lia))
      as ((Hcnt & _) & _).
    destruct (run_count_sum impl config rv insts ltac:(lia))
      as (_ & Hic & _).
    pose proof (admitted_count_bound config insts) as Hab.
    fold s in Hcnt, Hic.
    destruct (report_invalid_tables inst s) as (Ht & _ & Hc1).
    fold s1 in Ht, Hc1.
    unfold count in He. cbn zeta in He.
    change (imem_mapvec_ (with_inst_count ?n ?x)) with (imem_mapvec_ x) in He.
    unfold count_cases in Hcases. cbn zeta in Hcases. rewrite Ht in Hcases.
    assert (forall x, entry_created config inst s1 x ->
              0 <= getWarmup x /\ 0 <= getRunLength x
              /\ getWarmup x + getRunLength x <= getCount x
              /\ (Z.of_nat (length insts + 1) <= runlength_count config ->
                  getWarmup x + getRunLength x = getCount x)) as Hnew.
    { intros x (Hxc & _ & Hxw & Hxr).
      unfold getWarmup, getRunLength, getCount. rewrite Hxc, Hxw, Hxr.
      destruct (inst_count_ s1 <? warmup_count config); lia. }
    assert (forall i key x, entry_at (imem_mapvec_ s) i key x ->
              0 <= getWarmup x /\ 0 <= getRunLength x
              /\ getWarmup x + getRunLength x <= getCount x
              /\ (Z.of_nat (length insts + 1) <= runlength_count config ->
                  getWarmup x + getRunLength x = getCount x)) as Hold.
    { intros i0 k0 x Hx. destruct (IH i0 k0 x Hx) as (? & ? & ? & Heq).
      split_and!; try done. intros. apply Heq. lia. }
    destruct Hcases as [(it & m & d0 & d' & Hm & Hk & Hop & Hc & HT & _)
                       |[(it & m & d0 & Hm & Hk & Hc & HT & _)
                        |[(d0 & Hc & HT & _)
                         |(_ & HT & _)]]];
      rewrite HT in He.
    + apply (entry_at_insert _ _ _ _ _ _ _ _ Hm) in He
        as [(-> & -> & ->)|(_ & He)]; [|by apply (Hold i key d)].
      assert (entry_at (imem_mapvec_ s) it (pc inst) d0) as He0
        by (exists m; done).
      destruct (IH _ _ _ He0) as (Hw0 & Hr0 & Hle & Heq).
      destruct (Hcnt _ _ _ He0) as (Hocc & Hpos).
      pose proof (occurrences_bound config (pc inst) (getOpcode d0) insts).
      destruct Hc as (Hc & _ & Hw & Hr).
      unfold getWarmup, getRunLength, getCount in *.
      rewrite Hc, Hw, Hr, Hc1, Hic.
      rewrite (wrap64_small (count_ d0 + 1)) by lia.
      destruct (admitted_count config insts <? warmup_count config) eqn:E1.
      * rewrite wrap64_small by lia. split_and!; try lia.
      * destruct (admitted_count config insts <? runlength_count config)
          eqn:E2.
        -- rewrite wrap64_small by lia. split_and!; try lia.
        -- split_and!; try lia.
    + apply (entry_at_insert _ _ _ _ _ _ _ _ Hm) in He
        as [(-> & -> & ->)|(_ & He)]; [by apply Hnew|by apply (Hold i key d)].
    + apply entry_at_cons in He as [(-> & Hd)|(i0 & -> & He)].
      * apply lookup_singleton_Some in Hd as (_ & <-). by apply Hnew.
      * by apply (Hold i0 key d).
    + by apply (Hold i key d).
Qed.

(** The warm-up and run-length counters of an entry count different
    occurrences among those counted for it: neither is negative and
    together they do not exceed the count; they add up to it when the
    run-length window covers the whole trace. *)
Theorem run_window_counters (impl : ImplType) (config : STFImemConfig)
    (rv : bool) (insts : list STFInst) :
  Z.of_nat (length insts) < 2 ^ 64 ->
  let s := run impl config insts (with_rv64 rv IMemMapVec_init) in
  Forall (map_Forall (fun (_ : Z) d =>
            0 <= getWarmup d /\ 0 <= getRunLength d
            /\ getWarmup d + getRunLength d <= getCount d
            /\ (Z.of_nat (length insts) <= runlength_count config ->
                getWarmup d + getRunLength d = getCount d)))
    (imem_mapvec_ s).
Proof.
  intros Hlen s. apply entry_at_Forall.
  intros i key d He. by apply (run_window_sum impl config rv insts Hlen i key).
Qed.

(** The number of admitted events inside the warm-up window. *)
Lemma run_warmup_total impl config rv insts :
  Z.of_nat (length insts) < 2 ^ 64 ->
  let s := run impl config insts (with_rv64 rv IMemMapVec_init) in
  total_warmup s
    <= Z.max 0 (Z.min (admitted_count config insts) (warmup_count config))
  /\ (impl = JavaIMem ->
      total_warmup s
      = Z.max 0 (Z.min (admitted_count config insts) (warmup_count config))).
Proof.
  revert insts.
  apply (run_ind impl config rv
           (fun insts s =>
              Z.of_nat (length insts) < 2 ^ 64 ->
              total_warmup s
                <= Z.max 0 (Z.min (admitted_count config insts)
                              (warmup_count config))
              /\ (impl = JavaIMem ->
                  total_warmup s
                  = Z.max 0 (Z.min (admitted_count config insts)
                               (warmup_count config))))).
  - intros _. unfold total_warmup, admitted_count. simpl.
    rewrite map_total_empty. lia.
  - intros insts inst s IH Hadm Hlen.
    rewrite length_app in Hlen. simpl in Hlen.
    destruct (report_invalid_tables inst s) as (Ht & _).
    unfold total_warmup in *. rewrite Ht, admitted_count_snoc, Hadm.
    rewrite Z.add_0_r. apply IH. lia.
  - intros insts inst s s1 IH Hadm Hcases Hlen.
    rewrite length_app in Hlen. simpl in Hlen.
    specialize (IH ltac:(lia)).
    pose proof (run_window_sum impl config rv insts ltac:(lia)) as Hwin.
    destruct (run_counts_exact impl config rv insts ltac:(lia))
      as ((Hcnt & _) & _).
    destruct (run_count_sum impl config rv insts ltac:(lia))
      as (_ & Hic & _).
    pose proof (admitted_count_bound config insts) as Hab.
    fold s in Hcnt, Hic, Hwin.
    destruct (report_invalid_tables inst s) as (Ht & _ & Hc1).
    fold s1 in Ht, Hc1.
    unfold total_warmup in *. unfold count. cbn zeta.
    change (imem_mapvec_ (with_inst_count ?n ?x)) with (imem_mapvec_ x).
    rewrite admitted_count_snoc, Hadm.
    unfold count_cases in Hcases. cbn zeta in Hcases. rewrite Ht in Hcases.
    assert (forall x, entry_created config inst s1 x ->
              getWarmup x
              = if admitted_count config insts <? warmup_count config
                then 1 else 0) as Hnew.
    { intros x (_ & _ & Hxw & _). unfold getWarmup. by rewrite Hxw, Hc1, Hic. }
    destruct Hcases as [(it & m & d0 & d' & Hm & Hk & Hop & Hc & HT & _)
                       |[(it & m & d0 & Hm & Hk & Hc & HT & _)
                        |[(d0 & Hc & HT & _)
                         |(-> & HT & _)]]];
      rewrite HT.
    + rewrite (tables_total_insert _ _ _ _ _ Hm).
      rewrite (map_total_insert_Some _ _ _ _ _ Hk).
      assert (entry_at (imem_mapvec_ s) it (pc inst) d0) as He0
        by (exists m; done).
      destruct (Hwin _ _ _ He0) as (Hw0 & Hr0 & Hle & _).
      destruct (Hcnt _ _ _ He0) as (Hocc & Hpos).
      pose proof (occurrences_bound config (pc inst) (getOpcode d0) insts).
      destruct Hc as (_ & _ & Hw & _).
      unfold getWarmup in *. rewrite Hw, Hc1, Hic.
      destruct (admitted_count config insts <? warmup_count config) eqn:E1.
      * rewrite wrap64_small by lia. split; [lia|].
        intros Hj. specialize (proj2 IH Hj). lia.
      * split; [lia|]. intros Hj. specialize (proj2 IH Hj). lia.
    + rewrite (tables_total_insert _ _ _ _ _ Hm).
      rewrite (map_total_insert_None _ _ _ _ Hk).
      rewrite (Hnew _ Hc).
      destruct (admitted_count config insts <? warmup_count config) eqn:E1;
        (split; [lia|]; intros Hj; specialize (proj2 IH Hj); lia).
    + simpl. rewrite map_total_singleton. rewrite (Hnew _ Hc).
      destruct (admitted_count config insts <? warmup_count config) eqn:E1;
        (split; [lia|]; intros Hj; specialize (proj2 IH Hj); lia).
    + split; [lia|done].
Qed.

(** The warm-up counters of all entries together count the admitted
    events inside the warm-up window, the first [warmup_count] of them:
    exactly with the Java variant, and not more with the other one, which
    does not count an event that meets another opcode. *)
Theorem processTrace_warmup_total (impl : ImplType) (config : STFImemConfig)
    (rv : bool) (insts : list STFInst) :
  Z.of_nat (length insts) < 2 ^ 64 ->
  let s := processTrace_ impl config rv insts IMemMapVec_init in
  total_warmup s <= Z.max 0 (Z.min (inst_count_ s) (warmup_count config))
  /\ (impl = JavaIMem ->
      total_warmup s
      = Z.max 0 (Z.min (inst_count_ s) (warmup_count config))).
Proof.
  intros Hlen s. unfold s. clear s.
  destruct (processTrace_run impl config rv insts) as (k & ->).
  pose proof (take_length_le k insts) as Hk.
  destruct (run_count_sum impl config rv (take k insts) ltac:(lia))
    as (_ & -> & _).
  apply run_warmup_total. lia.
Qed.

(** [max_count_] and the counts of the entries. *)
Lemma run_max_count_inv impl config rv insts :
  Z.of_nat (length insts) < 2 ^ 64 ->
  let s := run impl config insts (with_rv64 rv IMemMapVec_init) in
  (forall i key d, entry_at (imem_mapvec_ s) i key d ->
     getCount d <= Z.max 1 (max_count_ s))
  /\ (max_count_ s = 0
      \/ (1 < max_count_ s
          /\ exists i key d, entry_at (imem_mapvec_ s) i key d
                             /\ getCount d = max_count_ s)).
Proof.
  revert insts.
  apply (run_ind impl config rv
           (fun insts s =>
              Z.of_nat (length insts) < 2 ^ 64 ->
              (forall i key d, entry_at (imem_mapvec_ s) i key d ->
                 getCount d <= Z.max 1 (max_count_ s))
              /\ (max_count_ s = 0
                  \/ (1 < max_count_ s
                      /\ exists i key d,
                           entry_at (imem_mapvec_ s) i key d
                           /\ getCount d = max_count_ s)))).
  - intros _. split; [|by left].
    intros i key d (m & Hm & Hd). destruct i; simpl in Hm; [|done].
    inversion Hm; subst. by rewrite lookup_empty in Hd.
  - intros insts inst s IH Hadm Hlen.
    rewrite length_app in Hlen. simpl in Hlen.
    destruct (report_invalid_tables inst s) as (Ht & _).
    assert (max_count_ (report_invalid inst s) = max_count_ s) as Hmx
      by (unfold report_invalid; by destruct (negb (valid inst))).
    rewrite Ht, Hmx. apply IH. lia.
  - intros insts inst s s1 IH Hadm Hcases Hlen.
    rewrite length_app in Hlen. simpl in Hlen.
    destruct (IH ltac:(lia)) as (Hle & Hmax).
    destruct (run_counts_exact impl config rv insts ltac:(lia))
      as ((Hcnt & _) & _).
    fold s in Hcnt.
    destruct (report_invalid_tables inst s) as (Ht & _).
    assert (max_count_ s1 = max_count_ s) as Hmx
      by (unfold s1, report_invalid; by destruct (negb (valid inst))).
    fold s1 in Ht.
    unfold count. cbn zeta.
    change (imem_mapvec_ (with_inst_count ?n ?x)) with (imem_mapvec_ x).
    change (max_count_ (with_inst_count ?n ?x)) with (max_count_ x).
    unfold count_cases in Hcases. cbn zeta in Hcases.
    rewrite Ht, Hmx in Hcases.
    destruct Hcases as [(it & m & d0 & d' & Hm & Hk & Hop & Hc & -> & ->)
                       |[(it & m & d0 & Hm & Hk & Hc & -> & -> & _)
                        |[(d0 & Hc & -> & -> & _)
                         |(_ & -> & -> & _)]]].
    + assert (entry_at (imem_mapvec_ s) it (pc inst) d0) as He0
        by (exists m; done).
      destruct (Hcnt _ _ _ He0) as (Hocc & Hpos).
      pose proof (occurrences_bound config (pc inst) (getOpcode d0) insts).
      assert (getCount d' = getCount d0 + 1) as Hd'.
      { destruct Hc as (Hc & _). unfold getCount in *. rewrite Hc.
        apply wrap64_small. lia. }
      split.
      * intros i key d [(-> & -> & ->)|(_ & He)]%(entry_at_insert _ _ _ _ _ _ _ _ Hm).
        -- lia.
        -- specialize (Hle _ _ _ He). lia.
      * right. split; [lia|].
        destruct (decide (max_count_ s <= getCount d')) as [Hcase|Hcase].
        -- exists it, (pc inst), d'. split; [|lia].
           apply (entry_at_insert _ _ _ _ _ _ _ _ Hm). by left.
        -- destruct Hmax as [Hz|(_ & i & key & d & He & Hd)]; [lia|].
           exists i, key, d. split; [|lia].
           apply (entry_at_insert _ _ _ _ _ _ _ _ Hm). right.
           split; [|done].
           destruct (decide (i = it)) as [->|]; [|by left].
           right. intros ->.
           destruct He as (m' & Hm' & Hx). assert (d = d0) by congruence.
           subst d. lia.
    + assert (getCount d0 = 1) as Hd0 by (by destruct Hc as (Hc & _)).
      split.
      * intros i key d [(-> & -> & ->)|(_ & He)]%(entry_at_insert _ _ _ _ _ _ _ _ Hm).
        -- lia.
        -- by apply (Hle i key d).
      * destruct Hmax as [Hz|(Hgt & i & key & d & He & Hd)]; [by left|].
        right. split; [done|]. exists i, key, d. split; [|done].
        apply (entry_at_insert _ _ _ _ _ _ _ _ Hm). right.
        split; [|done].
        destruct (decide (i = it)) as [->|]; [|by left].
        right. intros ->. destruct He as (m' & Hm' & Hx). congruence.
    + assert (getCount d0 = 1) as Hd0 by (by destruct Hc as (Hc & _)).
      split.
      * intros i key d [(-> & Hd)|(i0 & -> & He)]%entry_at_cons.
        -- apply lookup_singleton_Some in Hd as (_ & <-). lia.
        -- by apply (Hle i0 key d).
      * destruct Hmax as [Hz|(Hgt & i & key & d & He & Hd)]; [by left|].
        right. split; [done|]. exists (S i), key, d. split; [|done].
        apply entry_at_cons. eauto.
    + done.
Qed.

(** [max_count_], which the sorted report prints as the maximum count, is
    the largest count of an entry once an instruction has been counted a
    second time, and 0 until then: the first sighting of an instruction
    does not enter it. *)
Theorem processTrace_max_count (impl : ImplType) (config : STFImemConfig)
    (rv : bool) (insts : list STFInst) :
  Z.of_nat (length insts) < 2 ^ 64 ->
  let s := processTrace_ impl config rv insts IMemMapVec_init in
  Forall (map_Forall (fun (_ : Z) d => getCount d <= Z.max 1 (max_count_ s)))
    (imem_mapvec_ s)
  /\ (max_count_ s = 0
      \/ (1 < max_count_ s
          /\ exists i key d, entry_at (imem_mapvec_ s) i key d
                             /\ getCount d = max_count_ s)).
Proof.
  intros Hlen s. unfold s. clear s.
  destruct (processTrace_run impl config rv insts) as (k & ->).
  pose proof (take_length_le k insts) as Hk.
  destruct (run_max_count_inv impl config rv (take k insts) ltac:(lia))
    as (Hle & Hmax).
  split; [|exact Hmax].
  apply entry_at_Forall. intros i key d He. by apply (Hle i key d).
Qed.

(** * The stride recorded by [nextStride] *)

Lemma to_int64_range x : - 2 ^ 63 <= to_int64 x < 2 ^ 63.
Proof.
  unfold to_int64, wrap64.
  pose proof (Z.mod_pos_bound x (2 ^ 64) ltac:(lia)).
  destruct (x mod 2 ^ 64 <? 2 ^ 63) eqn:E; lia.
Qed.

Lemma wrap64_to_int64 x y : wrap64 (x + to_int64 (y - x)) = wrap64 y.
Proof.
  unfold to_int64, wrap64.
  destruct ((y - x) mod 2 ^ 64 <? 2 ^ 63).
  - rewrite Zplus_mod_idemp_r. f_equal. lia.
  - replace (x + ((y - x) mod 2 ^ 64 - 2 ^ 64))
      with (x + (y - x) mod 2 ^ 64 + (-1) * 2 ^ 64) by lia.
    rewrite Z_mod_plus_full, Zplus_mod_idemp_r. f_equal. lia.
Qed.

(** The stride [nextStride] records is the signed 64-bit difference
    between the new address and the last one: it lies in the [int64_t]
    range and, added to the last address, gives the new address back
    modulo 2^64.  It is written to the slot under the cursor, and the new
    address becomes the last one. *)
Theorem nextStride_records_difference (curr_addr : Z) (d : IMemData) :
  lhist_ok d -> 0 <= curr_addr < 2 ^ 64 ->
  let d' := nextStride curr_addr d in
  exists stride,
    getStrides d' !! recent_strides_idx_ d = Some stride
    /\ - 2 ^ 63 <= stride < 2 ^ 63
    /\ wrap64 (last_address_ d + stride) = curr_addr
    /\ last_address_ d' = curr_addr
    /\ forall i, i <> recent_strides_idx_ d ->
         getStrides d' !! i = getStrides d !! i.
Proof.
  intros (Hlen & Hidx & _) Haddr d'.
  exists (to_int64 (curr_addr - last_address_ d)).
  split; [|split; [|split; [|split]]].
  - unfold d', nextStride, getStrides. cbn [recent_strides_].
    apply list_lookup_insert_eq. by rewrite Hlen.
  - apply to_int64_range.
  - rewrite wrap64_to_int64. by apply wrap64_small.
  - done.
  - intros i Hi. unfold d', nextStride, getStrides. cbn [recent_strides_].
    by apply list_lookup_insert_ne.
Qed.

(** * Morph identifiers: what is rejected and what is ignored *)

Section morph_edges.
Import STFMorpher.

Local Ltac digit_step base :=
  match goal with
  | |- context [digit_of ?c] =>
      let v := eval vm_compute in (digit_of c) in
      change (digit_of c) with v
  end;
  cbv iota beta;
  match goal with
  | |- context [?v <? base] =>
      let b := eval vm_compute in (v <? base) in
      change (v <? base) with b
  end;
  cbv iota.

Lemma strtoull_digits_stops base rest acc any :
  stops_digits base rest = true ->
  strtoull_digits base rest acc any = (acc, any).
Proof.
  destruct rest as [|c rest]; [done|]. simpl.
  destruct (digit_of c) as [v|]; [|done].
  by destruct (v <? base).
Qed.

(** Text after a decimal numeral does not change what the digit loop
    reads. *)
Lemma strtoull_digits_dec_suffix (d : Decimal.uint) (rest : string)
    (acc : Z) (any : bool) :
  stops_digits 10 rest = true ->
  strtoull_digits 10 (dec_string d ++ rest) acc any
  = strtoull_digits 10 (dec_string d) acc any.
Proof.
  intros Hrest. unfold dec_string. revert acc any.
  induction d; intros acc any;
    cbn [DecimalString.NilEmpty.string_of_uint strtoull_digits append];
    [by rewrite strtoull_digits_stops|..];
    digit_step 10; apply IHd.
Qed.

Lemma strtoull_digits_hex_suffix (h : Hexadecimal.uint) (rest : string)
    (acc : Z) (any : bool) :
  stops_digits 16 rest = true ->
  strtoull_digits 16 (hex_string h ++ rest) acc any
  = strtoull_digits 16 (hex_string h) acc any.
Proof.
  intros Hrest. unfold hex_string. revert acc any.
  induction h; intros acc any;
    cbn [HexadecimalString.NilEmpty.string_of_uint strtoull_digits append];
    [by rewrite strtoull_digits_stops|..];
    digit_step 16; apply IHh.
Qed.

Lemma stoull_dec_suffix (d : Decimal.uint) (rest : string) :
  has_digit d = true -> stops_digits 10 rest = true ->
  stoull (dec_string d ++ rest) 10
  = if 2 ^ 64 <=? dec_value d then out_of_range else Id (dec_value d).
Proof.
  intros Hd Hrest. unfold stoull.
  assert (split_sign (skip_space (dec_string d ++ rest))
          = (false, (dec_string d ++ rest)%string)) as ->
    by (destruct d; [discriminate|..]; reflexivity).
  cbn [fst snd]. change (10 =? 16) with false. cbv iota.
  rewrite strtoull_digits_dec_suffix by done.
  rewrite strtoull_digits_dec, Hd.
  done.
Qed.

Lemma stoull_dec_signed (d : Decimal.uint) :
  has_digit d = true ->
  stoull (String "-" (dec_string d)) 10
  = (if 2 ^ 64 <=? dec_value d then out_of_range
     else Id (wrap64 (- dec_value d)))
  /\ stoull (String "+" (dec_string d)) 10
     = (if 2 ^ 64 <=? dec_value d then out_of_range else Id (dec_value d)).
Proof.
  intros Hd. unfold stoull.
  assert (split_sign (skip_space (String "-" (dec_string d)))
          = (true, dec_string d)) as -> by reflexivity.
  assert (split_sign (skip_space (String "+" (dec_string d)))
          = (false, dec_string d)) as -> by reflexivity.
  cbn [fst snd]. change (10 =? 16) with false. cbv iota.
  by rewrite strtoull_digits_dec, Hd.
Qed.








End morph_edges.


(** [convertMorphId_] reads a sequence index up to the first character
    that is not a decimal digit and ignores the rest of the string: text
    after the numeral does not change the identifier, so a sequence index
    written [0x10] is read as 0. *)
Theorem convertMorphId_ignores_trailing_text (d : Decimal.uint)
    (rest : string) :
  has_digit d = true -> dec_value d < 2 ^ 64 ->
  stops_digits 10 rest = true ->
  STFMorpher.convertMorphId_ STFMorpher.STFID (dec_string d ++ rest)
  = STFMorpher.Id (dec_value d).
Proof.
  intros Hd Hv Hrest. unfold STFMorpher.convertMorphId_.
  rewrite (stoull_dec_suffix d rest Hd Hrest).
  by rewrite (proj2 (Z.leb_gt _ _)).
Qed.

(** [convertMorphId_] accepts a sign in front of a sequence index: a plus
    sign changes nothing, and a minus sign is not an error but negates the
    value in 64-bit unsigned arithmetic. *)
Theorem convertMorphId_accepts_sign (d : Decimal.uint) :
  has_digit d = true -> dec_value d < 2 ^ 64 ->
  STFMorpher.convertMorphId_ STFMorpher.STFID (String "+" (dec_string d))
  = STFMorpher.Id (dec_value d)
  /\ STFMorpher.convertMorphId_ STFMorpher.STFID (String "-" (dec_string d))
     = STFMorpher.Id (wrap64 (- dec_value d)).
Proof.
  intros Hd Hv. unfold STFMorpher.convertMorphId_.
  destruct (stoull_dec_signed d Hd) as (-> & ->).
  by rewrite (proj2 (Z.leb_gt _ _)).
Qed.


(** * The size of an opcode morph *)

Lemma ops_size_snoc {R A : Type} (ops : list (@STFMorpher.Op R A)) o :
  ops_size (ops ++ [o]) = ops_size ops + STFMorpher.op_size_ o.
Proof.
  unfold ops_size. induction ops as [|x ops IH]; simpl; [lia|].
  rewrite IH. lia.
Qed.

(** After any sequence of [addOp] calls on a fresh [OpcodeMorph],
    [getOpcodes] returns the opcodes added, in the order in which they
    were added, and [getTotalSize] the sum of their sizes (as a
    [size_t]). *)
Theorem addOp_total_size (R A : Type) (ops : list (@STFMorpher.Op R A)) :
  let m := add_ops ops (STFMorpher.OpcodeMorph_default R A) in
  STFMorpher.getOpcodes m = ops
  /\ STFMorpher.getTotalSize m = wrap64 (ops_size ops).
Proof.
  cbn zeta. induction ops as [|o ops IH] using rev_ind; [done|].
  unfold add_ops in *. rewrite fold_left_app. simpl.
  destruct IH as (IHo & IHs).
  unfold STFMorpher.getOpcodes, STFMorpher.getTotalSize, STFMorpher.addOp in *.
  simpl. rewrite IHo, IHs, ops_size_snoc. split.
  - by destruct o.
  - apply wrap64_add_l.
Qed.

(** * The warnings of the non-Java profiler *)

Lemma IMem_count_impl_cerr config inst s :
  cerr_ (IMem_count_impl config inst s)
  = cerr_ s
    ++ match find_at (itv_ s) (pc inst) s with
       | Some d =>
           if opcodeMatch d (opcode inst) then []
           else [DiagTwoOpcodes (pc inst) (getOpcode d) (opcode inst)]
       | None => []
       end.
Proof.
  unfold IMem_count_impl.
  destruct (find_at (itv_ s) (pc inst) s) as [d|].
  - destruct (opcodeMatch d (opcode inst)); [|done]. cbn zeta.
    destruct (count_found_tables config
                (inst_count_ s <? warmup_count config) s d)
      as (_ & _ & Hc & _).
    rewrite app_nil_r.
    by destruct (isLoad inst || isStore inst);
      [|destruct (isTakenBranch inst)].
  - rewrite app_nil_r.
    by destruct (isLoad inst || isStore inst);
      [|destruct (isTakenBranch inst)].
Qed.

Lemma first_opcode_admitted config insts e :
  In e insts -> admitted config e = true ->
  is_Some (first_opcode config (pc e) insts).
Proof.
  intros Hin Hadm. unfold first_opcode.
  assert (In e (List.filter (at_pc config (pc e)) insts)) as Hin'.
  { apply List.filter_In. split; [done|]. unfold at_pc.
    by rewrite Hadm, Z.eqb_refl. }
  by destruct (List.filter (at_pc config (pc e)) insts).
Qed.

Lemma mismatch_warning_snoc config insts inst :
  omap (mismatch_warning config (insts ++ [inst])) insts
  = omap (mismatch_warning config insts) insts.
Proof.
  assert (forall l, (forall e, In e l -> In e insts) ->
            omap (mismatch_warning config (insts ++ [inst])) l
            = omap (mismatch_warning config insts) l) as H.
  { induction l as [|e l IH]; intros Hl; [done|].
    assert (mismatch_warning config (insts ++ [inst]) e
            = mismatch_warning config insts e) as He;
      [|change (omap ?f (e :: l))
          with (match f e with
                | Some y => y :: omap f l
                | None => omap f l
                end);
        rewrite He, IH by (intros; apply Hl; by right); done].
    unfold mismatch_warning.
    destruct (admitted config e) eqn:Hadm; [|done].
    rewrite first_opcode_snoc.
    destruct (first_opcode_admitted config insts e) as (o & ->);
      [apply Hl; by left|done|done]. }
  by apply H.
Qed.

(** The mismatch warnings of a run of the non-Java profiler are, in trace
    order, one for each admitted event whose opcode differs from the first
    opcode seen at its PC, naming the PC, that first opcode and the
    event's opcode. *)
Theorem imem_mismatch_warnings (config : STFImemConfig) (rv : bool)
    (insts : list STFInst) :
  let s := run IMem config insts (with_rv64 rv IMemMapVec_init) in
  List.filter is_two_opcodes (cerr_ s)
  = omap (mismatch_warning config insts) insts.
Proof.
  cbn zeta. induction insts as [|inst insts IH] using rev_ind; [done|].
  rewrite run_snoc, omap_app, mismatch_warning_snoc, <- IH.
  destruct (IMem_first_opcode_run config rv insts) as (m & HT & Hfirst).
  destruct (IMem_branch_inv_run config rv insts) as (m0 & Hm0 & Hitv & _).
  set (s := run IMem config insts (with_rv64 rv IMemMapVec_init)) in *.
  unfold loop_body. destruct (report_invalid_tables inst s) as (Ht & Hi & _).
  assert (List.filter is_two_opcodes (cerr_ (report_invalid inst s))
          = List.filter is_two_opcodes (cerr_ s)) as Hr.
  { unfold report_invalid. destruct (negb (valid inst)); [|done].
    simpl. rewrite List.filter_app. simpl. by rewrite app_nil_r. }
  change (omap ?f [inst])
    with (match f inst with Some y => [y] | None => [] end).
  unfold mismatch_warning.
  destruct (admitted config inst) eqn:Hadm; [|by rewrite Hr, app_nil_r].
  unfold count. cbn zeta.
  change (cerr_ (with_inst_count ?n ?x)) with (cerr_ x).
  simpl count_impl. rewrite IMem_count_impl_cerr, List.filter_app, Hr.
  f_equal.
  unfold find_at, table_at. rewrite Ht, Hi, Hitv, HT. simpl.
  rewrite first_opcode_snoc, <- Hfirst.
  destruct (m !! pc inst) as [d|] eqn:Hd; simpl.
  - unfold opcodeMatch, getOpcode.
    by destruct (opcode_ d =? opcode inst).
  - unfold at_pc. rewrite Hadm, Z.eqb_refl. simpl.
    by rewrite Z.eqb_refl.
Qed.

(** * The tables of the Java variant *)

Lemma length_store_at it key d s :
  length (imem_mapvec_ (store_at it key d s)) = length (imem_mapvec_ s).
Proof. unfold store_at. simpl. by rewrite length_alter. Qed.

Lemma length_insert_at it key d s :
  length (imem_mapvec_ (insert_at it key d s)) = length (imem_mapvec_ s).
Proof. unfold insert_at. simpl. by rewrite length_alter. Qed.

(** The Java variant adds a table only for a PC that every table holds. *)
Lemma JavaIMem_count_impl_length config inst s :
  let s' := JavaIMem_count_impl config inst s in
  length (imem_mapvec_ s') = length (imem_mapvec_ s)
  \/ forall i m, imem_mapvec_ s !! i = Some m -> is_Some (m !! pc inst).
Proof.
  cbn zeta.
  assert (forall w d,
            imem_mapvec_ (count_found config w (s, d)).1 = imem_mapvec_ s)
    as Hcf by (intros; apply count_found_tables).
  assert (length (imem_mapvec_ (JavaIMem_other_maps config inst s))
          = length (imem_mapvec_ s)
          \/ forall i m, imem_mapvec_ s !! i = Some m ->
               is_Some (m !! pc inst)) as Hother.
  { unfold JavaIMem_other_maps.
    destruct (java_search (pc inst) (opcode inst) (imem_mapvec_ s) 0 None)
      as [[[j d]|] itt] eqn:Hs.
    - left. cbn zeta.
      change (imem_mapvec_ (with_itv ?i ?x)) with (imem_mapvec_ x).
      by rewrite length_store_at, Hcf.
    - apply java_search_none in Hs as (_ & Hitt).
      destruct Hitt as [(-> & Hall)|(t & m & -> & _)].
      + by right.
      + left. cbn zeta. rewrite length_insert_at. by case_bool_decide. }
  unfold JavaIMem_count_impl.
  destruct (find_at (itv_ s) (pc inst) s) as [d|]; [|exact Hother].
  destruct (opcodeMatch d (opcode inst)); [|exact Hother].
  left. cbn zeta. by rewrite length_store_at, Hcf.
Qed.

(** The Java variant has more than one table only when some PC has an
    entry in every table (each with another opcode): there are as many
    tables as the largest number of opcodes seen at one PC. *)
Theorem java_tables_needed (config : STFImemConfig) (rv : bool)
    (insts : list STFInst) :
  let T := imem_mapvec_
             (run JavaIMem config insts (with_rv64 rv IMemMapVec_init)) in
  length T = 1%nat \/ exists key, Forall (fun m => is_Some (m !! key)) T.
Proof.
  revert insts.
  apply (run_ind JavaIMem config rv
           (fun insts s =>
              length (imem_mapvec_ s) = 1%nat
              \/ exists key,
                   Forall (fun m => is_Some (m !! key)) (imem_mapvec_ s))).
  - by left.
  - intros insts inst s IH Hadm.
    destruct (report_invalid_tables inst s) as (Ht & _). by rewrite Ht.
  - intros insts inst s s1 IH Hadm Hcases.
    destruct (report_invalid_tables inst s) as (Ht & _). fold s1 in Ht.
    pose proof (JavaIMem_count_impl_length config inst s1) as Hlen.
    cbn zeta in Hlen. rewrite Ht in Hlen.
    unfold count. cbn zeta.
    change (imem_mapvec_ (with_inst_count ?n ?x)) with (imem_mapvec_ x).
    unfold count_cases in Hcases. cbn zeta in Hcases. rewrite Ht in Hcases.
    simpl count_impl in *.
    assert (forall it m d,
              imem_mapvec_ s !! it = Some m ->
              (exists key, Forall (fun m => is_Some (m !! key))
                             (imem_mapvec_ s)) ->
              exists key, Forall (fun m => is_Some (m !! key))
                            (<[it := <[pc inst := d]> m]> (imem_mapvec_ s)))
      as Hkeep.
    { intros it m d Hm (key & Hall). exists key.
      apply Forall_insert; [done|].
      rewrite Forall_lookup in Hall. specialize (Hall it m Hm).
      destruct (decide (key = pc inst)) as [->|Hne].
      - rewrite lookup_insert_eq. eauto.
      - by rewrite lookup_insert_ne. }
    destruct Hcases as [(it & m & d0 & d' & Hm & _ & _ & _ & HT & _)
                       |[(it & m & d0 & Hm & _ & _ & HT & _)
                        |[(d0 & _ & HT & _)
                         |(? & _)]]]; [| | |done].
    + rewrite HT. destruct IH as [IH|IH].
      * left. by rewrite length_insert.
      * right. by apply Hkeep.
    + rewrite HT. destruct IH as [IH|IH].
      * left. by rewrite length_insert.
      * right. by apply Hkeep.
    + rewrite HT in *. right. exists (pc inst).
      destruct Hlen as [Hlen|Hall]; [simpl in Hlen; lia|].
      constructor.
      * rewrite lookup_singleton_eq. eauto.
      * apply Forall_lookup. intros i m Hm. by apply (Hall i).
Qed.

(** * The order of the blocks *)

(** [SortedMapKey::operator<] is a strict total order on (count, PC)
    pairs, as the multimap that sorts the blocks requires: larger counts
    are greater, and among equal counts the smaller PC is greater. *)
Theorem SortedMapKey_lt_strict_order :
  (forall a, SortedMapKey.lt a a = false)
  /\ (forall a b c,
        SortedMapKey.lt a b = true -> SortedMapKey.lt b c = true ->
        SortedMapKey.lt a c = true)
  /\ (forall a b,
        SortedMapKey.lt a b = true \/ a = b \/ SortedMapKey.lt b a = true)
  /\ (forall a b,
        SortedMapKey.lt a b = true
        <-> SortedMapKey.getCount a < SortedMapKey.getCount b
            \/ (SortedMapKey.getCount a = SortedMapKey.getCount b
                /\ SortedMapKey.getPC b < SortedMapKey.getPC a)).
Proof.
  unfold SortedMapKey.lt, SortedMapKey.getCount, SortedMapKey.getPC.
  split_and!.
  - intros [c p]. simpl. lia.
  - intros [c1 p1] [c2 p2] [c3 p3]. simpl. lia.
  - intros [c1 p1] [c2 p2]. simpl.
    destruct (decide (c1 = c2 /\ p1 = p2)) as [(-> & ->)|Hne];
      [by right; left|].
    assert ((c1 <? c2) || (c1 =? c2) && (p2 <? p1) = true
            \/ (c2 <? c1) || (c2 =? c1) && (p1 <? p2) = true) as [H|H]
      by lia; auto.
  - intros [c1 p1] [c2 p2]. simpl. lia.
Qed.

(** * What every entry of a run looks like *)

Section entries.

(** A property of entries that the constructors establish and the
    updates keep; the history updates and the constructors with an address
    or a branch outcome are used by the non-Java profiler only. *)
Variable impl : ImplType.
Variable P : IMemData -> Prop.
Hypothesis P_plain : forall is16 opc w, P (IMemData_plain is16 opc 0 w).
Hypothesis P_mem :
  impl = IMem -> forall is16 opc w a, P (IMemData_mem is16 opc 0 w a).
Hypothesis P_branch :
  impl = IMem -> forall is16 opc w br tk, P (IMemData_branch is16 opc 0 w br tk).
Hypothesis P_nextStride :
  impl = IMem -> forall a d, P d -> P (nextStride a d).
Hypothesis P_nextBranchHistory :
  impl = IMem -> forall b d, P d -> P (nextBranchHistory b d).
Hypothesis P_incCount : forall d, P d -> P (incCount d).
Hypothesis P_incWarmup : forall d, P d -> P (incWarmup d).
Hypothesis P_incRunLength : forall d, P d -> P (incRunLength d).

Lemma count_found_entry config w s d :
  P d -> P (count_found config w (s, d)).2.
Proof.
  intros Hd. unfold count_found, incCount_, incWarmup_, incRunLength_.
  destruct w; simpl; [auto|].
  destruct (inst_count_ s <? runlength_count config); simpl; auto.
Qed.

Lemma store_at_entries it key d s s1 :
  imem_mapvec_ s1 = imem_mapvec_ s -> P d ->
  Forall (map_Forall (fun _ : Z => P)) (imem_mapvec_ s) ->
  Forall (map_Forall (fun _ : Z => P)) (imem_mapvec_ (store_at it key d s1)).
Proof.
  intros Hs Hd Hall. unfold store_at. simpl. rewrite Hs.
  apply Forall_alter; [done|]. intros m _ Hm.
  by apply map_Forall_insert_2.
Qed.

Lemma insert_at_entries it key d s :
  P d ->
  Forall (map_Forall (fun _ : Z => P)) (imem_mapvec_ s) ->
  Forall (map_Forall (fun _ : Z => P)) (imem_mapvec_ (insert_at it key d s)).
Proof.
  intros Hd Hall. unfold insert_at. simpl.
  apply Forall_alter; [done|]. intros m _ Hm. unfold map_insert.
  destruct (m !! key); [done|]. by apply map_Forall_insert_2.
Qed.

Lemma count_impl_entries config inst s :
  Forall (map_Forall (fun _ : Z => P)) (imem_mapvec_ s) ->
  Forall (map_Forall (fun _ : Z => P))
    (imem_mapvec_ (count_impl impl config inst s)).
Proof.
  intros Hall.
  assert (forall d, find_at (itv_ s) (pc inst) s = Some d \/
                    (exists it m, imem_mapvec_ s !! it = Some m
                                  /\ m !! pc inst = Some d) -> P d) as Hin.
  { intros d [Hf|(it & m & Hm & Hd)].
    - apply find_at_Some in Hf as (m & Hm & Hd).
      rewrite Forall_lookup in Hall. apply (Hall _ _ Hm _ _ Hd).
    - rewrite Forall_lookup in Hall. apply (Hall _ _ Hm _ _ Hd). }
  assert (forall w d, imem_mapvec_ (count_found config w (s, d)).1
                      = imem_mapvec_ s) as Hcf
    by (intros; apply count_found_tables).
  destruct impl eqn:Himpl; simpl.
  - unfold IMem_count_impl.
    destruct (find_at (itv_ s) (pc inst) s) as [d|] eqn:Hcur.
    + destruct (opcodeMatch d (opcode inst)); [|done]. cbn zeta.
      assert (P d) as Hd by (apply Hin; by left).
      pose proof (count_found_entry config
                    (inst_count_ s <? warmup_count config) s d Hd) as Hd'.
      destruct (isLoad inst || isStore inst);
        [|destruct (isTakenBranch inst)];
        simpl; apply (store_at_entries _ _ _ s); try done.
      * by apply P_nextStride.
      * by apply P_nextBranchHistory.
    + destruct (isLoad inst || isStore inst);
        [|destruct (isTakenBranch inst)];
        apply insert_at_entries; try done.
      * by apply P_mem.
      * by apply P_branch.
      * apply P_plain.
  - assert (Forall (map_Forall (fun _ : Z => P))
              (imem_mapvec_ (JavaIMem_other_maps config inst s))) as Hother.
    { unfold JavaIMem_other_maps.
      destruct (java_search (pc inst) (opcode inst) (imem_mapvec_ s) 0 None)
        as [[[j d]|] itt] eqn:Hs.
      - apply java_search_found in Hs as (t & m & -> & Hm & Hk & _).
        cbn zeta.
        change (imem_mapvec_ (with_itv ?i ?x)) with (imem_mapvec_ x).
        apply (store_at_entries _ _ _ s); [done| |done].
        apply count_found_entry. apply Hin. right. eauto.
      - destruct itt as [t|]; cbn zeta.
        + case_bool_decide; apply insert_at_entries; try done;
            apply P_plain.
        + unfold insert_at. simpl. rewrite map_insert_empty.
          constructor; [|done]. apply map_Forall_singleton. apply P_plain. }
    unfold JavaIMem_count_impl.
    destruct (find_at (itv_ s) (pc inst) s) as [d|] eqn:Hcur; [|done].
    destruct (opcodeMatch d (opcode inst)); [|done]. cbn zeta.
    apply (store_at_entries _ _ _ s); [done| |done].
    apply count_found_entry. apply Hin. by left.
Qed.

Lemma run_entries config rv insts :
  Forall (map_Forall (fun _ : Z => P))
    (imem_mapvec_ (run impl config insts (with_rv64 rv IMemMapVec_init))).
Proof.
  induction insts as [|inst insts IH] using rev_ind.
  - constructor; [apply map_Forall_empty|constructor].
  - rewrite run_snoc. unfold loop_body.
    destruct (report_invalid_tables inst
                (run impl config insts (with_rv64 rv IMemMapVec_init)))
      as (Ht & _).
    destruct (admitted config inst); [|by rewrite Ht].
    unfold count. cbn zeta.
    change (imem_mapvec_ (with_inst_count ?n ?x)) with (imem_mapvec_ x).
    apply count_impl_entries. by rewrite Ht.
Qed.

End entries.

(** In every run the stride vector of every entry has its 50 slots and
    both history cursors are below 50: the writes of [nextStride] and
    [nextBranchHistory] stay inside the vector and the bitset. *)
Theorem run_histories_in_bounds (impl : ImplType) (config : STFImemConfig)
    (rv : bool) (insts : list STFInst) :
  Forall (map_Forall (fun (_ : Z) d =>
            length (getStrides d) = 50%nat
            /\ (recent_strides_idx_ d < 50)%nat
            /\ (branch_lhr_idx_ d < 50)%nat))
    (imem_mapvec_ (run impl config insts (with_rv64 rv IMemMapVec_init))).
Proof.
  apply (run_entries impl lhist_ok); try done.
  - intros. apply IMemData_new_ok.
  - intros. apply IMemData_new_ok.
  - intros. apply IMemData_new_ok.
  - intros _ a d. apply nextStride_idx_lt.
  - intros _ b d. apply nextBranchHistory_idx_lt.
Qed.

(** The Java variant keeps no history: no entry of a run is marked as a
    load, a store or a branch, and the stride vector and the branch
    history of every entry are as the constructor left them. *)
Theorem java_keeps_no_history (config : STFImemConfig) (rv : bool)
    (insts : list STFInst) :
  Forall (map_Forall (fun (_ : Z) d => no_history d))
    (imem_mapvec_ (run JavaIMem config insts (with_rv64 rv IMemMapVec_init))).
Proof.
  apply (run_entries JavaIMem no_history); try done.
Qed.

(** * The history of an entry over a run *)

Lemma history_count_found config w s d :
  history (count_found config w (s, d)).2 = history d.
Proof.
  unfold count_found. destruct w; simpl; [done|].
  by destruct (inst_count_ s <? runlength_count config).
Qed.

Lemma history_step_proper e d1 d2 :
  history d1 = history d2 ->
  history (history_step e d1) = history (history_step e d2).
Proof.
  destruct d1, d2. unfold history. simpl. intros [= -> -> -> -> -> -> ->].
  unfold history_step.
  by destruct (isLoad e || isStore e); [|destruct (isTakenBranch e)].
Qed.

Lemma history_new_entry w e :
  history (IMem_new_entry w e) = history (IMem_new_entry false e).
Proof.
  unfold IMem_new_entry.
  destruct (isLoad e || isStore e); [by destruct w|].
  destruct (isTakenBranch e); by destruct w.
Qed.

(** The two paths of [IMem::count_impl] that touch an entry, through the
    definitions above. *)
Lemma IMem_count_impl_new config inst s :
  find_at (itv_ s) (pc inst) s = None ->
  IMem_count_impl config inst s
  = insert_at (itv_ s) (pc inst)
      (IMem_new_entry (inst_count_ s <? warmup_count config) inst) s.
Proof.
  intros Hf. unfold IMem_count_impl, IMem_new_entry, addr_of. rewrite Hf.
  destruct (isLoad inst) eqn:Hl; simpl; [done|].
  destruct (isStore inst); simpl; [done|].
  by destruct (isTakenBranch inst).
Qed.

Lemma IMem_count_impl_found config inst s d :
  find_at (itv_ s) (pc inst) s = Some d ->
  opcodeMatch d (opcode inst) = true ->
  exists d',
    imem_mapvec_ (IMem_count_impl config inst s)
    = alter (<[pc inst := d']>) (itv_ s) (imem_mapvec_ s)
    /\ history d' = history (history_step inst d)
    /\ getOpcode d' = getOpcode d.
Proof.
  intros Hf Hop. unfold IMem_count_impl. rewrite Hf, Hop. cbn zeta.
  set (w := inst_count_ s <? warmup_count config).
  pose proof (history_count_found config w s d) as Hh.
  destruct (count_found_tables config w s d) as (Ht & _).
  destruct (count_found_counted config s d) as (_ & (_ & Ho & _)).
  fold w in Ho.
  exists (history_step inst (count_found config w (s, d)).2).
  split; [|split].
  - unfold history_step, addr_of.
    destruct (isLoad inst) eqn:Hl; simpl; [by rewrite Ht|].
    destruct (isStore inst); simpl; [by rewrite Ht|].
    destruct (isTakenBranch inst); simpl; by rewrite Ht.
  - by apply history_step_proper.
  - unfold getOpcode, history_step. rewrite <- Ho.
    by destruct (isLoad inst || isStore inst);
      [|destruct (isTakenBranch inst)].
Qed.

Lemma counts_event_filter_snoc config key opc insts inst :
  List.filter (counts_event config key opc) (insts ++ [inst])
  = List.filter (counts_event config key opc) insts
    ++ (if counts_event config key opc inst then [inst] else []).
Proof. by rewrite List.filter_app. Qed.

Lemma counts_event_filter_nil config key opc insts :
  Forall (fun e => admitted config e = true -> pc e <> key) insts ->
  List.filter (counts_event config key opc) insts = [].
Proof.
  induction 1 as [|e l He _ IHl]; [done|].
  simpl. rewrite IHl. unfold counts_event.
  destruct (admitted config e); [|done].
  by rewrite (proj2 (Z.eqb_neq (pc e) key)) by auto.
Qed.

(** The history fields of each entry of the non-Java profiler come from
    its counted occurrences, the admitted events at its PC with its
    opcode: the entry made for the first of them, then for each later one,
    in trace order, a stride if it is a load or a store, else a taken bit
    if it is a taken branch, else nothing. *)
Theorem imem_history_of_occurrences (config : STFImemConfig) (rv : bool)
    (insts : list STFInst) :
  let s := run IMem config insts (with_rv64 rv IMemMapVec_init) in
  exists m,
    imem_mapvec_ s = [m]
    /\ forall key d, m !! key = Some d ->
         exists e later,
           List.filter (counts_event config key (getOpcode d)) insts
           = e :: later
           /\ history d
              = history (fold_left (fun d e => history_step e d) later
                           (IMem_new_entry false e)).
Proof.
  cbn zeta. induction insts as [|inst insts IH] using rev_ind.
  - exists ∅. split; [done|]. intros key d Hd. by rewrite lookup_empty in Hd.
  - destruct IH as (m & HT & Hhist).
    rewrite run_snoc.
    destruct (IMem_branch_inv_run config rv insts)
      as (m0 & Hm0 & Hitv & _ & Habs).
    set (s := run IMem config insts (with_rv64 rv IMemMapVec_init)) in *.
    rewrite HT in Hm0. inversion Hm0; subst m0. clear Hm0.
    unfold loop_body. destruct (report_invalid_tables inst s)
      as (Ht & Hi & Hc).
    set (s1 := report_invalid inst s) in *.
    assert (forall key d, m !! key = Some d ->
              counts_event config key (getOpcode d) inst = false ->
              exists e later,
                List.filter (counts_event config key (getOpcode d))
                  (insts ++ [inst]) = e :: later
                /\ history d
                   = history (fold_left (fun d e => history_step e d) later
                                (IMem_new_entry false e))) as Hkeep.
    { intros key d Hd Hev. destruct (Hhist key d Hd) as (e & later & Hf & Hh).
      exists e, later. split; [|done].
      by rewrite counts_event_filter_snoc, Hev, app_nil_r. }
    destruct (admitted config inst) eqn:Hadm.
    + unfold count. cbn zeta.
      change (imem_mapvec_ (with_inst_count ?n ?x)) with (imem_mapvec_ x).
      simpl count_impl.
      assert (find_at (itv_ s1) (pc inst) s1 = m !! pc inst) as Hfind.
      { unfold find_at, table_at. by rewrite Ht, Hi, Hitv, HT. }
      assert (forall key d, key <> pc inst -> m !! key = Some d ->
                counts_event config key (getOpcode d) inst = false) as Hne.
      { intros key d Hk _. unfold counts_event.
        rewrite (proj2 (Z.eqb_neq (pc inst) key)) by done.
        by rewrite andb_false_r. }
      destruct (m !! pc inst) as [d|] eqn:Hd.
      * destruct (opcodeMatch d (opcode inst)) eqn:Hop.
        -- destruct (IMem_count_impl_found config inst s1 d Hfind Hop)
             as (d' & HT' & Hh' & Ho').
           rewrite HT', Ht, Hi, Hitv, HT. simpl.
           eexists. split; [done|]. intros key x Hx.
           destruct (decide (key = pc inst)) as [->|Hk].
           ++ rewrite lookup_insert_eq in Hx. inversion Hx; subst x.
              destruct (Hhist _ _ Hd) as (e & later & Hf & Hh).
              exists e, (later ++ [inst]). split.
              ** rewrite Ho', counts_event_filter_snoc, Hf.
                 unfold counts_event. rewrite Hadm, Z.eqb_refl.
                 unfold opcodeMatch, getOpcode in *. simpl.
                 by rewrite (proj2 (Z.eqb_eq _ _))
                   by (symmetry; by apply Z.eqb_eq).
              ** rewrite fold_left_app. simpl. rewrite Hh'.
                 by apply history_step_proper.
           ++ rewrite lookup_insert_ne in Hx by done.
              apply Hkeep; [done|]. by apply Hne.
        -- unfold IMem_count_impl. rewrite Hfind, Hop. simpl.
           rewrite Ht, HT. exists m. split; [done|]. intros key x Hx.
           apply Hkeep; [done|].
           destruct (decide (key = pc inst)) as [->|Hk]; [|by apply Hne].
           assert (x = d) as -> by congruence.
           unfold counts_event. unfold opcodeMatch, getOpcode in *.
           rewrite (Z.eqb_sym (opcode inst)), Hop. by rewrite andb_false_r.
      * rewrite (IMem_count_impl_new config inst s1 Hfind).
        unfold insert_at. simpl. rewrite Hi, Hitv, Ht, HT. simpl.
        unfold map_insert. rewrite Hd.
        eexists. split; [done|]. intros key x Hx.
        destruct (decide (key = pc inst)) as [->|Hk].
        -- rewrite lookup_insert_eq in Hx. inversion Hx; subst x.
           exists inst, []. split.
           ++ rewrite counts_event_filter_snoc.
              assert (List.filter
                        (counts_event config (pc inst)
                           (getOpcode
                              (IMem_new_entry
                                 (inst_count_ s1 <? warmup_count config) inst)))
                        insts = []) as ->.
              { apply counts_event_filter_nil. by apply Habs. }
              simpl. unfold counts_event. rewrite Hadm, Z.eqb_refl. simpl.
              assert (getOpcode
                        (IMem_new_entry
                           (inst_count_ s1 <? warmup_count config) inst)
                      = opcode inst) as ->.
              { unfold IMem_new_entry, createIMem_addr, createIMem_branch,
                  createIMem_, IMemData_mem, IMemData_branch, IMemData_plain,
                  IMemData_new.
                by destruct (isLoad inst || isStore inst);
                  [|destruct (isTakenBranch inst)]. }
              by rewrite Z.eqb_refl.
           ++ simpl. apply history_new_entry.
        -- rewrite lookup_insert_ne in Hx by done.
           apply Hkeep; [done|]. by apply Hne.
    + exists m. split; [by rewrite Ht|]. intros key d Hd.
      apply Hkeep; [done|]. unfold counts_event. by rewrite Hadm.
Qed.

(** * The theorems about runs at sample traces *)

(** The count sum at a trace of the Java variant with two opcodes at one
    PC. *)
Lemma processTrace_counts_add_up_witness :
  let config := default_config true in
  let insts := [plain_inst 1 256 19; plain_inst 2 256 51;
                plain_inst 3 260 19] in
  let s := processTrace_ JavaIMem config false insts IMemMapVec_init in
  total_count s + two_opcodes_warnings s = inst_count_ s
  /\ (JavaIMem = JavaIMem -> total_count s = inst_count_ s).
Proof.
  intros config insts.
  apply (processTrace_counts_add_up JavaIMem config false insts).
  vm_compute. reflexivity.
Defined.

(** [keep_count] at 2 on a trace of three admitted events. *)
Lemma processTrace_keep_count_witness :
  let config :=
    mkSTFImemConfig false 0 0 0 2 false (2 ^ 64 - 1) 0 false false false
      false in
  let insts := [plain_inst 1 256 19; plain_inst 2 260 51;
                plain_inst 3 264 19] in
  inst_count_ (processTrace_ IMem config false insts IMemMapVec_init)
  = Z.min (admitted_count config insts) (Z.max 1 (keep_count config)).
Proof.
  intros config insts.
  apply (processTrace_keep_count IMem config false insts).
  vm_compute. reflexivity.
Defined.

(** The counts of the entries after a loop body run twice and an event
    with another opcode. *)
Lemma run_entry_counts_witness :
  let config := default_config false in
  let insts := [plain_inst 1 256 19; plain_inst 2 260 51;
                plain_inst 3 256 19; plain_inst 4 260 51;
                plain_inst 5 256 99] in
  let s := run IMem config insts (with_rv64 false IMemMapVec_init) in
  Forall (map_Forall (fun key d =>
            getCount d = occurrences config key (getOpcode d) insts
            /\ 0 < getCount d))
    (imem_mapvec_ s).
Proof.
  intros config insts.
  apply (run_entry_counts IMem config false insts).
  vm_compute. reflexivity.
Defined.

(** Two opcodes at one PC in the Java variant. *)
Lemma java_one_entry_per_opcode_witness :
  let config := default_config false in
  let insts := [plain_inst 1 256 19; plain_inst 2 256 51;
                plain_inst 3 256 19] in
  let T := imem_mapvec_
             (run JavaIMem config insts (with_rv64 false IMemMapVec_init)) in
  (forall key opc,
     has_pair T key opc <-> 0 < occurrences config key opc insts)
  /\ (forall i j key di dj,
        entry_at T i key di -> entry_at T j key dj ->
        getOpcode di = getOpcode dj -> i = j).
Proof.
  intros config insts.
  apply (java_one_entry_per_opcode config false insts).
  vm_compute. reflexivity.
Defined.

(** The assertion of the sorted report after a mismatch warning. *)
Lemma sorted_report_assert_fails_iff_witness :
  let config := default_config true in
  let insts := [plain_inst 1 256 19; plain_inst 2 256 51] in
  let s := processTrace_ IMem config false insts IMemMapVec_init in
  stf_assert_failed_ (print config false s) <> None
  <-> sort_output config = true /\ 0 < two_opcodes_warnings s.
Proof.
  intros config insts.
  apply (sorted_report_assert_fails_iff IMem config false insts false).
  vm_compute. reflexivity.
Defined.

(** The window counters with a warm-up window of one event. *)
Lemma run_window_counters_witness :
  let config :=
    mkSTFImemConfig false 0 0 0 (2 ^ 64 - 1) false (2 ^ 64 - 1) 1 true false
      false false in
  let insts := [plain_inst 1 256 19; plain_inst 2 256 19;
                plain_inst 3 260 51] in
  let s := run IMem config insts (with_rv64 false IMemMapVec_init) in
  Forall (map_Forall (fun (_ : Z) d =>
            0 <= getWarmup d /\ 0 <= getRunLength d
            /\ getWarmup d + getRunLength d <= getCount d
            /\ (Z.of_nat (length insts) <= runlength_count config ->
                getWarmup d + getRunLength d = getCount d)))
    (imem_mapvec_ s).
Proof.
  intros config insts.
  apply (run_window_counters IMem config false insts).
  vm_compute. reflexivity.
Defined.

(** The warm-up total with a warm-up window of two events. *)
Lemma processTrace_warmup_total_witness :
  let config :=
    mkSTFImemConfig false 0 0 0 (2 ^ 64 - 1) false (2 ^ 64 - 1) 2 true false
      false false in
  let insts := [plain_inst 1 256 19; plain_inst 2 256 19;
                plain_inst 3 260 51] in
  let s := processTrace_ JavaIMem config false insts IMemMapVec_init in
  total_warmup s <= Z.max 0 (Z.min (inst_count_ s) (warmup_count config))
  /\ (JavaIMem = JavaIMem ->
      total_warmup s
      = Z.max 0 (Z.min (inst_count_ s) (warmup_count config))).
Proof.
  intros config insts.
  apply (processTrace_warmup_total JavaIMem config false insts).
  vm_compute. reflexivity.
Defined.

(** The maximum count after an instruction seen three times. *)
Lemma processTrace_max_count_witness :
  let config := default_config true in
  let insts := [plain_inst 1 256 19; plain_inst 2 260 51;
                plain_inst 3 256 19; plain_inst 4 256 19] in
  let s := processTrace_ IMem config false insts IMemMapVec_init in
  Forall (map_Forall (fun (_ : Z) d => getCount d <= Z.max 1 (max_count_ s)))
    (imem_mapvec_ s)
  /\ (max_count_ s = 0
      \/ (1 < max_count_ s
          /\ exists i key d, entry_at (imem_mapvec_ s) i key d
                             /\ getCount d = max_count_ s)).
Proof.
  intros config insts.
  apply (processTrace_max_count IMem config false insts).
  vm_compute. reflexivity.
Defined.

(** The stride from address 0x1000 to address 0x0ff8: -8. *)
Lemma nextStride_records_difference_witness :
  let d := IMemData_mem false 19 0 false 4096 in
  let d' := nextStride 4088 d in
  exists stride,
    getStrides d' !! recent_strides_idx_ d = Some stride
    /\ - 2 ^ 63 <= stride < 2 ^ 63
    /\ wrap64 (last_address_ d + stride) = 4088
    /\ last_address_ d' = 4088
    /\ forall i, i <> recent_strides_idx_ d ->
         getStrides d' !! i = getStrides d !! i.
Proof.
  intros d.
  apply (nextStride_records_difference 4088 d).
  - repeat split; vm_compute; lia.
  - lia.
Defined.

(** * The theorems about morph identifiers at sample strings *)


(** A sequence index written [0x10] is read as 0. *)
Lemma convertMorphId_ignores_trailing_text_witness :
  STFMorpher.convertMorphId_ STFMorpher.STFID "0x10" = STFMorpher.Id 0.
Proof.
  apply (convertMorphId_ignores_trailing_text
           (Decimal.D0 Decimal.Nil) "x10"); reflexivity.
Defined.

(** The sequence indices [+1] and [-1]. *)
Lemma convertMorphId_accepts_sign_witness :
  STFMorpher.convertMorphId_ STFMorpher.STFID "+1" = STFMorpher.Id 1
  /\ STFMorpher.convertMorphId_ STFMorpher.STFID "-1"
     = STFMorpher.Id 18446744073709551615.
Proof.
  apply (convertMorphId_accepts_sign (Decimal.D1 Decimal.Nil)); reflexivity.
Defined.


(** [keep_count] at 1: the invalid instruction at index 1 is admitted and
    reported, the loop leaves after it, and the invalid instruction at
    index 2 is not reported. *)
Lemma processTrace_reports_invalid_witness :
  let config :=
    mkSTFImemConfig false 0 0 0 1 false (2 ^ 64 - 1) 0 false false false
      false in
  let invalid_inst idx inst_pc opc :=
    mkSTFInst idx inst_pc opc false false false 0 0 0 false false false
      [] [] in
  let insts := [invalid_inst 1 256 19; invalid_inst 2 260 51] in
  cerr_ (processTrace_ JavaIMem config false insts IMemMapVec_init)
  = [DiagInvalidInst 1 19 256]
  /\ reached config 0 insts = [invalid_inst 1 256 19].
Proof.
  intros config invalid_inst insts.
  destruct (processTrace_reports_invalid JavaIMem config false insts)
    as (_ & Hj & _).
  split; [|reflexivity].
  rewrite (Hj eq_refl). reflexivity.
Defined.
